(** * FLAME Image Labeling Tool: windowed cache, prefetch queue and state file

    A shallow embedding of [Labeling/FLAME Image Labeling Tool.py]:
    the task queue and the [img_loader] workers, the per-kind result
    stacks, the three index-addressed caches, the arrow / go-to /
    load-state / save-state handlers of the event loop in [main], and the
    reconciliation block that closes every loop iteration.

    Python values are modelled as follows.
    - [int] is [Z]; [a % n] with [n > 0] is [Z.modulo].
    - [str] is [string], one [ascii] for each character of an ASCII text;
      the file read by Load State is the string of its contents. [int()]
      is the one call of the program whose result depends on what a
      character outside ASCII means (it accepts the decimal digits and the
      spaces of every script): on a text with such a character it is the
      field [int_non_ascii] of [Unicode].
    - a raised exception is the [Raise] case of [result].
    - a list indexed by an [int] goes through [py_getitem] / [py_setitem],
      which wrap a negative index once and raise [IndexError] out of range.
    - the decoders ([load_image], [get_temp_stats_from_tiff]) call into
      OpenCV, PIL and NumPy; they are fields of [Env] returning a [result]. *)

From Stdlib Require Import ZArith Ascii String DecimalString DecimalPos DecimalZ Lia.
From stdpp Require Import base decidable option list list_numbers strings.

Local Open Scope Z_scope.

(** ** Exceptions *)

Inductive exn : Type :=
  | ValueError
  | TypeError
  | IndexError
  | Cv2Error
  | OSError.

Inductive result (A : Type) : Type :=
  | Ok (a : A)
  | Raise (e : exn).
Arguments Ok {A} a.
Arguments Raise {A} e.

(** Statements run in sequence until one raises: [x ← r; k]. *)
#[global] Instance result_bind : MBind result := λ A B k r,
  match r with
  | Ok a => k a
  | Raise e => Raise e
  end.

#[global] Instance result_ret : MRet result := λ A a, Ok a.

#[global] Instance exn_eq_dec : EqDecision exn.
Proof. solve_decision. Defined.

(** ** Python strings *)

(** What [int()] returns on a text that has a character outside ASCII.
    The interpreter first maps the decimal digits and the spaces of other
    scripts to ASCII by its Unicode tables; a text it cannot read as an
    integer raises [ValueError], like an ASCII one. *)
Class Unicode : Type := {
  int_non_ascii : string → result Z;
  int_non_ascii_raises : ∀ s e, int_non_ascii s = Raise e → e = ValueError }.

Module PyStr.

(** The characters [int()] skips at both ends of an ASCII text: tab, line
    feed, vertical tab, form feed, carriage return and the space. The
    separators 28 to 31, which [str.strip()] removes, are not among
    them. *)
Definition is_space (c : ascii) : bool :=
  let n := nat_of_ascii c in
  (((9 <=? n) && (n <=? 13)) || (n =? 32))%nat.

Definition is_digit (c : ascii) : bool :=
  let n := nat_of_ascii c in ((48 <=? n) && (n <=? 57))%nat.

Fixpoint all_chars (p : ascii → bool) (s : string) : bool :=
  match s with
  | EmptyString => true
  | String c r => p c && all_chars p r
  end.

Definition not_newline (c : ascii) : bool := negb (Ascii.eqb c "010").

(** [s.isascii()]: every character is below 128. *)
Definition is_ascii_char (c : ascii) : bool := (nat_of_ascii c <? 128)%nat.

Definition is_ascii (s : string) : bool := all_chars is_ascii_char s.

Definition is_empty (s : string) : bool :=
  match s with EmptyString => true | String _ _ => false end.

(** What [int()] does with the spaces around the number: it skips those
    in front, and those behind the last digit. *)
Fixpoint skip_spaces (s : string) : string :=
  match s with
  | EmptyString => EmptyString
  | String c r => if is_space c then skip_spaces r else s
  end.

Fixpoint drop_trailing_spaces (s : string) : string :=
  match s with
  | EmptyString => EmptyString
  | String c r =>
      let r' := drop_trailing_spaces r in
      if is_space c && is_empty r' then EmptyString else String c r'
  end.

Definition trim (s : string) : string := drop_trailing_spaces (skip_spaces s).

(** The decimal grammar of [int()]: a digit, then digits each optionally
    preceded by one underscore. [prev] tells whether the previous
    character was a digit. *)
Fixpoint digits_ok (prev : bool) (s : string) : bool :=
  match s with
  | EmptyString => prev
  | String c r =>
      if is_digit c then digits_ok true r
      else if Ascii.eqb c "_" then prev && digits_ok false r
      else false
  end.

Fixpoint drop_underscores (s : string) : string :=
  match s with
  | EmptyString => EmptyString
  | String c r =>
      if Ascii.eqb c "_" then drop_underscores r
      else String c (drop_underscores r)
  end.

Definition int_unsigned (s : string) : result Z :=
  if digits_ok false s then
    match NilEmpty.uint_of_string (drop_underscores s) with
    | Some d => Ok (Z.of_uint d)
    | None => Raise ValueError
    end
  else Raise ValueError.

(** [int(s)] for an ASCII [str], base 10: spaces, an optional sign, the
    digits, spaces. *)
Definition int_ascii (s : string) : result Z :=
  match trim s with
  | EmptyString => Raise ValueError
  | String c r =>
      if Ascii.eqb c "-" then n ← int_unsigned r; Ok (- n)
      else if Ascii.eqb c "+" then int_unsigned r
      else int_unsigned (String c r)
  end.

(** [int(s)] for a [str] argument, base 10. *)
Definition int `{Unicode} (s : string) : result Z :=
  if is_ascii s then int_ascii s else int_non_ascii s.

(** [int(x)] where [x] is what a dialog returned: [None] when the dialog
    was cancelled, which [int()] rejects with [TypeError]. *)
Definition int_of_dialog `{Unicode} (x : option string) : result Z :=
  match x with
  | None => Raise TypeError
  | Some s => int s
  end.

(** [str(n)] / [f'{n}'] for an [int]. *)
Definition str (n : Z) : string := NilEmpty.string_of_int (Z.to_int n).

(** [s.replace(c, "")] for a one-character [c]. *)
Fixpoint remove_char (c : ascii) (s : string) : string :=
  match s with
  | EmptyString => EmptyString
  | String d r =>
      if Ascii.eqb d c then remove_char c r else String d (remove_char c r)
  end.

(** [s.split(c)] for a one-character separator: never the empty list. *)
Fixpoint split (c : ascii) (s : string) : list string :=
  match s with
  | EmptyString => [EmptyString]
  | String d r =>
      if Ascii.eqb d c then EmptyString :: split c r
      else match split c r with
           | [] => [String d EmptyString]
           | w :: ws => String d w :: ws
           end
  end.

Fixpoint take (n : nat) (s : string) : string :=
  match n, s with
  | S n', String c r => String c (take n' r)
  | _, _ => EmptyString
  end.

Fixpoint drop (n : nat) (s : string) : string :=
  match n, s with
  | S n', String _ r => drop n' r
  | _, _ => s
  end.

(** [s[1:-2]]: from position 1 up to, not including, position [len s - 2];
    empty when that range is empty. *)
Definition slice_1_m2 (s : string) : string :=
  take (String.length s - 2 - 1) (drop 1 s).

(** [f.readline()]: the text up to and including the first newline (or up
    to the end of the file), and what is left of the file. *)
Fixpoint readline (s : string) : string * string :=
  match s with
  | EmptyString => (EmptyString, EmptyString)
  | String c r =>
      if Ascii.eqb c "010" then (String c EmptyString, r)
      else let '(l, rest) := readline r in (String c l, rest)
  end.

(** [s.split(".")[0]]: the text before the first dot. *)
Fixpoint before_dot (s : string) : string :=
  match s with
  | EmptyString => EmptyString
  | String c r =>
      if Ascii.eqb c "." then EmptyString else String c (before_dot r)
  end.

End PyStr.

(** ** Python lists *)

(** The position a subscript [l[i]] denotes: a negative [i] counts from
    the end, anything outside [-len l, len l) raises [IndexError]. *)
Definition py_norm_index {A} (l : list A) (i : Z) : result nat :=
  let n := Z.of_nat (length l) in
  if bool_decide (0 ≤ i < n) then Ok (Z.to_nat i)
  else if bool_decide (- n ≤ i < 0) then Ok (Z.to_nat (i + n))
  else Raise IndexError.

Definition py_getitem {A} (l : list A) (i : Z) : result A :=
  k ← py_norm_index l i;
  match l !! k with
  | Some x => Ok x
  | None => Raise IndexError
  end.

Definition py_setitem {A} (l : list A) (i : Z) (v : A) : result (list A) :=
  k ← py_norm_index l i; Ok (<[k:=v]> l).

(** [l.remove(x)]: drops the first element equal to [x], [ValueError] when
    there is none. *)
Fixpoint py_remove `{EqDecision A} (x : A) (l : list A) : result (list A) :=
  match l with
  | [] => Raise ValueError
  | y :: l' =>
      if decide (y = x) then Ok l'
      else l'' ← py_remove x l'; Ok (y :: l'')
  end.

(** ** Data model *)

(** The third component of a task tuple: ["rgb"], ["ir"] or ["tiff"]. *)
Inductive kind : Type := rgb | ir | tiff.

(** The entries of [labels]: ['Fire'], ['No Fire']; [None] is unlabeled. *)
Inductive label : Type := Fire | NoFire.

(** A queue entry [(index, path, rgb_ir)]; [Sentinel] is the tuple
    [(None, None, None)] that [img_loader] recognises by [path is None]. *)
Inductive task : Type :=
  | LoadTask (id : Z) (path : string) (rgb_ir : kind)
  | Sentinel.

(** [queue.Queue]: the FIFO of entries and the counter of tasks that were
    put and not yet marked done, on which [q.join()] waits. *)
Record Queue : Type := mkQueue {
  items : list task;
  unfinished_tasks : nat }.

(** One [img_loader] thread: blocked in (or about to call) [q.get()],
    holding a dequeued task it is decoding, returned after a sentinel, or
    terminated by an exception that left [img_loader]. *)
Inductive worker : Type :=
  | Waiting
  | Working (id : Z) (path : string) (rgb_ir : kind)
  | Exited
  | Crashed (e : exn).

#[global] Instance kind_eq_dec : EqDecision kind.
Proof. solve_decision. Defined.
#[global] Instance label_eq_dec : EqDecision label.
Proof. solve_decision. Defined.
#[global] Instance task_eq_dec : EqDecision task.
Proof. solve_decision. Defined.
#[global] Instance worker_eq_dec : EqDecision worker.
Proof. solve_decision. Defined.

(** What the program shows or writes during one loop iteration. *)
Inductive output : Type :=
  | wrote_save_state (content : string)
  | popup_state_saved
  | popup_select_valid_file
  | popup_err_num_files
  | popup_err_unknown_entry
  | popup_err_labels_length
  | popup_loaded_state
  | popup_err_goto_range
  | popup_goto_ok (pair_number : Z).

(** The events of the loop that touch the cache, the queue or the state
    file, with what the dialogs they open return.
    - [ev_save_state c]: [c] is the answer of [popup_yes_no]
      ([Some true] for "Yes", [Some false] for "No", [None] when closed).
    - [ev_load_state f]: [f] is the text of the file chosen in
      [popup_get_file], [None] when the dialog was cancelled.
    - [ev_goto x]: [x] is what [popup_get_text] returned. *)
Inductive event : Type :=
  | ev_timeout
  | ev_left
  | ev_right
  | ev_save_state (confirm : option bool)
  | ev_load_state (f : option string)
  | ev_goto (new_index : option string).

(** What the program is run with: the Unicode tables of the interpreter,
    the decoded payload types, the two decoders, the selected folder, its
    file list and the buffer radius (the module constant
    [BUFF_RADIUS = 7]). [main] returns before the
    preload when [rgb_image_files] is empty, so everything below runs
    with a non-empty list and [% len(rgb_image_files)] never divides by
    zero. *)
Class Env : Type := {
  unicode :: Unicode;
  payload : Type;
  stats : Type;
  payload_eq_dec :: EqDecision payload;
  stats_eq_dec :: EqDecision stats;
  load_image : string → result payload;
  get_temp_stats_from_tiff : string → result stats;
  folder_path : string;
  rgb_image_files : list string;
  rgb_image_files_nonempty : rgb_image_files ≠ [];
  BUFF_RADIUS : Z }.

Section model.
Context `{E : Env}.

(** The module globals [q], [b_rgb], [b_ir], [b_tiff], the locals of
    [main] that survive an iteration, and the worker threads. *)
Record state : Type := mkState {
  index : Z;
  labels : list (option label);
  loaded_rgb_images : list (option payload);
  loaded_ir_images : list (option payload);
  loaded_tiff_vals : list (option stats);
  q : Queue;
  b_rgb : list (Z * payload);
  b_ir : list (Z * payload);
  b_tiff : list (Z * stats);
  threads : list worker }.

Definition set_index (v : Z) (st : state) : state :=
  mkState v (labels st) (loaded_rgb_images st) (loaded_ir_images st)
    (loaded_tiff_vals st) (q st) (b_rgb st) (b_ir st) (b_tiff st) (threads st).
Definition set_labels (v : list (option label)) (st : state) : state :=
  mkState (index st) v (loaded_rgb_images st) (loaded_ir_images st)
    (loaded_tiff_vals st) (q st) (b_rgb st) (b_ir st) (b_tiff st) (threads st).
Definition set_loaded_rgb_images (v : list (option payload)) (st : state) : state :=
  mkState (index st) (labels st) v (loaded_ir_images st)
    (loaded_tiff_vals st) (q st) (b_rgb st) (b_ir st) (b_tiff st) (threads st).
Definition set_loaded_ir_images (v : list (option payload)) (st : state) : state :=
  mkState (index st) (labels st) (loaded_rgb_images st) v
    (loaded_tiff_vals st) (q st) (b_rgb st) (b_ir st) (b_tiff st) (threads st).
Definition set_loaded_tiff_vals (v : list (option stats)) (st : state) : state :=
  mkState (index st) (labels st) (loaded_rgb_images st) (loaded_ir_images st)
    v (q st) (b_rgb st) (b_ir st) (b_tiff st) (threads st).
Definition set_q (v : Queue) (st : state) : state :=
  mkState (index st) (labels st) (loaded_rgb_images st) (loaded_ir_images st)
    (loaded_tiff_vals st) v (b_rgb st) (b_ir st) (b_tiff st) (threads st).
Definition set_b_rgb (v : list (Z * payload)) (st : state) : state :=
  mkState (index st) (labels st) (loaded_rgb_images st) (loaded_ir_images st)
    (loaded_tiff_vals st) (q st) v (b_ir st) (b_tiff st) (threads st).
Definition set_b_ir (v : list (Z * payload)) (st : state) : state :=
  mkState (index st) (labels st) (loaded_rgb_images st) (loaded_ir_images st)
    (loaded_tiff_vals st) (q st) (b_rgb st) v (b_tiff st) (threads st).
Definition set_b_tiff (v : list (Z * stats)) (st : state) : state :=
  mkState (index st) (labels st) (loaded_rgb_images st) (loaded_ir_images st)
    (loaded_tiff_vals st) (q st) (b_rgb st) (b_ir st) v (threads st).
Definition set_threads (v : list worker) (st : state) : state :=
  mkState (index st) (labels st) (loaded_rgb_images st) (loaded_ir_images st)
    (loaded_tiff_vals st) (q st) (b_rgb st) (b_ir st) (b_tiff st) v.

(** [len(rgb_image_files)], the sequence length. *)
Definition num_images : Z := Z.of_nat (length rgb_image_files).

(** The distance every window test of the source computes:
    [min((index - id) % len(rgb_image_files), (id - index) % len(rgb_image_files))]. *)
Definition circular_distance (idx id : Z) : Z :=
  Z.min ((idx - id) mod num_images) ((id - idx) mod num_images).

(** [rgb_image_files[t]] for [t] computed [% len(rgb_image_files)]. *)
Definition file_name (t : Z) : string :=
  nth (Z.to_nat t) rgb_image_files EmptyString.

Definition rgb_task (t : Z) : task :=
  LoadTask t (folder_path +:+ "/RGB/Corrected FOV/" +:+ file_name t) rgb.
Definition ir_task (t : Z) : task :=
  LoadTask t (folder_path +:+ "/Thermal/JPG/" +:+ file_name t) ir.
Definition tiff_task (t : Z) : task :=
  LoadTask t (folder_path +:+ "/Thermal/Celsius TIFF/"
            +:+ PyStr.before_dot (file_name t) +:+ ".TIFF") tiff.

(** ** The queue *)

Definition q_put (t : task) (qu : Queue) : Queue :=
  mkQueue (items qu ++ [t]) (S (unfinished_tasks qu)).

Definition q_task_done (qu : Queue) : Queue :=
  mkQueue (items qu) (Nat.pred (unfinished_tasks qu)).

(** [q.join()] returns once every task that was put has been marked done. *)
Definition q_join_returns (qu : Queue) : bool :=
  bool_decide (unfinished_tasks qu = 0%nat).

Definition put (t : task) (st : state) : state := set_q (q_put t (q st)) st.

(** [create_queue(task_items)]. *)
Definition create_queue (task_items : list task) (st : state) : state :=
  foldl (λ s t, put t s) st task_items.

(** ** The workers *)

(** What a worker does with the entry [q.get()] returned: [break] on
    the sentinel ([path is None]), decode anything else. *)
Definition took (t : task) : worker :=
  match t with
  | Sentinel => Exited
  | LoadTask id path rgb_ir => Working id path rgb_ir
  end.

(** [img_loader], first half of a pass through its loop: [q.get()] and the
    sentinel test. [None] when worker [w] cannot take this step: it is
    not waiting, or it is and the queue is empty, so [q.get()] blocks. *)
Definition img_loader_get (w : nat) (st : state) : option state :=
  match threads st !! w with
  | Some Waiting =>
      match items (q st) with
      | [] => None
      | t :: rest =>
          let st' := set_q (mkQueue rest (unfinished_tasks (q st))) st in
          Some (set_threads (<[w := took t]> (threads st)) st')
      end
  | _ => None
  end.

(** Second half: the decode, the append onto the stack of the task's kind
    and [q.task_done()]. A decoder that raises is not caught anywhere in
    [img_loader]: the exception ends the thread before the append and
    before [q.task_done()]. *)
Definition img_loader_work (w : nat) (id : Z) (path : string) (rgb_ir : kind)
    (st : state) : state :=
  let done (s : state) : state :=
    set_threads (<[w := Waiting]> (threads s)) (set_q (q_task_done (q s)) s) in
  let crash (e : exn) : state :=
    set_threads (<[w := Crashed e]> (threads st)) st in
  match rgb_ir with
  | rgb =>
      match load_image path with
      | Ok img => done (set_b_rgb (b_rgb st ++ [(id, img)]) st)
      | Raise e => crash e
      end
  | ir =>
      match load_image path with
      | Ok img => done (set_b_ir (b_ir st ++ [(id, img)]) st)
      | Raise e => crash e
      end
  | tiff =>
      match get_temp_stats_from_tiff path with
      | Ok v => done (set_b_tiff (b_tiff st ++ [(id, v)]) st)
      | Raise e => crash e
      end
  end.

(** One scheduling step of worker [w]. *)
Definition worker_step (w : nat) (st : state) : option state :=
  match threads st !! w with
  | Some Waiting => img_loader_get w st
  | Some (Working id path rgb_ir) => Some (img_loader_work w id path rgb_ir st)
  | _ => None
  end.

(** The workers run in the order a schedule names them; a worker that
    cannot step when named is passed over. *)
Fixpoint run_workers (schedule : list nat) (st : state) : state :=
  match schedule with
  | [] => st
  | w :: rest =>
      run_workers rest (default st (worker_step w st))
  end.

(** [start_img_loaders(worker_pool)]. *)
Definition start_img_loaders (worker_pool : nat) : list worker :=
  replicate worker_pool Waiting.

(** [stop_workers(threads)], its first loop: one sentinel per thread. *)
Definition stop_workers_put (st : state) : state :=
  foldl (λ s _, put Sentinel s) st (threads st).

Definition terminated (w : worker) : bool :=
  match w with
  | Exited | Crashed _ => true
  | Waiting | Working _ _ _ => false
  end.

(** [stop_workers(threads)], its second loop: the [t.join()] calls have
    all returned exactly when every thread has terminated. *)
Definition stop_workers_returns (st : state) : bool :=
  forallb terminated (threads st).

(** ** The cache *)

(** The slot a result is stored into: the payload inside the radius,
    [None] outside. *)
Definition slot_value {A} (idx id : Z) (v : A) : option A :=
  if bool_decide (circular_distance idx id ≤ BUFF_RADIUS) then Some v else None.

(** [for id, img in b: ...; b.remove((id, img))]. The list iterator reads
    position [pos] of the list as it is now and stops once [pos] is past
    its end; every pass removes one entry, so the next position read lies
    two entries further in the original list. [fuel] bounds the passes. *)
Fixpoint drain_loop {A} `{EqDecision A} (fuel pos : nat) (idx : Z)
    (b : list (Z * A)) (loaded : list (option A))
    : result (list (Z * A) * list (option A)) :=
  match fuel with
  | O => Ok (b, loaded)
  | S fuel' =>
      match b !! pos with
      | None => Ok (b, loaded)
      | Some (id, v) =>
          loaded' ← py_setitem loaded id (slot_value idx id v);
          b' ← py_remove (id, v) b;
          drain_loop fuel' (S pos) idx b' loaded'
      end
  end.

Definition drain {A} `{EqDecision A} (idx : Z) (b : list (Z * A))
    (loaded : list (option A)) : result (list (Z * A) * list (option A)) :=
  drain_loop (length b) 0 idx b loaded.

(** [for ix, item in enumerate(loaded): if item is None: continue;
    if distance > BUFF_RADIUS: loaded[ix] = None]. *)
Definition evict {A} (idx : Z) (loaded : list (option A)) : list (option A) :=
  imap (λ ix item,
          match item with
          | None => None
          | Some v =>
              if bool_decide (circular_distance idx (Z.of_nat ix) > BUFF_RADIUS)
              then None else Some v
          end) loaded.

(** The two eviction loops, which the source writes for
    [loaded_rgb_images] and [loaded_ir_images]. *)
Definition clear_outside_radius (st : state) : state :=
  set_loaded_ir_images (evict (index st) (loaded_ir_images st))
    (set_loaded_rgb_images (evict (index st) (loaded_rgb_images st)) st).

(** The three drain loops. *)
Definition drain_stacks (st : state) : result state :=
  '(b1, l1) ← drain (index st) (b_rgb st) (loaded_rgb_images st);
  '(b2, l2) ← drain (index st) (b_ir st) (loaded_ir_images st);
  '(b3, l3) ← drain (index st) (b_tiff st) (loaded_tiff_vals st);
  Ok (set_loaded_tiff_vals l3 (set_b_tiff b3
       (set_loaded_ir_images l2 (set_b_ir b2
         (set_loaded_rgb_images l1 (set_b_rgb b1 st)))))).

(** "Actions completed regardless of event": the block that closes a loop
    iteration, drains then clears. *)
Definition reconcile (st : state) : result state :=
  st' ← drain_stacks st; Ok (clear_outside_radius st').

(** [range(-BUFF_RADIUS, BUFF_RADIUS + 1)]. *)
Definition window_offsets : list Z := seqZ (- BUFF_RADIUS) (2 * BUFF_RADIUS + 1).

(** The tasks of the preload: an rgb and an ir task per offset. *)
Definition starting_images (idx : Z) : list task :=
  i ← window_offsets;
  [rgb_task ((idx + i) mod num_images); ir_task ((idx + i) mod num_images)].

(** The tasks Go To and Load State put: rgb, ir and tiff per offset. *)
Definition window_tasks (idx : Z) : list task :=
  i ← window_offsets;
  [rgb_task ((idx + i) mod num_images); ir_task ((idx + i) mod num_images);
   tiff_task ((idx + i) mod num_images)].

(** [main] up to [create_queue(starting_images)]. *)
Definition preload : state :=
  create_queue (starting_images 0)
    {| index := 0;
       labels := replicate (length rgb_image_files) None;
       loaded_rgb_images := replicate (length rgb_image_files) None;
       loaded_ir_images := replicate (length rgb_image_files) None;
       loaded_tiff_vals := replicate (length rgb_image_files) None;
       q := mkQueue [] 0;
       b_rgb := []; b_ir := []; b_tiff := [];
       threads := start_img_loaders 10 |}.

(** ** The event handlers *)

(** What a handler leaves behind: the state, what it showed or wrote, and
    whether it ended in [continue], which skips the rest of the iteration. *)
Definition handled : Type := state * list output * bool.

(** Left / Right arrow. *)
Definition handle_left (st : state) : state :=
  let st1 := set_index ((index st - 1) mod num_images) st in
  put (ir_task ((index st1 - BUFF_RADIUS) mod num_images))
    (put (rgb_task ((index st1 - BUFF_RADIUS) mod num_images)) st1).

Definition handle_right (st : state) : state :=
  let st1 := set_index ((index st + 1) mod num_images) st in
  put (ir_task ((index st1 + BUFF_RADIUS) mod num_images))
    (put (rgb_task ((index st1 + BUFF_RADIUS) mod num_images)) st1).

(** [repr] of an entry of [labels]. *)
Definition repr_label (l : option label) : string :=
  match l with
  | Some Fire => "'Fire'"
  | Some NoFire => "'No Fire'"
  | None => "None"
  end.

(** [", ".join(...)] *)
Fixpoint join_comma_space (ws : list string) : string :=
  match ws with
  | [] => EmptyString
  | [w] => w
  | w :: ws' => w +:+ ", " +:+ join_comma_space ws'
  end.

(** [f'{labels}'], the [repr] of the list. *)
Definition repr_labels (ls : list (option label)) : string :=
  "[" +:+ join_comma_space (repr_label <$> ls) +:+ "]".

Definition newline : string := String "010" EmptyString.

(** The three lines Save State writes. *)
Definition save_state_text (st : state) : string :=
  (PyStr.str num_images +:+ newline)
  +:+ (PyStr.str (index st) +:+ newline)
  +:+ (repr_labels (labels st) +:+ newline).

(** Save State: [if confirm:] holds for "Yes" and for "No", both being
    non-empty strings. *)
Definition handle_save_state (confirm : option bool) (st : state) : handled :=
  match confirm with
  | Some _ => (st, [wrote_save_state (save_state_text st); popup_state_saved], false)
  | None => (st, [], false)
  end.

(** What is left of [repr_label l] once Load State has deleted the spaces
    and the quotes of the line. *)
Definition stripped_label (l : option label) : string :=
  match l with
  | Some Fire => "Fire"
  | Some NoFire => "NoFire"
  | None => "None"
  end.

Fixpoint join_comma (ws : list string) : string :=
  match ws with
  | [] => EmptyString
  | [w] => w
  | w :: ws' => w +:+ "," +:+ join_comma ws'
  end.

(** The [match entry] of Load State; [None] is [case _]. *)
Definition parse_entry (entry : string) : option (option label) :=
  if decide (entry = "No Fire") then Some (Some NoFire)
  else if decide (entry = "NoFire") then Some (Some NoFire)
  else if decide (entry = "Fire") then Some (Some Fire)
  else if decide (entry = "None") then Some None
  else None.

(** The [for num, entry in enumerate(labels_raw)] loop: an unknown entry
    shows a popup and [continue]s this loop, so it is left out of
    [parsed_labels] and the loop goes on. *)
Fixpoint parse_labels (labels_raw : list string)
    : list (option label) * list output :=
  match labels_raw with
  | [] => ([], [])
  | entry :: rest =>
      let '(parsed, out) := parse_labels rest in
      match parse_entry entry with
      | Some l => (l :: parsed, out)
      | None => (parsed, popup_err_unknown_entry :: out)
      end
  end.

(** The refill common to Go To and Load State. *)
Definition refill_window (st : state) : state :=
  create_queue (window_tasks (index st)) (clear_outside_radius st).

(** Load State. *)
Definition handle_load_state (f : option string) (st : state) : result handled :=
  match f with
  | None => Ok (st, [popup_select_valid_file], true)
  | Some text =>
      let '(line1, rest1) := PyStr.readline text in
      num_files ← PyStr.int line1;
      if bool_decide (num_files ≠ num_images) then
        Ok (st, [popup_err_num_files], true)
      else
        let '(line2, rest2) := PyStr.readline rest1 in
        idx ← PyStr.int line2;
        let st1 := set_index idx st in
        let '(line3, _) := PyStr.readline rest2 in
        let labels_raw :=
          PyStr.split ","
            (PyStr.slice_1_m2
               (PyStr.remove_char "'" (PyStr.remove_char " " line3))) in
        let '(parsed_labels, out) := parse_labels labels_raw in
        if bool_decide (length parsed_labels ≠ length (labels st1)) then
          Ok (st1, out ++ [popup_err_labels_length], true)
        else
          Ok (refill_window (set_labels parsed_labels st1),
              out ++ [popup_loaded_state], false)
  end.

(** Go To. *)
Definition handle_goto (new_index : option string) (st : state) : result handled :=
  n ← PyStr.int_of_dialog new_index;
  if negb (bool_decide (n > 0) && bool_decide (n < num_images + 1)) then
    Ok (st, [popup_err_goto_range], true)
  else
    let st1 := set_index (n - 1) st in
    Ok (refill_window st1, [popup_goto_ok (index st1 + 1)], false).

Definition handle (ev : event) (st : state) : result handled :=
  match ev with
  | ev_timeout => Ok (st, [], false)
  | ev_left => Ok (handle_left st, [], false)
  | ev_right => Ok (handle_right st, [], false)
  | ev_save_state confirm => Ok (handle_save_state confirm st)
  | ev_load_state f => handle_load_state f st
  | ev_goto new_index => handle_goto new_index st
  end.

(** The reads of the display update that can raise: [labels[index]],
    the three caches at [index] and [rgb_image_files[index]]. *)
Definition display (st : state) : result unit :=
  _ ← py_getitem (labels st) (index st);
  _ ← py_getitem (loaded_rgb_images st) (index st);
  _ ← py_getitem (loaded_ir_images st) (index st);
  _ ← py_getitem (loaded_tiff_vals st) (index st);
  _ ← py_getitem rgb_image_files (index st);
  Ok ().

(** One pass through the body of [while True]. *)
Definition loop_iteration (ev : event) (st : state) : result (state * list output) :=
  '(st1, out, continue) ← handle ev st;
  if (continue : bool) then Ok (st1, out)
  else st2 ← reconcile st1; _ ← display st2; Ok (st2, out).

(** The drain that follows [q.join()] before the window opens: the three
    loops of lines 180-200, with no eviction pass after them. *)
Definition first_drain (st : state) : result state := drain_stacks st.

End model.

(** ** Properties of a cache and of a queue *)

(** Every populated slot of [loaded] lies within the radius of [idx]. *)
Definition within_radius `{E : Env} {A} (idx : Z) (loaded : list (option A)) : Prop :=
  ∀ (s : nat) (v : A),
    loaded !! s = Some (Some v) →
    circular_distance idx (Z.of_nat s) ≤ BUFF_RADIUS.

(** The entries put on the queue between [st] and [st']. *)
Definition enqueued `{E : Env} (st st' : state) : list task :=
  drop (length (items (q st))) (items (q st')).

(** The load tasks of kind [k] in a list of queue entries. *)
Definition has_kind (k : kind) (t : task) : bool :=
  match t with
  | LoadTask _ _ k' => bool_decide (k' = k)
  | Sentinel => false
  end.

Definition of_kind (k : kind) (ts : list task) : list task :=
  filter (λ t, has_kind k t) ts.

(** The index a queue entry targets. *)
Definition target (t : task) : option Z :=
  match t with LoadTask id _ _ => Some id | Sentinel => None end.

(** The task the handlers build for kind [k] and position [t]. *)
Definition kind_task `{E : Env} (k : kind) (t : Z) : task :=
  match k with
  | rgb => rgb_task t
  | ir => ir_task t
  | tiff => tiff_task t
  end.

(** The decoder [img_loader] calls for kind [k] raises [e] on [path]. *)
Definition decode_raises `{E : Env} (k : kind) (path : string) (e : exn) : Prop :=
  match k with
  | rgb | ir => load_image path = Raise e
  | tiff => get_temp_stats_from_tiff path = Raise e
  end.

(** *** Stopping the pool *)

(** The decoder of the task's kind returns on the task's path; a sentinel
    has nothing to decode. *)
Definition decodes `{E : Env} (t : task) : bool :=
  match t with
  | LoadTask _ path rgb | LoadTask _ path ir =>
      match load_image path with Ok _ => true | Raise _ => false end
  | LoadTask _ path tiff =>
      match get_temp_stats_from_tiff path with Ok _ => true | Raise _ => false end
  | Sentinel => true
  end.

Definition is_load (t : task) : bool :=
  match t with LoadTask _ _ _ => true | Sentinel => false end.

(** The task a worker has taken off the queue and not finished. *)
Definition holding (w : worker) : list task :=
  match w with
  | Working id path rgb_ir => [LoadTask id path rgb_ir]
  | _ => []
  end.

(** Everything that was put and is not finished: the tasks the workers
    hold and the entries still queued. *)
Definition in_flight `{E : Env} (st : state) : list task :=
  (threads st ≫= holding) ++ items (q st).

(** What the workers append to [b_rgb], [b_ir] and [b_tiff] for a list of
    tasks. *)
Definition results_rgb `{E : Env} (ts : list task) : list (Z * payload) :=
  t ← ts;
  match t with
  | LoadTask id path rgb =>
      match load_image path with Ok img => [(id, img)] | Raise _ => [] end
  | _ => []
  end.

Definition results_ir `{E : Env} (ts : list task) : list (Z * payload) :=
  t ← ts;
  match t with
  | LoadTask id path ir =>
      match load_image path with Ok img => [(id, img)] | Raise _ => [] end
  | _ => []
  end.

Definition results_tiff `{E : Env} (ts : list task) : list (Z * stats) :=
  t ← ts;
  match t with
  | LoadTask id path tiff =>
      match get_temp_stats_from_tiff path with Ok v => [(id, v)] | Raise _ => [] end
  | _ => []
  end.

Definition live_count (ts : list worker) : nat :=
  sum_list_with (λ w, if terminated w then 0%nat else 1%nat) ts.

Definition busy_count (ts : list worker) : nat :=
  sum_list_with (λ w, length (holding w)) ts.

Definition exited_count (ts : list worker) : nat :=
  sum_list_with (λ w, if decide (w = Exited) then 1%nat else 0%nat) ts.

(** A bound on the worker steps still possible. *)
Definition steps_left `{E : Env} (st : state) : nat :=
  (2 * length (items (q st)) + busy_count (threads st))%nat.

(** The pool as [stop_workers] may find it: every thread still running,
    no sentinel queued yet, and no task in flight whose decode raises. *)
Definition pool_running `{E : Env} (st : state) : Prop :=
  Forall (λ w, terminated w = false) (threads st)
  ∧ Forall (λ t, is_load t = true) (items (q st))
  ∧ Forall (λ t, decodes t = true) (in_flight st).

(** The pool between the sentinels being put and the last thread
    returning: no thread has crashed, no task in flight raises, the queue
    is some pending tasks followed by as many sentinels as there are
    running threads, and no thread has exited while a task is pending. *)
Definition pool_stopping `{E : Env} (st : state) : Prop :=
  Forall (λ w, ∀ e, w ≠ Crashed e) (threads st)
  ∧ Forall (λ t, decodes t = true) (in_flight st)
  ∧ ∃ pending,
      items (q st) = pending ++ replicate (live_count (threads st)) Sentinel
      ∧ Forall (λ t, is_load t = true) pending
      ∧ (pending = [] ∨ Forall (λ w, w ≠ Exited) (threads st)).

(** ** Runs *)

(** The control thread and the workers interleave: a run is a sequence of
    loop iterations and of worker steps. A loop iteration is one step of
    a run, so no worker appends to a stack while the iteration drains it.
    A run stops at the first exception that leaves [main]. *)
Inductive action : Type :=
  | iteration (ev : event)
  | step (w : nat).

Fixpoint run `{E : Env} (tr : list action) (st : state) : result state :=
  match tr with
  | [] => Ok st
  | iteration ev :: rest =>
      '(st', _) ← loop_iteration ev st; run rest st'
  | step w :: rest => run rest (default st (worker_step w st))
  end.

(** [main] from the preload to the event loop: the workers take the
    preload tasks in the order of [schedule], then the first drain runs.
    [None] when [q.join()] has not returned after that schedule. *)
Definition startup `{E : Env} (schedule : list nat) : option (result state) :=
  let st := run_workers schedule preload in
  if q_join_returns (q st) then Some (first_drain st) else None.

(** ** A concrete installation

    A folder of [n + 1] files [0.JPG], [1.JPG], ... under ["D"], decoders
    that return the path they were given (so a payload tells which file it
    came from) and raise on the paths listed in [unreadable]. *)
Definition demo_files (n : nat) : list string :=
  (λ i, PyStr.str (Z.of_nat i) +:+ ".JPG") <$> seq 0 (S n).

(** The runs below enter ASCII texts only; their interpreter is never
    asked about any other, and rejects it. *)
Definition demo_unicode : Unicode :=
  {| int_non_ascii := λ _, Raise ValueError;
     int_non_ascii_raises := ltac:(by intros s e [= <-]) |}.

Definition demo_decode (unreadable : list string) (path : string) : result string :=
  if bool_decide (path ∈ unreadable) then Raise Cv2Error else Ok path.

Definition demo_env (n : nat) (radius : Z) (unreadable : list string) : Env :=
  {| unicode := demo_unicode;
     payload := string;
     stats := string;
     load_image := demo_decode unreadable;
     get_temp_stats_from_tiff := demo_decode unreadable;
     folder_path := "D";
     rgb_image_files := demo_files n;
     rgb_image_files_nonempty := ltac:(discriminate);
     BUFF_RADIUS := radius |}.

(** Twenty files, radius 7. *)
Definition env20 : Env := demo_env 19 7 [].

(** The same folder with an rgb file that cannot be decoded. *)
Definition env20_unreadable : Env := demo_env 19 7 ["D/RGB/Corrected FOV/13.JPG"].

(** Three files. *)
Definition env3 : Env := demo_env 2 7 [].

(** Six files, radius 1. *)
Definition env6 : Env := demo_env 5 1 [].

(** A pool of [k] waiting workers with [ts] queued and nothing decoded. *)
Definition idle_pool `{E : Env} (k : nat) (ts : list task) : state :=
  create_queue ts
    {| index := 0;
       labels := replicate (length rgb_image_files) None;
       loaded_rgb_images := replicate (length rgb_image_files) None;
       loaded_ir_images := replicate (length rgb_image_files) None;
       loaded_tiff_vals := replicate (length rgb_image_files) None;
       q := mkQueue [] 0;
       b_rgb := []; b_ir := []; b_tiff := [];
       threads := start_img_loaders k |}.

(** The state a run reaches from the preload, when it reaches one: the
    workers take the preload tasks in the order of [schedule], the first
    drain runs, then the actions of [tr] follow. *)
Definition reach `{E : Env} (schedule : list nat) (tr : list action) : option state :=
  match startup schedule with
  | Some (Ok st) =>
      match run tr st with
      | Ok st' => Some st'
      | Raise _ => None
      end
  | _ => None
  end.

(** Worker 0 takes and decodes every preload task. *)
Definition one_worker_preload : list nat := replicate 60 0%nat.

(** Ticks until the stacks are drained into the caches. *)
Definition settle : list action := replicate 4 (iteration ev_timeout).

(** Worker 0 takes and decodes the 45 tasks of a full window. *)
Definition decode_window : list action := replicate 90 (step 0).

(** Go To pair 4 and let its window load; then Go To pair 1 as well. *)
Definition goto_4 : list action :=
  settle ++ [iteration (ev_goto (Some "4"))] ++ decode_window ++ settle.

Definition goto_4_then_1 : list action :=
  goto_4 ++ [iteration (ev_goto (Some "1"))] ++ decode_window ++ settle.

(** A right step once the preloaded window has settled, and the same
    followed by the decode of the two tasks it put and one more tick. *)
Definition step_right : list action := settle ++ [iteration ev_right].

Definition step_right_drained : list action :=
  step_right ++ replicate 4 (step 0) ++ [iteration ev_timeout].

(** The positions of the populated slots of a cache. *)
Fixpoint populated_from {A} (i : nat) (loaded : list (option A)) : list nat :=
  match loaded with
  | [] => []
  | Some _ :: rest => i :: populated_from (S i) rest
  | None :: rest => populated_from (S i) rest
  end.

Definition populated {A} (loaded : list (option A)) : list nat :=
  populated_from 0 loaded.

(** What the scenarios below look at: the viewing index, the populated
    slots of the three caches, and the queue. *)
Definition snapshot `{E : Env} (st : state)
    : Z * list nat * list nat * list nat * list task :=
  (index st, populated (loaded_rgb_images st), populated (loaded_ir_images st),
   populated (loaded_tiff_vals st), items (q st)).

(** * The rest of the tool

    The parts of [FLAME Image Labeling Tool.py] around the cache: the file
    listing ([get_image_files]), the label keys, Apply to All, Temperature
    Based Labeling and the export. *)

(** ** More Python strings *)

(** [c.lower()] for an ASCII character. *)
Definition py_lower_char (c : ascii) : ascii :=
  let n := nat_of_ascii c in
  if ((65 <=? n) && (n <=? 90))%nat then ascii_of_nat (n + 32) else c.

Definition is_upper (c : ascii) : bool :=
  let n := nat_of_ascii c in ((65 <=? n) && (n <=? 90))%nat.

Fixpoint py_lower (s : string) : string :=
  match s with
  | EmptyString => EmptyString
  | String c r => String (py_lower_char c) (py_lower r)
  end.

(** [s.endswith(suffix)]: some tail of [s] is [suffix]. *)
Fixpoint py_endswith (suffix s : string) : bool :=
  if String.eqb s suffix then true
  else match s with
       | EmptyString => false
       | String _ r => py_endswith suffix r
       end.

(** ["0" * k]: empty for [k <= 0]. *)
Definition py_zeros (k : Z) : string :=
  string_of_list_ascii (replicate (Z.to_nat k) "0"%char).

Definition py_len (s : string) : Z := Z.of_nat (String.length s).

(** ** The file listing *)

Definition image_extensions : list string :=
  [".jpg"; ".jpeg"; ".JPG"; ".TIFF"; ".tiff"].

(** [get_image_files(folder_path)], given what [os.listdir(folder_path)]
    returned: [file.lower().endswith(image_extensions)] with a tuple. *)
Definition get_image_files (listing : list string) : list string :=
  filter (λ file, existsb (λ e, py_endswith e (py_lower file)) image_extensions)
    listing.

(** ** What the labeling handlers are run with *)

(** The two other file lists [main] reads, and the library calls of the
    labeling handlers: [np.array(Image.open(path)).max()], the comparison
    [arr.max() >= temp_thres] of a NumPy scalar with an [int], and
    [shutil.copy(src, dst)]. *)
Class Files : Type := {
  ir_image_files : list string;
  tiff_image_files : list string;
  temperature : Type;
  tiff_max : string → result temperature;
  reaches : temperature → Z → bool;
  copy : string → string → result unit }.

(** The digits of a renumbered file name (the local constant
    [OUTPUT_FILENAME_DIGITS] of the export). *)
Definition OUTPUT_FILENAME_DIGITS : Z := 5.

(** The keys "1", "2" and "3". *)
Inductive key : Type := key_1 | key_2 | key_3.

Definition key_label (k : key) : option label :=
  match k with
  | key_1 => Some Fire
  | key_2 => Some NoFire
  | key_3 => None
  end.

(** What the labeling handlers show, and the copies the export makes. *)
Inductive label_output : Type :=
  | popup_threshold_not_integer
  | popup_threshold_done (temp_thres : Z) (fire no_fire unlabeled : nat)
  | popup_output_not_empty
  | copied (src dst : string)
  | popup_exported (fcount nfcount ulcount : Z).

(** The events of the loop that touch the labels.
    - [ev_apply_to_all c]: [c] is the value of the dropdown, [None] for
      'Unlabeled'.
    - [ev_temp_label x]: [x] is what [popup_get_text] returned.
    - [ev_export r empty]: [r] is the answer of [popup_yes_no]
      ([Some true] for "Yes"), [empty] tells whether the eight output
      directories were all found empty. *)
Inductive label_event : Type :=
  | ev_key (k : key)
  | ev_apply_to_all (choice : option label)
  | ev_temp_label (temp_thres : option string)
  | ev_export (renumber : option bool) (output_empty : bool).

Inductive any_event : Type :=
  | cache_event (ev : event)
  | labeling_event (ev : label_event).

(** [labels.count(l)]. *)
Definition count_label (l : option label) (ls : list (option label)) : nat :=
  length (filter (λ x, x = l) ls).

(** [zip(rgb_image_files, ir_image_files, tiff_image_files, labels)]:
    as long as the shortest of the four. *)
Fixpoint zip4 {A B C D} (l1 : list A) (l2 : list B) (l3 : list C) (l4 : list D)
    : list (A * B * C * D) :=
  match l1, l2, l3, l4 with
  | a :: l1', b :: l2', c :: l3', d :: l4' => (a, b, c, d) :: zip4 l1' l2' l3' l4'
  | _, _, _, _ => []
  end.

Section labeling.
Context `{E : Env} `{F : Files}.

(** Keys 1, 2, 3: [labels[index] = ...]. *)
Definition handle_key (k : key) (st : state) : result state :=
  labels' ← py_setitem (labels st) (index st) (key_label k);
  Ok (set_labels labels' st).

(** Apply to All: [labels = [choice for x in labels]]. *)
Definition handle_apply_to_all (choice : option label) (st : state) : state :=
  set_labels ((λ _, choice) <$> labels st) st.

(** The loop of Temperature Based Labeling over
    [enumerate(tiff_image_files)], from position [ix] on. An [Image.open]
    that raises, or an [ix] past the end of [labels], ends it. *)
Fixpoint threshold_loop (temp_thres : Z) (ix : Z) (tiffs : list string)
    (ls : list (option label)) : result (list (option label)) :=
  match tiffs with
  | [] => Ok ls
  | tiff_f :: rest =>
      m ← tiff_max (folder_path +:+ "/Thermal/Celsius TIFF/" +:+ tiff_f);
      ls' ← py_setitem ls ix (Some (if reaches m temp_thres then Fire else NoFire));
      threshold_loop temp_thres (ix + 1) rest ls'
  end.

(** Temperature Based Labeling: a cancelled dialog and a text that
    [int()] rejects (caught by the bare [except]) both [continue]. *)
Definition handle_temp_label (temp_thres : option string) (st : state)
    : result (state * list label_output * bool) :=
  match temp_thres with
  | None => Ok (st, [], true)
  | Some s =>
      match PyStr.int s with
      | Raise _ => Ok (st, [popup_threshold_not_integer], true)
      | Ok t =>
          ls ← threshold_loop t 0 tiff_image_files (labels st);
          Ok (set_labels ls st,
              [popup_threshold_done t (count_label (Some Fire) ls)
                 (count_label (Some NoFire) ls) (count_label None ls)],
              false)
      end
  end.

(** ["0"*(OUTPUT_FILENAME_DIGITS-len(str(n))) + str(n)]. *)
Definition zero_pad (n : Z) : string :=
  py_zeros (OUTPUT_FILENAME_DIGITS - py_len (PyStr.str n)) +:+ PyStr.str n.

(** [name.split(".")[1]]. *)
Definition split_dot_1 (name : string) : result string :=
  py_getitem (PyStr.split "." name) 1.

(** The name a file gets when the export renumbers:
    [f'{zero_pad(count+1)}.{name.split(".")[1]}']. *)
Definition renumbered (count : Z) (name : string) : result string :=
  ext ← split_dot_1 name;
  Ok (zero_pad (count + 1) +:+ "." +:+ ext).

Definition new_name (renumber : bool) (count : Z) (name : string) : result string :=
  if renumber then renumbered count name else Ok name.


(** The four copies of one labeled pair into [./Output/<class_dir>/]. *)
Definition export_copies (class_dir rgb ir tiff rgb_n ir_n tiff_n : string)
    : list (string * string) :=
  [(folder_path +:+ "/RGB/Corrected FOV/" +:+ rgb,
    "./Output/" +:+ class_dir +:+ "/RGB/Corrected FOV/" +:+ rgb_n);
   (folder_path +:+ "/RGB/Raw/" +:+ rgb,
    "./Output/" +:+ class_dir +:+ "/RGB/Raw/" +:+ rgb_n);
   (folder_path +:+ "/Thermal/JPG/" +:+ ir,
    "./Output/" +:+ class_dir +:+ "/Thermal/JPG/" +:+ ir_n);
   (folder_path +:+ "/Thermal/Celsius TIFF/" +:+ tiff,
    "./Output/" +:+ class_dir +:+ "/Thermal/Celsius TIFF/" +:+ tiff_n)].

(** [shutil.copy] on each pair in turn, up to the first that raises. *)
Fixpoint copy_all (cs : list (string * string)) : result (list label_output) :=
  match cs with
  | [] => Ok []
  | (s, d) :: rest =>
      _ ← copy s d;
      out ← copy_all rest;
      Ok (copied s d :: out)
  end.

(** One labeled pair of the export loop: the three new names, then the
    four copies. *)
Definition export_pair (renumber : bool) (class_dir : string) (count : Z)
    (rgb ir tiff : string) : result (list label_output) :=
  rgb_n ← new_name renumber count rgb;
  ir_n ← new_name renumber count ir;
  tiff_n ← new_name renumber count tiff;
  copy_all (export_copies class_dir rgb ir tiff rgb_n ir_n tiff_n).

(** The export loop over the zipped rows, with its three counters. *)
Fixpoint export_loop (renumber : bool)
    (rows : list (string * string * string * option label))
    (fcount nfcount ulcount : Z) : result (list label_output * Z * Z * Z) :=
  match rows with
  | [] => Ok ([], fcount, nfcount, ulcount)
  | (rgb_f, ir_f, tiff_f, l) :: rest =>
      match l with
      | Some Fire =>
          out ← export_pair renumber "Fire" fcount rgb_f ir_f tiff_f;
          '(out', f, nf, ul) ← export_loop renumber rest (fcount + 1) nfcount ulcount;
          Ok (out ++ out', f, nf, ul)
      | Some NoFire =>
          out ← export_pair renumber "No Fire" nfcount rgb_f ir_f tiff_f;
          '(out', f, nf, ul) ← export_loop renumber rest fcount (nfcount + 1) ulcount;
          Ok (out ++ out', f, nf, ul)
      | None => export_loop renumber rest fcount nfcount (ulcount + 1)
      end
  end.

(** Export Images w/ Labels. *)
Definition handle_export (renumber : option bool) (output_empty : bool)
    (st : state) : result (state * list label_output * bool) :=
  match renumber with
  | None => Ok (st, [], true)
  | Some r =>
      if negb output_empty then Ok (st, [popup_output_not_empty], true)
      else
        '(out, f, nf, ul) ←
          export_loop r
            (zip4 rgb_image_files ir_image_files tiff_image_files (labels st))
            0 0 0;
        Ok (st, out ++ [popup_exported f nf ul], false)
  end.

Definition handle_label_event (ev : label_event) (st : state)
    : result (state * list label_output * bool) :=
  match ev with
  | ev_key k => st' ← handle_key k st; Ok (st', [], false)
  | ev_apply_to_all choice => Ok (handle_apply_to_all choice st, [], false)
  | ev_temp_label temp_thres => handle_temp_label temp_thres st
  | ev_export renumber output_empty => handle_export renumber output_empty st
  end.

(** One pass through the body of [while True], for any of the events. *)
Definition handle_any (ev : any_event) (st : state)
    : result (state * list (output + label_output) * bool) :=
  match ev with
  | cache_event ev' =>
      match handle ev' st with
      | Ok (s, o, c) => Ok (s, inl <$> o, c)
      | Raise e => Raise e
      end
  | labeling_event ev' =>
      match handle_label_event ev' st with
      | Ok (s, o, c) => Ok (s, inr <$> o, c)
      | Raise e => Raise e
      end
  end.

Definition main_iteration (ev : any_event) (st : state)
    : result (state * list (output + label_output)) :=
  '(st1, out, continue) ← handle_any ev st;
  if (continue : bool) then Ok (st1, out)
  else st2 ← reconcile st1; _ ← display st2; Ok (st2, out).

(** The window positions: where the tasks of a full window point. *)
Definition window_positions (idx : Z) : list Z :=
  (λ i, (idx + i) mod num_images) <$> window_offsets.

(** The four lengths [main] sets up: the label vector and the three
    caches are as long as the file list. *)
Definition well_formed (st : state) : Prop :=
  length (labels st) = length rgb_image_files
  ∧ length (loaded_rgb_images st) = length rgb_image_files
  ∧ length (loaded_ir_images st) = length rgb_image_files
  ∧ length (loaded_tiff_vals st) = length rgb_image_files.

(** Every result waiting on a stack carries a position of the sequence. *)
Definition stacks_in_range (st : state) : Prop :=
  Forall (λ p, 0 ≤ p.1 < num_images) (b_rgb st)
  ∧ Forall (λ p, 0 ≤ p.1 < num_images) (b_ir st)
  ∧ Forall (λ p, 0 ≤ p.1 < num_images) (b_tiff st).

(** Every task queued or held by a worker targets a position of the
    sequence. *)
Definition tasks_in_range (st : state) : Prop :=
  Forall (λ t, match target t with
               | Some id => 0 ≤ id < num_images
               | None => True
               end) (in_flight st).

(** What [main] sets up and every step keeps. *)
Definition sound (st : state) : Prop :=
  well_formed st ∧ stacks_in_range st ∧ tasks_in_range st.

(** The viewing index is a position of the sequence. *)
Definition index_in_range (st : state) : Prop := 0 ≤ index st < num_images.

(** The bookkeeping of [queue.Queue]: a task counts as unfinished while it
    is queued, while a worker holds it, and for good once the worker that
    took it left the loop without [q.task_done()], through the sentinel's
    [break] or through an exception. *)
Definition stopped_count (ts : list worker) : nat :=
  sum_list_with (λ w, if terminated w then 1%nat else 0%nat) ts.

Definition accounted (st : state) : Prop :=
  unfinished_tasks (q st)
  = (length (items (q st)) + busy_count (threads st) + stopped_count (threads st))%nat.

End labeling.


(** A concrete [Files]: thermal names equal to the rgb names, TIFF names
    with the TIFF extension, an integer maximum read off a table, and
    copies that succeed. *)
Definition demo_tiff_files (n : nat) : list string :=
  (λ i, PyStr.str (Z.of_nat i) +:+ ".TIFF") <$> seq 0 (S n).

Definition demo_tiff_max (hot : list string) (path : string) : result Z :=
  if bool_decide (path ∈ hot) then Ok 300 else Ok 25.

Definition demo_files_of (n : nat) (hot : list string) : Files :=
  {| ir_image_files := demo_files n;
     tiff_image_files := demo_tiff_files n;
     temperature := Z;
     tiff_max := demo_tiff_max hot;
     reaches := Z.geb;
     copy := λ _ _, Ok () |}.

(** Three pairs, the first of them hot. *)
Definition files3 : Files := demo_files_of 2 ["D/Thermal/Celsius TIFF/0.TIFF"].

(** * Properties *)

#[local] Arguments String.append !_ _ / : simpl nomatch.

(** ** Strings, [int()] and [str()] *)

Lemma append_assoc (a b c : string) : (a +:+ b) +:+ c = a +:+ (b +:+ c).
Proof. induction a as [|x a IH]; simpl; [done | by f_equal]. Qed.

Lemma is_digit_inv (c : ascii) :
  PyStr.is_digit c = true →
  PyStr.is_space c = false ∧ Ascii.eqb c "_" = false ∧ Ascii.eqb c "-" = false
  ∧ Ascii.eqb c "+" = false ∧ Ascii.eqb c "010" = false.
Proof.
  destruct c as [[|] [|] [|] [|] [|] [|] [|] [|]]; vm_compute; intros H;
    (discriminate H || done).
Qed.

Lemma digits_string_of_uint (d : Decimal.uint) :
  PyStr.all_chars PyStr.is_digit (NilEmpty.string_of_uint d) = true.
Proof. induction d; simpl; try done. Qed.

Lemma digits_ok_digits (s : string) :
  PyStr.all_chars PyStr.is_digit s = true → PyStr.digits_ok true s = true.
Proof.
  induction s as [|c r IH]; simpl; [done|].
  intros [Hc Hr]%andb_prop. rewrite Hc. auto.
Qed.

Lemma drop_underscores_digits (s : string) :
  PyStr.all_chars PyStr.is_digit s = true → PyStr.drop_underscores s = s.
Proof.
  induction s as [|c r IH]; simpl; [done|].
  intros [Hc Hr]%andb_prop. destruct (is_digit_inv c Hc) as (_ & -> & _).
  by rewrite IH.
Qed.

Lemma drop_trailing_newline (s : string) :
  PyStr.all_chars (λ c, negb (PyStr.is_space c)) s = true →
  PyStr.drop_trailing_spaces (s +:+ newline) = s.
Proof.
  induction s as [|c r IH]; simpl; [done|].
  intros [Hc Hr]%andb_prop. rewrite IH by done.
  apply negb_true_iff in Hc. by rewrite Hc.
Qed.

Lemma all_chars_impl (p p' : ascii → bool) (s : string) :
  (∀ c, p c = true → p' c = true) →
  PyStr.all_chars p s = true → PyStr.all_chars p' s = true.
Proof.
  intros Hpp. induction s as [|c r IH]; simpl; [done|].
  intros [Hc Hr]%andb_prop. rewrite (Hpp c Hc). auto.
Qed.

Lemma int_unsigned_to_uint (p : positive) :
  PyStr.int_unsigned (NilEmpty.string_of_uint (Pos.to_uint p)) = Ok (Z.pos p).
Proof.
  unfold PyStr.int_unsigned.
  pose proof (digits_string_of_uint (Pos.to_uint p)) as Hd.
  rewrite drop_underscores_digits, NilEmpty.usu by done.
  assert (PyStr.digits_ok false (NilEmpty.string_of_uint (Pos.to_uint p)) = true) as ->.
  { pose proof (Unsigned.to_uint_nonnil p) as Hnn.
    destruct (Pos.to_uint p) eqn:Hp; [done|..]; simpl in *;
      by apply digits_ok_digits. }
  unfold Z.of_uint. by rewrite Unsigned.of_to.
Qed.

Lemma trim_digits_newline (s : string) :
  PyStr.all_chars PyStr.is_digit s = true →
  PyStr.trim (s +:+ newline) = s.
Proof.
  intros Hd. unfold PyStr.trim. destruct s as [|c r]; [done|].
  assert (PyStr.skip_spaces (String c r +:+ newline) = String c r +:+ newline) as ->.
  { simpl in *. apply andb_prop in Hd as [Hc _].
    by destruct (is_digit_inv c Hc) as (-> & _). }
  apply drop_trailing_newline. revert Hd. apply all_chars_impl.
  intros c' Hc. by destruct (is_digit_inv c' Hc) as (-> & _).
Qed.

Lemma int_ascii_str_newline (n : Z) :
  PyStr.int_ascii (PyStr.str n +:+ newline) = Ok n.
Proof.
  unfold PyStr.str, PyStr.int_ascii. destruct n as [|p|p]; [done|..]; simpl.
  - rewrite trim_digits_newline by apply digits_string_of_uint.
    pose proof (int_unsigned_to_uint p) as Hu.
    pose proof (digits_string_of_uint (Pos.to_uint p)) as Hd.
    destruct (NilEmpty.string_of_uint (Pos.to_uint p)) as [|c r]; [done|].
    simpl in Hd. apply andb_prop in Hd as [Hc _].
    destruct (is_digit_inv c Hc) as (_ & _ & -> & -> & _). done.
  - rewrite drop_trailing_newline.
    + by rewrite int_unsigned_to_uint.
    + eapply all_chars_impl; [|apply digits_string_of_uint].
      intros c Hc. by destruct (is_digit_inv c Hc) as (-> & _).
Qed.

Lemma append_nil_r (a : string) : a +:+ "" = a.
Proof. induction a as [|x a IH]; simpl; [done | by f_equal]. Qed.

Lemma readline_app_newline (a rest : string) :
  PyStr.all_chars PyStr.not_newline a = true →
  PyStr.readline ((a +:+ newline) +:+ rest) = (a +:+ newline, rest).
Proof.
  rewrite append_assoc. change (newline +:+ rest) with (String "010" rest).
  induction a as [|c r IH]; simpl; [done|].
  intros [Hc Hr]%andb_prop. apply negb_true_iff in Hc. rewrite Hc.
  by rewrite IH.
Qed.

Lemma str_no_newline (n : Z) : PyStr.all_chars PyStr.not_newline (PyStr.str n) = true.
Proof.
  assert (∀ d, PyStr.all_chars PyStr.not_newline (NilEmpty.string_of_uint d) = true) as Hd.
  { intros d. eapply all_chars_impl; [|apply digits_string_of_uint].
    intros c Hc. unfold PyStr.not_newline.
    by destruct (is_digit_inv c Hc) as (_ & _ & _ & _ & ->). }
  unfold PyStr.str. destruct n; simpl; auto.
Qed.

Lemma all_chars_app (p : ascii → bool) (a b : string) :
  PyStr.all_chars p (a +:+ b) = PyStr.all_chars p a && PyStr.all_chars p b.
Proof. induction a as [|c r IH]; simpl; [done|]. by rewrite IH, andb_assoc. Qed.

Lemma is_digit_ascii (c : ascii) :
  PyStr.is_digit c = true → PyStr.is_ascii_char c = true.
Proof.
  destruct c as [[|] [|] [|] [|] [|] [|] [|] [|]]; vm_compute; intros H;
    (discriminate H || done).
Qed.

Lemma digits_ascii (s : string) :
  PyStr.all_chars PyStr.is_digit s = true → PyStr.is_ascii s = true.
Proof. apply all_chars_impl, is_digit_ascii. Qed.

Lemma str_ascii (n : Z) : PyStr.is_ascii (PyStr.str n) = true.
Proof.
  pose proof (λ d, digits_ascii _ (digits_string_of_uint d)) as Hd.
  unfold PyStr.str. destruct n as [|p|p]; [done|apply Hd|].
  change (PyStr.is_ascii_char "-"
          && PyStr.is_ascii (NilEmpty.string_of_uint (Pos.to_uint p)) = true).
  by rewrite Hd.
Qed.

(** On an ASCII text [int()] needs no Unicode table. *)
Lemma int_on_ascii `{Unicode} (s : string) :
  PyStr.is_ascii s = true → PyStr.int s = PyStr.int_ascii s.
Proof. intros Hs. unfold PyStr.int. by rewrite Hs. Qed.

Lemma int_str_newline `{Unicode} (n : Z) :
  PyStr.int (PyStr.str n +:+ newline) = Ok n.
Proof.
  rewrite int_on_ascii; [apply int_ascii_str_newline|].
  unfold PyStr.is_ascii. rewrite all_chars_app.
  fold (PyStr.is_ascii (PyStr.str n)). by rewrite str_ascii.
Qed.

Lemma repr_label_no_newline (l : option label) :
  PyStr.all_chars PyStr.not_newline (repr_label l) = true.
Proof. by destruct l as [[|]|]. Qed.

Lemma repr_labels_no_newline (ls : list (option label)) :
  PyStr.all_chars PyStr.not_newline (repr_labels ls) = true.
Proof.
  unfold repr_labels. rewrite !all_chars_app. simpl. rewrite andb_true_r.
  induction ls as [|l [|l' ls'] IH]; [done|..].
  - apply repr_label_no_newline.
  - change (join_comma_space (repr_label <$> l :: l' :: ls'))
      with (repr_label l +:+ ", " +:+ join_comma_space (repr_label <$> l' :: ls')).
    rewrite !all_chars_app, IH, repr_label_no_newline. done.
Qed.

Lemma remove_char_app (c : ascii) (a b : string) :
  PyStr.remove_char c (a +:+ b) = PyStr.remove_char c a +:+ PyStr.remove_char c b.
Proof.
  induction a as [|d r IH]; simpl; [done|].
  destruct (Ascii.eqb d c); simpl; by rewrite IH.
Qed.

Lemma strip_repr_label (l : option label) :
  PyStr.remove_char "'" (PyStr.remove_char " " (repr_label l)) = stripped_label l.
Proof. by destruct l as [[|]|]. Qed.

Lemma strip_join (ls : list (option label)) :
  PyStr.remove_char "'" (PyStr.remove_char " " (join_comma_space (repr_label <$> ls)))
  = join_comma (stripped_label <$> ls).
Proof.
  induction ls as [|l [|l' ls'] IH]; [done|..].
  - apply strip_repr_label.
  - change (join_comma_space (repr_label <$> l :: l' :: ls'))
      with (repr_label l +:+ ", " +:+ join_comma_space (repr_label <$> l' :: ls')).
    rewrite !remove_char_app, IH, strip_repr_label. done.
Qed.

Lemma length_append (a b : string) :
  String.length (a +:+ b) = (String.length a + String.length b)%nat.
Proof. induction a as [|c r IH]; simpl; [done | by rewrite IH]. Qed.

Lemma take_append (a b : string) : PyStr.take (String.length a) (a +:+ b) = a.
Proof. induction a as [|c r IH]; simpl; [by destruct b | by rewrite IH]. Qed.

Lemma slice_brackets (body : string) :
  PyStr.slice_1_m2 ("[" +:+ body +:+ "]" +:+ newline) = body.
Proof.
  unfold PyStr.slice_1_m2. simpl. rewrite length_append. simpl.
  replace (String.length body + 2 - 1 - 1)%nat with (String.length body) by lia.
  apply take_append.
Qed.

Lemma labels_line_stripped (ls : list (option label)) :
  PyStr.slice_1_m2
    (PyStr.remove_char "'" (PyStr.remove_char " " (repr_labels ls +:+ newline)))
  = join_comma (stripped_label <$> ls).
Proof.
  unfold repr_labels. rewrite !remove_char_app, strip_join.
  rewrite !append_assoc. exact (slice_brackets _).
Qed.

Lemma split_stripped_more (l : option label) (r : string) :
  PyStr.split "," (stripped_label l +:+ "," +:+ r)
  = stripped_label l :: PyStr.split "," r.
Proof. by destruct l as [[|]|]. Qed.

Lemma split_join_comma (ls : list (option label)) :
  ls ≠ [] →
  PyStr.split "," (join_comma (stripped_label <$> ls)) = stripped_label <$> ls.
Proof.
  induction ls as [|l [|l' ls'] IH]; [done|..]; intros _.
  - by destruct l as [[|]|].
  - change (join_comma (stripped_label <$> l :: l' :: ls'))
      with (stripped_label l +:+ "," +:+ join_comma (stripped_label <$> l' :: ls')).
    rewrite split_stripped_more, IH; done.
Qed.

Lemma parse_stripped_labels (ls : list (option label)) :
  parse_labels (stripped_label <$> ls) = (ls, []).
Proof.
  induction ls as [|l ls IH]; [done|].
  change (parse_labels (stripped_label <$> l :: ls))
    with (let '(parsed, out) := parse_labels (stripped_label <$> ls) in
          match parse_entry (stripped_label l) with
          | Some l0 => (l0 :: parsed, out)
          | None => (parsed, popup_err_unknown_entry :: out)
          end).
  rewrite IH. by destruct l as [[|]|].
Qed.

Lemma bind_Ok {A B} (a : A) (k : A → result B) : (Ok a ≫= k) = k a.
Proof. reflexivity. Qed.

Section proofs.
Context `{E : Env}.

Lemma num_images_pos : 0 < num_images.
Proof.
  unfold num_images. pose proof rgb_image_files_nonempty as Hne.
  destruct rgb_image_files; [done | simpl; lia].
Qed.

(** ** Queue bookkeeping *)

Lemma items_create_queue (ts : list task) (st : state) :
  items (q (create_queue ts st)) = items (q st) ++ ts.
Proof.
  revert st. induction ts as [|t ts IH]; intros st; simpl.
  - by rewrite app_nil_r.
  - rewrite IH. simpl. by rewrite <- app_assoc.
Qed.

Lemma unfinished_create_queue (ts : list task) (st : state) :
  unfinished_tasks (q (create_queue ts st))
  = (unfinished_tasks (q st) + length ts)%nat.
Proof.
  revert st. induction ts as [|t ts IH]; intros st; simpl.
  - lia.
  - rewrite IH. simpl. lia.
Qed.

Lemma create_queue_frame (ts : list task) (st : state) :
  index (create_queue ts st) = index st
  ∧ labels (create_queue ts st) = labels st
  ∧ loaded_rgb_images (create_queue ts st) = loaded_rgb_images st
  ∧ loaded_ir_images (create_queue ts st) = loaded_ir_images st
  ∧ loaded_tiff_vals (create_queue ts st) = loaded_tiff_vals st
  ∧ b_rgb (create_queue ts st) = b_rgb st
  ∧ b_ir (create_queue ts st) = b_ir st
  ∧ b_tiff (create_queue ts st) = b_tiff st
  ∧ threads (create_queue ts st) = threads st.
Proof.
  revert st. induction ts as [|t ts IH]; intros st; simpl; [done|].
  destruct (IH (put t st)) as (-> & -> & -> & -> & -> & -> & -> & -> & ->).
  done.
Qed.

Lemma enqueued_app (st st' : state) (ts : list task) :
  items (q st') = items (q st) ++ ts → enqueued st st' = ts.
Proof. unfold enqueued. intros ->. by rewrite drop_app_length. Qed.

(** ** Eviction *)

Lemma evict_within_radius {A} (idx : Z) (loaded : list (option A)) :
  within_radius idx (evict idx loaded).
Proof.
  intros s v. unfold evict. rewrite list_lookup_imap.
  destruct (loaded !! s) as [[w|]|]; simpl; try done.
  case_bool_decide; [done|]. intros _. lia.
Qed.

Lemma length_evict {A} (idx : Z) (loaded : list (option A)) :
  length (evict idx loaded) = length loaded.
Proof. apply length_imap. Qed.

(** A slot inside the radius is not touched by the eviction loop. *)
Lemma evict_lookup_inside {A} (idx : Z) (loaded : list (option A)) (s : nat) :
  circular_distance idx (Z.of_nat s) ≤ BUFF_RADIUS →
  evict idx loaded !! s = loaded !! s.
Proof.
  intros Hin. unfold evict. rewrite list_lookup_imap.
  destruct (loaded !! s) as [[w|]|]; simpl; try done.
  case_bool_decide; [lia | done].
Qed.

Lemma drain_nil {A} `{EqDecision A} (idx : Z) (loaded : list (option A)) :
  drain idx [] loaded = Ok ([], loaded).
Proof. reflexivity. Qed.

Lemma py_remove_length `{EqDecision A} (x : A) (l l' : list A) :
  py_remove x l = Ok l' → length l = S (length l').
Proof.
  revert l'. induction l as [|y l IH]; intros l'; simpl; [done|].
  case_decide; [by intros [= ->]|].
  destruct (py_remove x l) as [l''|]; simpl; [|done].
  intros [= <-]. simpl. f_equal. by apply IH.
Qed.

(** The drain loop has stopped by itself before its fuel runs out: with
    [length b - pos] passes allowed, allowing more changes nothing. *)
Lemma drain_loop_fuel {A} `{EqDecision A} (fuel fuel' pos : nat) (idx : Z)
    (b : list (Z * A)) (loaded : list (option A)) :
  (length b - pos ≤ fuel)%nat → (fuel ≤ fuel')%nat →
  drain_loop fuel' pos idx b loaded = drain_loop fuel pos idx b loaded.
Proof.
  revert fuel' pos b loaded.
  induction fuel as [|fuel IH]; intros fuel' pos b loaded Hlen Hle.
  - assert (b !! pos = None) as Hnone by (apply lookup_ge_None; lia).
    destruct fuel'; simpl; by rewrite ?Hnone.
  - destruct fuel' as [|fuel']; [lia|]. simpl.
    destruct (b !! pos) as [[id v]|] eqn:Hpos; [|done].
    destruct (py_setitem loaded id (slot_value idx id v)) as [loaded'|]; simpl; [|done].
    destruct (py_remove (id, v) b) as [b'|] eqn:Hrem; simpl; [|done].
    apply py_remove_length in Hrem. apply IH; lia.
Qed.

Lemma drain_fuel_enough {A} `{EqDecision A} (fuel : nat) (idx : Z)
    (b : list (Z * A)) (loaded : list (option A)) :
  (length b ≤ fuel)%nat → drain_loop fuel 0 idx b loaded = drain idx b loaded.
Proof. intros Hle. unfold drain. apply drain_loop_fuel; lia. Qed.

(** ** Reconciliation *)

(** A reconciliation pass touches the caches and the stacks only. *)
Lemma reconcile_frame (st st' : state) :
  reconcile st = Ok st' →
  index st' = index st ∧ labels st' = labels st
  ∧ q st' = q st ∧ threads st' = threads st.
Proof.
  unfold reconcile, drain_stacks.
  destruct (drain _ (b_rgb st) _) as [[b1 l1]|]; simpl; [|done].
  destruct (drain _ (b_ir st) _) as [[b2 l2]|]; simpl; [|done].
  destruct (drain _ (b_tiff st) _) as [[b3 l3]|]; simpl; [|done].
  by intros [= <-].
Qed.

Lemma drain_stacks_no_pending (st : state) :
  b_rgb st = [] → b_ir st = [] → b_tiff st = [] →
  drain_stacks st = Ok st.
Proof.
  intros Hr Hi Ht. unfold drain_stacks. rewrite Hr, Hi, Ht, !drain_nil. simpl.
  destruct st; simpl in *; by subst.
Qed.

(** Whatever was pending, the visual and thermal caches are inside the
    radius once a reconciliation pass has returned. *)
Lemma reconcile_within_radius (st st' : state) :
  reconcile st = Ok st' →
  within_radius (index st') (loaded_rgb_images st')
  ∧ within_radius (index st') (loaded_ir_images st').
Proof.
  unfold reconcile. destruct (drain_stacks st) as [st1|e]; simpl; [|done].
  intros [= <-]. simpl. split; apply evict_within_radius.
Qed.

(** C1 (as amended). After a reconciliation pass with no pending results,
    every non-empty slot of the visual and of the thermal cache is within
    circular distance [BUFF_RADIUS] of the viewing index, so every slot
    further away is empty; the pass does not scan the scalar-stats cache,
    which is left as it was. *)
Theorem reconcile_no_pending (st : state) :
  b_rgb st = [] → b_ir st = [] → b_tiff st = [] →
  ∃ st', reconcile st = Ok st'
    ∧ index st' = index st
    ∧ within_radius (index st) (loaded_rgb_images st')
    ∧ within_radius (index st) (loaded_ir_images st')
    ∧ loaded_tiff_vals st' = loaded_tiff_vals st.
Proof.
  intros Hr Hi Ht. exists (clear_outside_radius st).
  unfold reconcile. rewrite drain_stacks_no_pending by done. simpl.
  repeat split; apply evict_within_radius.
Qed.

(** ** Stepping *)

Lemma right_target (i : Z) :
  ((i + 1) mod num_images + BUFF_RADIUS) mod num_images
  = (i + BUFF_RADIUS + 1) mod num_images.
Proof. rewrite Zplus_mod_idemp_l. f_equal. lia. Qed.

Lemma left_target (i : Z) :
  ((i - 1) mod num_images - BUFF_RADIUS) mod num_images
  = (i - BUFF_RADIUS - 1) mod num_images.
Proof. rewrite Zminus_mod_idemp_l. f_equal. lia. Qed.

(** C3 (as amended). A right step sets the viewing index to
    [(old + 1) mod N] and puts exactly two tasks on the queue, one visual
    and one thermal, both for [(old + R + 1) mod N]; a left step sets it to
    [(old - 1) mod N] and puts one visual and one thermal task for
    [(old - R - 1) mod N]. A step puts no scalar task and nothing else. *)
Theorem step_enqueues_rgb_and_ir (st : state) :
  (∃ st', handle ev_right st = Ok (st', [], false)
     ∧ index st' = (index st + 1) mod num_images
     ∧ items (q st')
       = items (q st)
         ++ [rgb_task ((index st + BUFF_RADIUS + 1) mod num_images);
             ir_task ((index st + BUFF_RADIUS + 1) mod num_images)]
     ∧ of_kind tiff (enqueued st st') = [])
  ∧ (∃ st', handle ev_left st = Ok (st', [], false)
     ∧ index st' = (index st - 1) mod num_images
     ∧ items (q st')
       = items (q st)
         ++ [rgb_task ((index st - BUFF_RADIUS - 1) mod num_images);
             ir_task ((index st - BUFF_RADIUS - 1) mod num_images)]
     ∧ of_kind tiff (enqueued st st') = []).
Proof.
  split.
  - exists (handle_right st). split; [done|]. split; [done|].
    assert (items (q (handle_right st))
            = items (q st)
              ++ [rgb_task ((index st + BUFF_RADIUS + 1) mod num_images);
                  ir_task ((index st + BUFF_RADIUS + 1) mod num_images)]) as Hq.
    { unfold handle_right. simpl. rewrite right_target.
      by rewrite <- app_assoc. }
    split; [done|]. by rewrite (enqueued_app _ _ _ Hq).
  - exists (handle_left st). split; [done|]. split; [done|].
    assert (items (q (handle_left st))
            = items (q st)
              ++ [rgb_task ((index st - BUFF_RADIUS - 1) mod num_images);
                  ir_task ((index st - BUFF_RADIUS - 1) mod num_images)]) as Hq.
    { unfold handle_left. simpl. rewrite left_target.
      by rewrite <- app_assoc. }
    split; [done|]. by rewrite (enqueued_app _ _ _ Hq).
Qed.

(** ** Load State: the sequence-length guard *)

(** C6. A state file whose first line gives a sequence length other than
    [len(rgb_image_files)] makes Load State fail: the error popup is shown
    and the iteration ends with the state (viewing index, labels and
    everything else) exactly as it was. *)
Theorem load_state_num_files_mismatch (st : state) (text : string) (n : Z) :
  PyStr.int (PyStr.readline text).1 = Ok n →
  n ≠ num_images →
  handle_load_state (Some text) st = Ok (st, [popup_err_num_files], true)
  ∧ loop_iteration (ev_load_state (Some text)) st = Ok (st, [popup_err_num_files]).
Proof.
  intros Hn Hne.
  assert (handle_load_state (Some text) st = Ok (st, [popup_err_num_files], true)) as H.
  { unfold handle_load_state. destruct (PyStr.readline text) as [line1 rest1].
    simpl in Hn. rewrite Hn. simpl. by rewrite bool_decide_eq_true_2. }
  split; [done|]. unfold loop_iteration, handle. by rewrite H.
Qed.

(** ** Go To: the conversion of the dialog text *)

Lemma int_unsigned_raises (s : string) (e : exn) :
  PyStr.int_unsigned s = Raise e → e = ValueError.
Proof.
  unfold PyStr.int_unsigned. destruct (PyStr.digits_ok false s); [|congruence].
  destruct (NilEmpty.uint_of_string _); congruence.
Qed.

Lemma int_ascii_raises (s : string) (e : exn) :
  PyStr.int_ascii s = Raise e → e = ValueError.
Proof.
  unfold PyStr.int_ascii. destruct (PyStr.trim s) as [|c r]; [congruence|].
  destruct (Ascii.eqb c "-").
  - destruct (PyStr.int_unsigned r) eqn:Hu; simpl; [congruence|].
    intros [= <-]. by apply int_unsigned_raises in Hu.
  - destruct (Ascii.eqb c "+"); apply int_unsigned_raises.
Qed.

Lemma int_raises (s : string) (e : exn) :
  PyStr.int s = Raise e → e = ValueError.
Proof.
  unfold PyStr.int.
  destruct (PyStr.is_ascii s); [apply int_ascii_raises|apply int_non_ascii_raises].
Qed.

(** C10. Go To calls [int()] on the dialog text before the range test.
    For a text that is not an integer literal the call raises
    [ValueError], for a cancelled dialog ([None]) it raises [TypeError];
    either exception leaves the handler and the loop iteration, and no
    range-error popup is produced. *)
Theorem goto_conversion_raises (st : state) (s : string) :
  (∀ n, PyStr.int s ≠ Ok n) →
  handle_goto (Some s) st = Raise ValueError
  ∧ loop_iteration (ev_goto (Some s)) st = Raise ValueError
  ∧ handle_goto None st = Raise TypeError
  ∧ loop_iteration (ev_goto None) st = Raise TypeError.
Proof.
  intros Hs.
  assert (PyStr.int s = Raise ValueError) as Hint.
  { destruct (PyStr.int s) as [n|e] eqn:Hi; [by destruct (Hs n)|].
    by rewrite (int_raises _ _ Hi). }
  unfold loop_iteration, handle, handle_goto. simpl. by rewrite Hint.
Qed.

(** ** Go To *)

Lemma of_kind_window_tasks (k : kind) (idx : Z) :
  of_kind k (window_tasks idx)
  = (λ i, kind_task k ((idx + i) mod num_images)) <$> window_offsets.
Proof.
  unfold window_tasks, of_kind.
  induction window_offsets as [|i l IH]; [done|].
  change ((i :: l) ≫= ?f) with (f i ++ (l ≫= f)).
  rewrite filter_app, IH. by destruct k.
Qed.

Lemma refill_window_spec (st : state) :
  index (refill_window st) = index st
  ∧ labels (refill_window st) = labels st
  ∧ loaded_rgb_images (refill_window st) = evict (index st) (loaded_rgb_images st)
  ∧ loaded_ir_images (refill_window st) = evict (index st) (loaded_ir_images st)
  ∧ loaded_tiff_vals (refill_window st) = loaded_tiff_vals st
  ∧ items (q (refill_window st)) = items (q st) ++ window_tasks (index st).
Proof.
  unfold refill_window.
  destruct (create_queue_frame (window_tasks (index st)) (clear_outside_radius st))
    as (Hi & Hl & Hr & Hir & Ht & _).
  rewrite Hi, Hl, Hr, Hir, Ht, items_create_queue. done.
Qed.

(** C5 (as amended). Go To converts the dialog text and tests the target
    against [1, N] before anything changes. For a target [n] in range the
    viewing index becomes [n - 1]; in the same handler, before the next
    reconciliation, the visual and thermal caches are cleared outside the
    radius of the new index, while the scalar-stats cache is left as it
    was; and the tasks of a full window are put on the queue: for each of
    the three kinds, one task per offset of
    [range(-BUFF_RADIUS, BUFF_RADIUS + 1)], at [(n - 1 + offset) mod N].
    For an integer target outside [1, N] the range-error popup is shown
    and the state is unchanged. *)
Theorem goto_target (st : state) (s : string) (n : Z) :
  PyStr.int s = Ok n →
  (1 ≤ n ≤ num_images →
   ∃ st', handle_goto (Some s) st = Ok (st', [popup_goto_ok n], false)
     ∧ index st' = n - 1
     ∧ labels st' = labels st
     ∧ within_radius (n - 1) (loaded_rgb_images st')
     ∧ within_radius (n - 1) (loaded_ir_images st')
     ∧ loaded_tiff_vals st' = loaded_tiff_vals st
     ∧ items (q st') = items (q st) ++ window_tasks (n - 1)
     ∧ ∀ k, of_kind k (enqueued st st')
            = (λ i, kind_task k ((n - 1 + i) mod num_images))
                <$> seqZ (- BUFF_RADIUS) (2 * BUFF_RADIUS + 1))
  ∧ (¬ (1 ≤ n ≤ num_images) →
     handle_goto (Some s) st = Ok (st, [popup_err_goto_range], true)
     ∧ loop_iteration (ev_goto (Some s)) st = Ok (st, [popup_err_goto_range])).
Proof.
  intros Hint. split.
  - intros Hn. exists (refill_window (set_index (n - 1) st)).
    destruct (refill_window_spec (set_index (n - 1) st))
      as (Hi & Hl & Hr & Hir & Ht & Hq). simpl in *.
    split.
    { unfold handle_goto. simpl. rewrite Hint. simpl.
      rewrite !bool_decide_eq_true_2 by lia. simpl.
      by replace (n - 1 + 1) with n by lia. }
    rewrite Hr, Hir. repeat split; try done; try apply evict_within_radius.
    intros k. rewrite (enqueued_app _ _ _ Hq). apply of_kind_window_tasks.
  - intros Hn.
    assert (handle_goto (Some s) st = Ok (st, [popup_err_goto_range], true)) as H.
    { unfold handle_goto. simpl. rewrite Hint. simpl.
      destruct (decide (n > 0)); [|by rewrite bool_decide_eq_false_2].
      rewrite bool_decide_eq_true_2 by done.
      by rewrite bool_decide_eq_false_2 by lia. }
    split; [done|]. unfold loop_iteration, handle. by rewrite H.
Qed.

(** ** A decode that raises *)

(** C2 (as amended). [img_loader] catches nothing: when the decode of the
    task a worker holds raises, the exception ends that worker. Nothing
    is appended to a result stack, [q.task_done()] is not called, the
    queue and every cache are as they were, so the slot stays empty, and
    no other worker is affected; the worker itself takes no further
    task. *)
Theorem decode_failure_ends_worker (st : state) (w : nat) (id : Z)
    (path : string) (k : kind) (e : exn) :
  threads st !! w = Some (Working id path k) →
  decode_raises k path e →
  ∃ st', worker_step w st = Some st'
    ∧ st' = set_threads (<[w := Crashed e]> (threads st)) st
    ∧ threads st' !! w = Some (Crashed e)
    ∧ (∀ w', w' ≠ w → threads st' !! w' = threads st !! w')
    ∧ worker_step w st' = None.
Proof.
  intros Hw Hd.
  assert (img_loader_work w id path k st
          = set_threads (<[w := Crashed e]> (threads st)) st) as Hwork.
  { unfold img_loader_work. destruct k; simpl in Hd; by rewrite Hd. }
  assert (<[w := Crashed e]> (threads st) !! w = Some (Crashed e)) as Hlook.
  { apply list_lookup_insert_eq. by eapply lookup_lt_Some. }
  eexists. split; [unfold worker_step; by rewrite Hw, Hwork|].
  split; [done|]. simpl. split; [done|]. split.
  - intros w' Hne. by apply list_lookup_insert_ne.
  - unfold worker_step. simpl. by rewrite Hlook.
Qed.

(** ** Save State then Load State *)

(** The text Save State writes for [st0], loaded while the state is
    [st]. *)
Lemma load_saved_text (st0 st : state) :
  length (labels st0) = length (labels st) →
  labels st0 ≠ [] →
  handle_load_state (Some (save_state_text st0)) st
  = Ok (refill_window (set_labels (labels st0) (set_index (index st0) st)),
        [popup_loaded_state], false).
Proof.
  intros Hlen Hne. unfold handle_load_state, save_state_text.
  rewrite readline_app_newline by apply str_no_newline.
  rewrite int_str_newline, bind_Ok.
  rewrite bool_decide_eq_false_2 by (intros Hn; by apply Hn).
  rewrite readline_app_newline by apply str_no_newline.
  rewrite int_str_newline, bind_Ok.
  rewrite <- (append_nil_r (repr_labels (labels st0) +:+ newline)).
  rewrite readline_app_newline by apply repr_labels_no_newline.
  rewrite labels_line_stripped, split_join_comma, parse_stripped_labels by done.
  rewrite bool_decide_eq_false_2 by (intros Hn; by apply Hn).
  done.
Qed.

(** C9. Loading the text Save State has written for a state, with the
    same folder selected and whatever the viewing index, the labels and
    the caches are at the time of loading, succeeds: every label of the
    saved vector ('Fire', 'No Fire' or unlabeled) and the saved viewing
    index are what the session has afterwards. The space deletion turns
    the written 'No Fire' into NoFire, which the [match] maps back to
    'No Fire'. *)
Theorem save_then_load (st0 st : state) (confirm : bool) :
  length (labels st0) = length rgb_image_files →
  length (labels st) = length rgb_image_files →
  ∃ text st',
    handle_save_state (Some confirm) st0
    = (st0, [wrote_save_state text; popup_state_saved], false)
    ∧ handle_load_state (Some text) st = Ok (st', [popup_loaded_state], false)
    ∧ index st' = index st0
    ∧ labels st' = labels st0.
Proof.
  intros H0 H1.
  assert (labels st0 ≠ []) as Hne.
  { pose proof rgb_image_files_nonempty. intros Hnil. rewrite Hnil in H0.
    by destruct rgb_image_files. }
  exists (save_state_text st0),
    (refill_window (set_labels (labels st0) (set_index (index st0) st))).
  split; [done|]. split; [apply load_saved_text; [congruence|done]|].
  by destruct (refill_window_spec (set_labels (labels st0) (set_index (index st0) st)))
    as (-> & -> & _).
Qed.

(** ** Stopping the pool *)

Lemma insert_split {A} (l : list A) (i : nat) (x : A) :
  l !! i = Some x →
  ∃ l1 l2, l = l1 ++ x :: l2 ∧ ∀ y, <[i:=y]> l = l1 ++ y :: l2.
Proof.
  intros H. exists (take i l), (drop (S i) l). split.
  - by rewrite take_drop_middle.
  - intros y. apply insert_take_drop. by eapply lookup_lt_Some.
Qed.

Lemma worker_step_cases (w : nat) (st st' : state) :
  worker_step w st = Some st' →
  (∃ t rest, threads st !! w = Some Waiting
     ∧ items (q st) = t :: rest
     ∧ st' = set_threads (<[w := took t]> (threads st))
               (set_q (mkQueue rest (unfinished_tasks (q st))) st))
  ∨ (∃ id path k, threads st !! w = Some (Working id path k)
     ∧ st' = img_loader_work w id path k st).
Proof.
  unfold worker_step, img_loader_get.
  destruct (threads st !! w) as [[| id path k | |]|] eqn:Hw; try done.
  - destruct (items (q st)) as [|t rest]; [done|]. intros [= <-].
    left. by exists t, rest.
  - intros [= <-]. right. by exists id, path, k.
Qed.

(** The work step of a task that decodes. *)
Lemma img_loader_work_decodes (w : nat) (id : Z) (path : string) (k : kind)
    (st : state) :
  decodes (LoadTask id path k) = true →
  ∃ st1, img_loader_work w id path k st
         = set_threads (<[w := Waiting]> (threads st))
             (set_q (q_task_done (q st)) st1)
    ∧ index st1 = index st ∧ labels st1 = labels st
    ∧ loaded_rgb_images st1 = loaded_rgb_images st
    ∧ loaded_ir_images st1 = loaded_ir_images st
    ∧ loaded_tiff_vals st1 = loaded_tiff_vals st
    ∧ q st1 = q st ∧ threads st1 = threads st
    ∧ b_rgb st1 = b_rgb st ++ results_rgb [LoadTask id path k]
    ∧ b_ir st1 = b_ir st ++ results_ir [LoadTask id path k]
    ∧ b_tiff st1 = b_tiff st ++ results_tiff [LoadTask id path k].
Proof.
  unfold img_loader_work, decodes, results_rgb, results_ir, results_tiff.
  destruct k; simpl.
  - destruct (load_image path) as [img|]; [|done]. intros _.
    eexists. split; [reflexivity|]. simpl. by rewrite !app_nil_r.
  - destruct (load_image path) as [img|]; [|done]. intros _.
    eexists. split; [reflexivity|]. simpl. by rewrite !app_nil_r.
  - destruct (get_temp_stats_from_tiff path) as [v|]; [|done]. intros _.
    eexists. split; [reflexivity|]. simpl. by rewrite !app_nil_r.
Qed.


Lemma live_count_split (l1 l2 : list worker) (x : worker) :
  live_count (l1 ++ x :: l2)
  = (live_count l1 + (if terminated x then 0 else 1) + live_count l2)%nat.
Proof. unfold live_count. rewrite sum_list_with_app. simpl. lia. Qed.

Lemma busy_count_split (l1 l2 : list worker) (x : worker) :
  busy_count (l1 ++ x :: l2)
  = (busy_count l1 + length (holding x) + busy_count l2)%nat.
Proof. unfold busy_count. rewrite sum_list_with_app. simpl. lia. Qed.

Lemma exited_count_split (l1 l2 : list worker) (x : worker) :
  exited_count (l1 ++ x :: l2)
  = (exited_count l1 + (if decide (x = Exited) then 1 else 0) + exited_count l2)%nat.
Proof. unfold exited_count. rewrite sum_list_with_app. simpl. lia. Qed.

Lemma holding_split (l1 l2 : list worker) (x : worker) :
  (l1 ++ x :: l2) ≫= holding = (l1 ≫= holding) ++ holding x ++ (l2 ≫= holding).
Proof. by rewrite bind_app, bind_cons. Qed.

Lemma took_load (t : task) :
  is_load t = true → holding (took t) = [t] ∧ terminated (took t) = false
                      ∧ took t ≠ Exited ∧ ∀ e, took t ≠ Crashed e.
Proof. by destruct t. Qed.

(** A worker step keeps the pool in its stopping shape. *)
Lemma pool_stopping_step (w : nat) (st st' : state) :
  pool_stopping st → worker_step w st = Some st' → pool_stopping st'.
Proof.
  intros (Hcrash & Hdec & pending & Hitems & Hload & Hexit) Hstep.
  unfold in_flight in Hdec. apply Forall_app in Hdec as [Hdec_h Hdec_q].
  destruct (worker_step_cases _ _ _ Hstep)
    as [(t & rest & Hw & Hq & ->)|(id & path & k & Hw & ->)].
  - destruct (insert_split _ _ _ Hw) as (l1 & l2 & Hth & Hins).
    unfold pool_stopping, in_flight. simpl. rewrite Hins.
    rewrite Hth in Hcrash, Hdec_h, Hitems, Hexit.
    rewrite holding_split in Hdec_h. rewrite live_count_split in Hitems.
    apply Forall_app in Hcrash as [Hc1 [_ Hc2]%Forall_cons].
    apply Forall_app in Hdec_h as [Hd1 [_ Hd2]%Forall_app].
    rewrite Hq in Hdec_q, Hitems. apply Forall_cons in Hdec_q as [Hdt Hdrest].
    simpl in Hitems. rewrite holding_split, live_count_split.
    destruct pending as [|t' pending'].
    + (* the head of the queue is a sentinel *)
      simpl in Hitems.
      replace (live_count l1 + 1 + live_count l2)%nat
        with (S (live_count l1 + live_count l2)) in Hitems by lia.
      simpl in Hitems. injection Hitems as -> ->. simpl.
      split; [|split].
      * apply Forall_app; split; [done|]. by apply Forall_cons.
      * rewrite !Forall_app. tauto.
      * exists []. simpl. split; [f_equal; lia|]. split; [done|]. by left.
    + (* the head of the queue is a pending task *)
      simpl in Hitems. injection Hitems as -> ->.
      apply Forall_cons in Hload as [Hlt Hlp].
      destruct (took_load _ Hlt) as (Hhold & Hterm & Hnex & Hncr).
      destruct Hexit as [|Hexit]; [done|].
      apply Forall_app in Hexit as [He1 [_ He2]%Forall_cons].
      rewrite Hhold, Hterm. split; [|split].
      * apply Forall_app; split; [done|]. by apply Forall_cons.
      * apply Forall_app in Hdrest. rewrite !Forall_app, Forall_singleton. tauto.
      * exists pending'. split; [done|]. split; [done|]. right.
        apply Forall_app; split; [done|]. by apply Forall_cons.
  - destruct (insert_split _ _ _ Hw) as (l1 & l2 & Hth & Hins).
    rewrite Hth in Hcrash, Hdec_h, Hitems, Hexit.
    rewrite holding_split in Hdec_h. rewrite live_count_split in Hitems.
    apply Forall_app in Hcrash as [Hc1 [_ Hc2]%Forall_cons].
    apply Forall_app in Hdec_h as [Hd1 [Hdt Hd2]%Forall_app].
    simpl in Hdt. apply Forall_cons in Hdt as [Hdt _].
    destruct (img_loader_work_decodes w id path k st Hdt)
      as (st1 & -> & _ & _ & _ & _ & _ & Hq1 & Hth1 & _).
    unfold pool_stopping, in_flight. simpl. rewrite Hins.
    rewrite holding_split, live_count_split. simpl.
    split; [|split].
    + apply Forall_app; split; [done|]. by apply Forall_cons.
    + rewrite !Forall_app. tauto.
    + exists pending. split; [done|]. split; [done|].
      destruct Hexit as [|Hexit]; [by left|right].
      apply Forall_app in Hexit as [He1 [_ He2]%Forall_cons].
      apply Forall_app; split; [done|]. by apply Forall_cons.
Qed.

Lemma results_rgb_app (a b : list task) :
  results_rgb (a ++ b) = results_rgb a ++ results_rgb b.
Proof. apply bind_app. Qed.
Lemma results_ir_app (a b : list task) :
  results_ir (a ++ b) = results_ir a ++ results_ir b.
Proof. apply bind_app. Qed.
Lemma results_tiff_app (a b : list task) :
  results_tiff (a ++ b) = results_tiff a ++ results_tiff b.
Proof. apply bind_app. Qed.

Lemma results_cons (t : task) (ts : list task) :
  results_rgb (t :: ts) = results_rgb [t] ++ results_rgb ts
  ∧ results_ir (t :: ts) = results_ir [t] ++ results_ir ts
  ∧ results_tiff (t :: ts) = results_tiff [t] ++ results_tiff ts.
Proof.
  change (t :: ts) with ([t] ++ ts).
  by rewrite results_rgb_app, results_ir_app, results_tiff_app.
Qed.

Lemma results_took (t : task) :
  results_rgb (holding (took t)) = results_rgb [t]
  ∧ results_ir (holding (took t)) = results_ir [t]
  ∧ results_tiff (holding (took t)) = results_tiff [t].
Proof. by destruct t. Qed.

(** What is on the stacks together with what the tasks in flight will
    add to them is the same before and after a worker step. *)
Lemma worker_step_conserves (w : nat) (st st' : state) :
  Forall (λ t, decodes t = true) (in_flight st) →
  worker_step w st = Some st' →
  b_rgb st' ++ results_rgb (in_flight st') ≡ₚ b_rgb st ++ results_rgb (in_flight st)
  ∧ b_ir st' ++ results_ir (in_flight st') ≡ₚ b_ir st ++ results_ir (in_flight st)
  ∧ b_tiff st' ++ results_tiff (in_flight st')
      ≡ₚ b_tiff st ++ results_tiff (in_flight st).
Proof.
  intros Hdec Hstep. unfold in_flight in *.
  destruct (worker_step_cases _ _ _ Hstep)
    as [(t & rest & Hw & Hq & ->)|(id & path & k & Hw & ->)];
    destruct (insert_split _ _ _ Hw) as (l1 & l2 & Hth & Hins).
  - simpl. rewrite Hins, Hq, Hth, !holding_split.
    destruct (results_cons t rest) as (Hr & Hi & Ht).
    destruct (results_took t) as (Hr' & Hi' & Ht').
    rewrite !results_rgb_app, !results_ir_app, !results_tiff_app.
    rewrite Hr, Hi, Ht, Hr', Hi', Ht'. simpl.
    split; [|split]; solve_Permutation.
  - rewrite Hth, holding_split in Hdec.
    apply Forall_app in Hdec as [[_ [Hdt _]%Forall_app]%Forall_app _].
    simpl in Hdt. apply Forall_cons in Hdt as [Hdt _].
    destruct (img_loader_work_decodes w id path k st Hdt)
      as (st1 & -> & _ & _ & _ & _ & _ & _ & _ & Hbr & Hbi & Hbt).
    simpl. rewrite Hbr, Hbi, Hbt, Hins, Hth, !holding_split.
    rewrite !results_rgb_app, !results_ir_app, !results_tiff_app. simpl.
    split; [|split]; solve_Permutation.
Qed.

(** Every worker step uses up some of [steps_left]. *)
Lemma worker_step_decreases (w : nat) (st st' : state) :
  worker_step w st = Some st' → (steps_left st' < steps_left st)%nat.
Proof.
  intros Hstep. unfold steps_left.
  destruct (worker_step_cases _ _ _ Hstep)
    as [(t & rest & Hw & Hq & ->)|(id & path & k & Hw & ->)];
    destruct (insert_split _ _ _ Hw) as (l1 & l2 & Hth & Hins).
  - simpl. rewrite Hins, Hq, Hth, !busy_count_split. simpl.
    destruct t; simpl; lia.
  - assert (items (q (img_loader_work w id path k st)) = items (q st)
            ∧ ∃ x, threads (img_loader_work w id path k st) = <[w := x]> (threads st)
                   ∧ holding x = []) as (-> & x & -> & Hx).
    { unfold img_loader_work.
      destruct k; [destruct (load_image path)|destruct (load_image path)
                  |destruct (get_temp_stats_from_tiff path)];
        simpl; (split; [done|]); eexists; (split; [reflexivity|done]). }
    rewrite Hins, Hth, !busy_count_split, Hx. simpl. lia.
Qed.

Lemma running_thread (l : list worker) :
  forallb terminated l = false →
  ∃ w x, l !! w = Some x ∧ terminated x = false.
Proof.
  induction l as [|y l IH]; [done|]. simpl.
  destruct (terminated y) eqn:Hy.
  - intros Hret. destruct (IH Hret) as (w & x & Hw & Hx). by exists (S w), x.
  - intros _. by exists 0%nat, y.
Qed.

(** While a thread of a stopping pool is still running, some worker can
    take a step: none is left blocked on [q.get()]. *)
Lemma pool_stopping_progress (st : state) :
  pool_stopping st →
  stop_workers_returns st = false →
  ∃ w st', worker_step w st = Some st'.
Proof.
  intros (Hcrash & _ & pending & Hitems & _ & _) Hret.
  unfold stop_workers_returns in Hret.
  destruct (running_thread _ Hret) as (w & x & Hw & Hx).
  exists w. unfold worker_step, img_loader_get. rewrite Hw.
  destruct x as [| id path k | |]; try done; [|eauto].
  destruct (insert_split _ _ _ Hw) as (l1 & l2 & Hth & _).
  rewrite Hth, live_count_split in Hitems. simpl in Hitems.
  destruct (items (q st)) as [|t rest]; [|eauto].
  destruct pending; [|done].
  replace (live_count l1 + 1 + live_count l2)%nat
    with (S (live_count l1 + live_count l2)) in Hitems by lia.
  done.
Qed.

Lemma put_sentinels_spec {A} (l : list A) (st : state) :
  let st' := foldl (λ s _, put Sentinel s) st l in
  items (q st') = items (q st) ++ replicate (length l) Sentinel
  ∧ threads st' = threads st
  ∧ b_rgb st' = b_rgb st ∧ b_ir st' = b_ir st ∧ b_tiff st' = b_tiff st.
Proof.
  revert st. induction l as [|x l IH]; intros st; simpl.
  - by rewrite app_nil_r.
  - destruct (IH (put Sentinel st)) as (-> & -> & -> & -> & ->). simpl.
    by rewrite <- app_assoc.
Qed.

Lemma live_count_running (l : list worker) :
  Forall (λ w, terminated w = false) l → live_count l = length l.
Proof.
  induction 1 as [|w l Hw _ IH]; [done|].
  unfold live_count in *. simpl. rewrite Hw, IH. done.
Qed.

Lemma exited_live_count (l : list worker) :
  Forall (λ w, ∀ e, w ≠ Crashed e) l →
  (exited_count l + live_count l = length l)%nat.
Proof.
  induction 1 as [|w l Hw _ IH]; [done|].
  unfold exited_count, live_count in *. simpl.
  destruct w; simpl; try lia. by destruct (Hw e).
Qed.

Lemma stop_workers_put_stopping (st : state) :
  pool_running st → pool_stopping (stop_workers_put st).
Proof.
  intros (Hrun & Hload & Hdec).
  destruct (put_sentinels_spec (threads st) st) as (Hq & Hth & _).
  unfold stop_workers_put, pool_stopping, in_flight in *. rewrite Hq, Hth.
  split; [|split].
  - eapply Forall_impl; [exact Hrun|]. intros w Hw e ->. done.
  - apply Forall_app in Hdec as [Hh Hi]. rewrite !Forall_app.
    repeat split; try done. by apply Forall_replicate.
  - exists (items (q st)). rewrite live_count_running by done.
    split; [done|]. split; [done|]. right.
    eapply Forall_impl; [exact Hrun|]. by intros w Hw ->.
Qed.

Lemma worker_step_length (w : nat) (st st' : state) :
  worker_step w st = Some st' → length (threads st') = length (threads st).
Proof.
  intros Hstep.
  destruct (worker_step_cases _ _ _ Hstep)
    as [(t & rest & Hw & Hq & ->)|(id & path & k & Hw & ->)].
  - simpl. apply length_insert.
  - unfold img_loader_work.
    destruct k; [destruct (load_image path)|destruct (load_image path)
                |destruct (get_temp_stats_from_tiff path)];
      simpl; apply length_insert.
Qed.

Lemma run_workers_app (s1 s2 : list nat) (st : state) :
  run_workers (s1 ++ s2) st = run_workers s2 (run_workers s1 st).
Proof. revert st. induction s1 as [|w s1 IH]; intros st; simpl; [done|apply IH]. Qed.

(** The facts above carried along a whole schedule. *)
Lemma pool_stopping_run (schedule : list nat) (st : state) :
  pool_stopping st →
  pool_stopping (run_workers schedule st)
  ∧ length (threads (run_workers schedule st)) = length (threads st)
  ∧ b_rgb (run_workers schedule st) ++ results_rgb (in_flight (run_workers schedule st))
      ≡ₚ b_rgb st ++ results_rgb (in_flight st)
  ∧ b_ir (run_workers schedule st) ++ results_ir (in_flight (run_workers schedule st))
      ≡ₚ b_ir st ++ results_ir (in_flight st)
  ∧ b_tiff (run_workers schedule st) ++ results_tiff (in_flight (run_workers schedule st))
      ≡ₚ b_tiff st ++ results_tiff (in_flight st).
Proof.
  revert st. induction schedule as [|w schedule IH]; intros st Hst; simpl; [done|].
  destruct (worker_step w st) as [st'|] eqn:Hstep; simpl; [|by apply IH].
  pose proof (pool_stopping_step _ _ _ Hst Hstep) as Hst'.
  destruct Hst as (_ & Hdec & _).
  destruct (worker_step_conserves _ _ _ Hdec Hstep) as (Hr & Hi & Ht).
  destruct (IH st' Hst') as (H1 & H2 & H3 & H4 & H5).
  rewrite (worker_step_length _ _ _ Hstep) in H2.
  rewrite <- Hr, <- Hi, <- Ht. done.
Qed.

(** From a stopping pool the workers can always be run to the point where
    every [join] returns. *)
Lemma pool_stopping_terminates (st : state) :
  pool_stopping st →
  ∃ schedule, stop_workers_returns (run_workers schedule st) = true.
Proof.
  remember (steps_left st) as n eqn:Hn. revert st Hn.
  induction n as [n IH] using lt_wf_ind. intros st -> Hst.
  destruct (stop_workers_returns st) eqn:Hret; [by exists []|].
  destruct (pool_stopping_progress st Hst Hret) as (w & st' & Hstep).
  destruct (IH (steps_left st') (worker_step_decreases _ _ _ Hstep) st' eq_refl
              (pool_stopping_step _ _ _ Hst Hstep)) as (schedule & Hs).
  exists (w :: schedule). simpl. by rewrite Hstep.
Qed.

Lemma all_terminated_exited (l : list worker) :
  Forall (λ w, ∀ e, w ≠ Crashed e) l →
  forallb terminated l = true →
  Forall (λ w, w = Exited) l ∧ live_count l = 0%nat.
Proof.
  induction 1 as [|w l Hw _ IH]; [done|]. simpl.
  intros [Hterm Hl]%andb_prop. destruct (IH Hl) as [IH1 IH2].
  unfold live_count in *. simpl. rewrite Hterm, IH2.
  split; [|done]. apply Forall_cons; split; [|done].
  destruct w; try done. by destruct (Hw e).
Qed.

(** C8 (as amended). Take a pool none of whose threads has terminated,
    with at least one thread, a queue of pending tasks, and no task in
    flight whose decode raises. [stop_workers] puts exactly one sentinel
    per thread, after the pending tasks. Under every schedule of the
    workers from there: the queue is always what is left of the pending
    tasks followed by sentinels; a thread has exited only once no pending
    task is left in the queue; the threads that exited and the sentinels
    still queued add up to the number of threads, so each sentinel taken
    ends exactly one worker; while a thread is still running some worker
    can take a step, every step uses up a finite bound, and the run can
    be continued until every [join] returns. When they have all returned,
    every thread has exited through a sentinel, the queue is empty, and
    each stack holds, in some order, what it held before plus one result
    for every task that was pending or being decoded. *)
Theorem stop_workers_drains (st : state) (schedule : list nat) :
  pool_running st →
  threads st ≠ [] →
  let st1 := stop_workers_put st in
  let st2 := run_workers schedule st1 in
  items (q st1) = items (q st) ++ replicate (length (threads st)) Sentinel
  ∧ (∃ pending n,
       items (q st2) = pending ++ replicate n Sentinel
       ∧ Forall (λ t, is_load t = true) pending
       ∧ (exited_count (threads st2) + n = length (threads st))%nat
       ∧ (pending = [] ∨ exited_count (threads st2) = 0%nat))
  ∧ (stop_workers_returns st2 = false → ∃ w st3, worker_step w st2 = Some st3)
  ∧ (∀ w st3, worker_step w st2 = Some st3 → (steps_left st3 < steps_left st2)%nat)
  ∧ (∃ more, stop_workers_returns (run_workers (schedule ++ more) st1) = true)
  ∧ (stop_workers_returns st2 = true →
       Forall (λ w, w = Exited) (threads st2)
       ∧ items (q st2) = []
       ∧ b_rgb st2 ≡ₚ b_rgb st ++ results_rgb (in_flight st)
       ∧ b_ir st2 ≡ₚ b_ir st ++ results_ir (in_flight st)
       ∧ b_tiff st2 ≡ₚ b_tiff st ++ results_tiff (in_flight st)).
Proof.
  intros Hrun Hk st1 st2.
  destruct (put_sentinels_spec (threads st) st) as (Hq1 & Hth1 & Hbr1 & Hbi1 & Hbt1).
  fold (stop_workers_put st) in Hq1, Hth1, Hbr1, Hbi1, Hbt1.
  fold st1 in Hq1, Hth1, Hbr1, Hbi1, Hbt1.
  pose proof (stop_workers_put_stopping st Hrun) as Hst1. fold st1 in Hst1.
  destruct (pool_stopping_run schedule st1 Hst1) as (Hst2 & Hlen & Hr & Hi & Ht).
  fold st2 in Hst2, Hlen, Hr, Hi, Ht.
  assert (results_rgb (in_flight st1) = results_rgb (in_flight st)
          ∧ results_ir (in_flight st1) = results_ir (in_flight st)
          ∧ results_tiff (in_flight st1) = results_tiff (in_flight st)) as (Er & Ei & Et).
  { unfold in_flight. rewrite Hq1, Hth1.
    rewrite !results_rgb_app, !results_ir_app, !results_tiff_app.
    assert (∀ n, results_rgb (replicate n Sentinel) = []
                 ∧ results_ir (replicate n Sentinel) = []
                 ∧ results_tiff (replicate n Sentinel) = []) as Hs.
    { induction n as [|n (IHr & IHi & IHt)]; [done|].
      destruct (results_cons Sentinel (replicate n Sentinel)) as (H1 & H2 & H3).
      change (replicate (S n) Sentinel) with (Sentinel :: replicate n Sentinel).
      by rewrite H1, H2, H3, IHr, IHi, IHt. }
    destruct (Hs (length (threads st))) as (-> & -> & ->).
    by rewrite !app_nil_r. }
  rewrite Er, Hbr1 in Hr. rewrite Ei, Hbi1 in Hi. rewrite Et, Hbt1 in Ht.
  pose proof Hst2 as (Hcrash & Hdec & pending & Hitems & Hload & Hexit).
  pose proof (exited_live_count _ Hcrash) as Hcount.
  rewrite Hlen, Hth1 in Hcount.
  split; [done|]. split; [|split; [|split; [|split]]].
  - exists pending, (live_count (threads st2)).
    split; [done|]. split; [done|]. split; [done|].
    destruct Hexit as [|Hexit]; [by left|right].
    clear -Hexit. induction Hexit as [|w l Hw _ IH]; [done|].
    unfold exited_count in *. simpl. rewrite IH. by case_decide.
  - intros Hret. by apply pool_stopping_progress.
  - intros w st3. apply worker_step_decreases.
  - destruct (pool_stopping_terminates st2 Hst2) as (more & Hmore).
    exists more. by rewrite run_workers_app.
  - intros Hret. unfold stop_workers_returns in Hret.
    destruct (all_terminated_exited _ Hcrash Hret) as [Hall Hlive].
    assert (pending = []) as ->.
    { destruct Hexit as [|Hexit]; [done|].
      destruct (threads st2) as [|w l] eqn:Hth2.
      - simpl in Hlen. rewrite Hth1 in Hlen. by destruct (threads st).
      - apply Forall_cons in Hall as [-> _]. by apply Forall_cons in Hexit as [? _]. }
    rewrite Hlive in Hitems. simpl in Hitems.
    assert (in_flight st2 = []) as Hnone.
    { unfold in_flight. rewrite Hitems, app_nil_r.
      clear -Hall. induction Hall as [|w l -> _ IH]; [done|].
      by rewrite bind_cons, IH. }
    rewrite Hnone in Hr, Hi, Ht.
    change (results_rgb []) with (@nil (Z * payload)) in Hr.
    change (results_ir []) with (@nil (Z * payload)) in Hi.
    change (results_tiff []) with (@nil (Z * stats)) in Ht.
    rewrite app_nil_r in Hr, Hi, Ht. done.
Qed.

End proofs.

(** * The properties on concrete runs *)

(** ** Six files, radius 1 *)

Section six_files.
#[local] Existing Instance env6.

(** C1, an instance of the amended statement: every slot of the visual
    cache is populated, nothing is pending, and one pass clears all of
    them but the window. *)
Lemma reconcile_no_pending_witness :
  let st := set_loaded_rgb_images (replicate 6 (Some "img")) (preload) in
  b_rgb st = [] ∧ b_ir st = [] ∧ b_tiff st = []
  ∧ ∃ st', reconcile st = Ok st'
      ∧ index st' = index st
      ∧ within_radius (index st) (loaded_rgb_images st')
      ∧ within_radius (index st) (loaded_ir_images st')
      ∧ loaded_tiff_vals st' = loaded_tiff_vals st.
Proof.
  intros st. split; [reflexivity|]. split; [reflexivity|]. split; [reflexivity|].
  apply (reconcile_no_pending st); reflexivity.
Defined.

(** C1 as stated fails for the scalar-stats cache. Six files, radius 1:
    after Go To pair 4 its window has loaded, after Go To pair 1 the
    viewing index is 0 and nothing is pending, yet a reconciliation pass
    leaves the scalar slot 3 populated, at circular distance 3. *)
Lemma reconcile_no_pending_counterexample :
  ∃ st st',
    reach one_worker_preload goto_4_then_1 = Some st
    ∧ b_rgb st = [] ∧ b_ir st = [] ∧ b_tiff st = []
    ∧ reconcile st = Ok st'
    ∧ index st' = 0
    ∧ loaded_tiff_vals st' !! 3%nat = Some (Some "D/Thermal/Celsius TIFF/3.TIFF")
    ∧ circular_distance 0 3 = 3
    ∧ ¬ within_radius (index st') (loaded_tiff_vals st').
Proof.
  eexists _, _. split; [vm_compute; reflexivity|].
  do 7 (split; [vm_compute; reflexivity|]).
  intros H. specialize (H 3%nat _ eq_refl). vm_compute in H. by apply H.
Qed.

(** C5 as stated fails for the scalar-stats cache. Six files, radius 1,
    the window of pair 4 loaded: Go To pair 1 moves the viewing index to
    0 and returns with the scalar slot 3 still populated. *)
Lemma goto_target_counterexample :
  ∃ st st',
    reach one_worker_preload goto_4 = Some st
    ∧ handle_goto (Some "1") st = Ok (st', [popup_goto_ok 1], false)
    ∧ index st' = 0
    ∧ loaded_tiff_vals st' !! 3%nat = Some (Some "D/Thermal/Celsius TIFF/3.TIFF")
    ∧ ¬ within_radius (index st') (loaded_tiff_vals st').
Proof.
  eexists _, _. split; [vm_compute; reflexivity|].
  do 3 (split; [vm_compute; reflexivity|]).
  intros H. specialize (H 3%nat _ eq_refl). vm_compute in H. by apply H.
Qed.

End six_files.

(** ** Twenty files, one of them unreadable *)

Section unreadable_file.
#[local] Existing Instance env20_unreadable.

(** C2, an instance of the amended statement: worker 0 has taken the
    first preload task, whose file cannot be decoded. *)
Lemma decode_failure_ends_worker_witness :
  let st := run_workers [0%nat] preload in
  threads st !! 0%nat = Some (Working 13 "D/RGB/Corrected FOV/13.JPG" rgb)
  ∧ decode_raises rgb "D/RGB/Corrected FOV/13.JPG" Cv2Error
  ∧ ∃ st', worker_step 0 st = Some st'
      ∧ st' = set_threads (<[0%nat := Crashed Cv2Error]> (threads st)) st
      ∧ threads st' !! 0%nat = Some (Crashed Cv2Error)
      ∧ (∀ w', w' ≠ 0%nat → threads st' !! w' = threads st !! w')
      ∧ worker_step 0 st' = None.
Proof.
  intros st. split; [reflexivity|]. split; [reflexivity|].
  apply (decode_failure_ends_worker st 0 13 "D/RGB/Corrected FOV/13.JPG" rgb Cv2Error);
    reflexivity.
Defined.

(** C2 as stated fails: the worker does crash. Twenty files, the first
    preload task unreadable: worker 0 takes it and is ended by the
    exception; worker 1 then finishes the other 29 tasks, the queue is
    empty, and one task is still counted as unfinished, so [q.join()] in
    [main] does not return. *)
Lemma decode_failure_counterexample :
  let st := run_workers ([0; 0] ++ replicate 60 1)%nat preload in
  threads st = Crashed Cv2Error :: replicate 9 Waiting
  ∧ items (q st) = []
  ∧ unfinished_tasks (q st) = 1%nat
  ∧ q_join_returns (q st) = false
  ∧ startup ([0; 0] ++ replicate 60 1)%nat = None.
Proof. intros st. repeat split; vm_compute; reflexivity. Qed.

End unreadable_file.

(** ** Twenty files, radius 7 *)

Section twenty_files.
#[local] Existing Instance env20.

(** C3 as stated fails for the scalar kind: a right step puts no tiff
    task, so it is not the case that every kind gets exactly one. *)
Lemma step_counterexample :
  ¬ ∀ k, ∃ t, of_kind k (enqueued preload (handle_right preload)) = [t].
Proof. intros H. destruct (H tiff) as [t Ht]. vm_compute in Ht. discriminate. Qed.

(** C6, an instance: twenty files are selected, the file announces
    nineteen. *)
Lemma load_state_num_files_mismatch_witness :
  let st := preload in
  let text := "19" +:+ newline +:+ "0" +:+ newline +:+ "[None]" +:+ newline in
  PyStr.int (PyStr.readline text).1 = Ok 19
  ∧ 19 ≠ num_images
  ∧ handle_load_state (Some text) st = Ok (st, [popup_err_num_files], true)
  ∧ loop_iteration (ev_load_state (Some text)) st = Ok (st, [popup_err_num_files]).
Proof.
  intros st text. split; [reflexivity|]. split; [discriminate|].
  apply (load_state_num_files_mismatch st text 19); [reflexivity | discriminate].
Defined.

(** C5, two instances: pair 11 of 20 is in range, pair 21 is not. *)
Lemma goto_target_witness :
  let st := preload in
  (PyStr.int "11" = Ok 11 ∧ 1 ≤ 11 ≤ num_images
   ∧ ∃ st', handle_goto (Some "11") st = Ok (st', [popup_goto_ok 11], false)
       ∧ index st' = 10
       ∧ items (q st') = items (q st) ++ window_tasks 10)
  ∧ (PyStr.int "21" = Ok 21 ∧ ¬ (1 ≤ 21 ≤ num_images)
     ∧ handle_goto (Some "21") st = Ok (st, [popup_err_goto_range], true)).
Proof.
  intros st. split.
  - split; [reflexivity|]. split; [by vm_compute|].
    destruct (goto_target st "11" 11 eq_refl) as [Hin _].
    destruct Hin as (st' & H1 & H2 & _ & _ & _ & _ & H3 & _); [by vm_compute|].
    exists st'. by rewrite H1, H2, H3.
  - split; [reflexivity|].
    assert (¬ (1 ≤ 21 ≤ num_images)) as Hout by (vm_compute; intros [_ H]; by apply H).
    split; [exact Hout|].
    destruct (goto_target st "21" 21 eq_refl) as [_ Hinv].
    exact (proj1 (Hinv Hout)).
Defined.

(** C7 (as amended). Twenty files, radius 7, viewing index 0. The
    preload puts one visual and one thermal task for each of the 15
    positions 13..19, 0..7 and no scalar task. Once those have settled,
    a right step moves the index to 1 and leaves exactly two entries on
    the queue, the visual and the thermal task for position 8; the
    reconciliation of that same iteration empties slot 13, the trailing
    edge of the old window. After the two tasks are decoded and one more
    iteration has run, slot 8 is populated in both caches. The
    scalar-stats cache stays empty throughout. *)
Theorem scenario_20_radius_7 :
  target <$> of_kind rgb (starting_images 0)
    = Some <$> [13; 14; 15; 16; 17; 18; 19; 0; 1; 2; 3; 4; 5; 6; 7]
  ∧ target <$> of_kind ir (starting_images 0)
    = Some <$> [13; 14; 15; 16; 17; 18; 19; 0; 1; 2; 3; 4; 5; 6; 7]
  ∧ of_kind tiff (starting_images 0) = []
  ∧ length (of_kind rgb (starting_images 0)) = 15%nat
  ∧ items (q preload) = starting_images 0
  ∧ snapshot <$> reach one_worker_preload settle
    = Some (0, [0; 1; 2; 3; 4; 5; 6; 7; 13; 14; 15; 16; 17; 18; 19]%nat,
            [0; 1; 2; 3; 4; 5; 6; 7; 13; 14; 15; 16; 17; 18; 19]%nat, [], [])
  ∧ snapshot <$> reach one_worker_preload step_right
    = Some (1, [0; 1; 2; 3; 4; 5; 6; 7; 14; 15; 16; 17; 18; 19]%nat,
            [0; 1; 2; 3; 4; 5; 6; 7; 14; 15; 16; 17; 18; 19]%nat, [],
            [rgb_task 8; ir_task 8])
  ∧ snapshot <$> reach one_worker_preload step_right_drained
    = Some (1, [0; 1; 2; 3; 4; 5; 6; 7; 8; 14; 15; 16; 17; 18; 19]%nat,
            [0; 1; 2; 3; 4; 5; 6; 7; 8; 14; 15; 16; 17; 18; 19]%nat, [], []).
Proof. repeat split; vm_compute; reflexivity. Qed.

(** C7 as stated fails: the window has 15 positions, not 14; the tasks
    a right step from index 0 puts target position 8, none targets 9;
    and slot 9 is still empty after they have been decoded and
    reconciled. *)
Lemma scenario_20_radius_7_counterexample :
  length (of_kind rgb (starting_images 0)) ≠ 14%nat
  ∧ (index preload + BUFF_RADIUS + 1) mod num_images ≠ 9
  ∧ Forall (λ t, target t ≠ Some 9) (enqueued preload (handle_right preload))
  ∧ (λ st, loaded_rgb_images st !! 9%nat) <$> reach one_worker_preload step_right_drained
    = Some (Some None).
Proof.
  split; [by vm_compute|]. split; [by vm_compute|]. split.
  - vm_compute. repeat constructor; discriminate.
  - vm_compute. reflexivity.
Qed.

(** C8, an instance: ten workers, three pending tasks. Workers 0, 1 and
    2 take and decode them, then every worker takes a sentinel. *)
Lemma stop_workers_drains_witness :
  let st := idle_pool 10 [rgb_task 0; ir_task 0; tiff_task 0] in
  let schedule := ([0; 1; 2; 0; 1; 2] ++ seq 0 10)%nat in
  let st2 := run_workers schedule (stop_workers_put st) in
  pool_running st ∧ threads st ≠ []
  ∧ stop_workers_returns st2 = true
  ∧ Forall (λ w, w = Exited) (threads st2)
  ∧ items (q st2) = []
  ∧ b_rgb st2 ≡ₚ b_rgb st ++ results_rgb (in_flight st)
  ∧ b_ir st2 ≡ₚ b_ir st ++ results_ir (in_flight st)
  ∧ b_tiff st2 ≡ₚ b_tiff st ++ results_tiff (in_flight st).
Proof.
  intros st schedule st2.
  assert (pool_running st) as Hrun.
  { unfold pool_running. split; [|split]; vm_compute; repeat constructor. }
  assert (threads st ≠ []) as Hne by discriminate.
  assert (stop_workers_returns st2 = true) as Hret by (vm_compute; reflexivity).
  split; [exact Hrun|]. split; [exact Hne|]. split; [exact Hret|].
  destruct (stop_workers_drains st schedule Hrun Hne) as (_ & _ & _ & _ & _ & Hfin).
  exact (Hfin Hret).
Defined.

(** C10, two instances: the text "abc", and a 5 behind the file
    separator (character 28), which [int()] does not skip. *)
Lemma goto_conversion_raises_witness :
  let st := preload in
  ((∀ n, PyStr.int "abc" ≠ Ok n)
   ∧ handle_goto (Some "abc") st = Raise ValueError
   ∧ loop_iteration (ev_goto (Some "abc")) st = Raise ValueError
   ∧ handle_goto None st = Raise TypeError
   ∧ loop_iteration (ev_goto None) st = Raise TypeError)
  ∧ ((∀ n, PyStr.int (String "028" "5") ≠ Ok n)
     ∧ handle_goto (Some (String "028" "5")) st = Raise ValueError
     ∧ loop_iteration (ev_goto (Some (String "028" "5"))) st = Raise ValueError).
Proof.
  intros st. split.
  - split; [discriminate|].
    apply (goto_conversion_raises st "abc"). discriminate.
  - split; [discriminate|].
    destruct (goto_conversion_raises st (String "028" "5")) as (H1 & H2 & _);
      [discriminate|]. by split.
Defined.

End twenty_files.

(** ** Three files *)

Section three_files.
#[local] Existing Instance env3.

(** C4, the code at a failing input. Three files are selected and the
    viewing index is 0; the state file announces three files, index 2 and
    a single label. Load State reports that it is failing to load the
    state, and ends the iteration with the viewing index already moved
    to 2. *)
Theorem load_state_labels_mismatch_moves_index :
  let st := preload in
  let text := "3" +:+ newline +:+ "2" +:+ newline +:+ "['Fire']" +:+ newline in
  index st = 0
  ∧ loop_iteration (ev_load_state (Some text)) st
    = Ok (set_index 2 st, [popup_err_labels_length])
  ∧ index (set_index 2 st) = 2.
Proof. intros st text. repeat split; vm_compute; reflexivity. Qed.

(** C9, an instance: three files, one label of each kind and index 2
    saved; the text is loaded when the index is 0 and nothing is
    labeled. *)
Lemma save_then_load_witness :
  let st0 := set_index 2 (set_labels [Some Fire; Some NoFire; None] preload) in
  let st := preload in
  length (labels st0) = length rgb_image_files
  ∧ length (labels st) = length rgb_image_files
  ∧ index st = 0
  ∧ labels st = [None; None; None]
  ∧ ∃ text st',
      handle_save_state (Some true) st0
      = (st0, [wrote_save_state text; popup_state_saved], false)
      ∧ handle_load_state (Some text) st = Ok (st', [popup_loaded_state], false)
      ∧ index st' = index st0
      ∧ labels st' = labels st0.
Proof.
  intros st0 st.
  assert (length (labels st0) = length rgb_image_files) as H0 by reflexivity.
  assert (length (labels st) = length rgb_image_files) as H1
    by (vm_compute; reflexivity).
  split; [exact H0|]. split; [exact H1|].
  split; [vm_compute; reflexivity|]. split; [vm_compute; reflexivity|].
  exact (save_then_load st0 st true H0 H1).
Defined.

End three_files.

(** ** Stopping the pool where the amended hypotheses fail *)

(** C8 as stated fails. (a) One worker, two pending tasks, the first
    unreadable: the worker is ended by the exception, every [join]
    returns, and the second task is still in the queue, never decoded.
    (b) Two workers, one pending task, all files readable: worker 1 has
    taken a sentinel and exited while worker 0 is still decoding the
    task, whose result is not on the stack yet. *)
Lemma stop_workers_counterexample :
  (let st := run_workers (E:=env20_unreadable) [0; 0]%nat
               (stop_workers_put (idle_pool 1 [rgb_task (E:=env20_unreadable) 13;
                                               rgb_task (E:=env20_unreadable) 14])) in
   threads st = [Crashed Cv2Error]
   ∧ stop_workers_returns st = true
   ∧ items (q st) = [rgb_task (E:=env20_unreadable) 14; Sentinel]
   ∧ b_rgb st = [])
  ∧ (let st := run_workers (E:=env20) [0; 1]%nat
                 (stop_workers_put (idle_pool 2 [rgb_task (E:=env20) 0])) in
     threads st = [Working 0 "D/RGB/Corrected FOV/0.JPG" rgb; Exited]
     ∧ b_rgb st = []).
Proof. repeat split; vm_compute; reflexivity. Qed.

(** * The rest of the tool: properties *)

(** ** The file listing *)

Lemma py_endswith_spec (suffix s : string) :
  py_endswith suffix s = true ↔ ∃ pre, s = pre +:+ suffix.
Proof.
  induction s as [|c r IH].
  - change (py_endswith suffix "")
      with (if String.eqb "" suffix then true else false).
    destruct (String.eqb_spec "" suffix) as [<-|Hne].
    + split; [by exists ""|done].
    + split; [done|]. intros [pre Hpre].
      destruct pre; simpl in Hpre; [done|discriminate].
  - change (py_endswith suffix (String c r))
      with (if String.eqb (String c r) suffix then true else py_endswith suffix r).
    destruct (String.eqb_spec (String c r) suffix) as [<-|Hne].
    + split; [by exists ""|done].
    + rewrite IH. split.
      * intros [pre ->]. by exists (String c pre).
      * intros [pre Hpre]. destruct pre as [|c' pre]; simpl in Hpre; [done|].
        injection Hpre as -> ->. by exists pre.
Qed.

Lemma py_lower_char_not_upper (c : ascii) : is_upper (py_lower_char c) = false.
Proof. destruct c as [[|] [|] [|] [|] [|] [|] [|] [|]]; reflexivity. Qed.

Lemma py_lower_no_upper (s : string) :
  PyStr.all_chars (λ c, negb (is_upper c)) (py_lower s) = true.
Proof.
  induction s as [|c r IH]; simpl; [done|].
  by rewrite py_lower_char_not_upper, IH.
Qed.

(** No lower-cased name ends in a suffix that has an upper-case letter. *)
Lemma py_lower_endswith_upper (suffix s : string) :
  PyStr.all_chars (λ c, negb (is_upper c)) suffix = false →
  py_endswith suffix (py_lower s) = false.
Proof.
  intros Hup. apply not_true_is_false. intros [pre Hpre]%py_endswith_spec.
  pose proof (py_lower_no_upper s) as Hlow.
  rewrite Hpre, all_chars_app, Hup, andb_false_r in Hlow. done.
Qed.

Lemma image_extension_spec (file : string) :
  existsb (λ e, py_endswith e (py_lower file)) image_extensions = true
  ↔ ∃ pre, py_lower file = pre +:+ ".jpg" ∨ py_lower file = pre +:+ ".jpeg"
           ∨ py_lower file = pre +:+ ".tiff".
Proof.
  unfold image_extensions. cbn [existsb].
  rewrite (py_lower_endswith_upper ".JPG"), (py_lower_endswith_upper ".TIFF") by done.
  rewrite orb_false_r, !orb_false_l, !orb_true_iff, !py_endswith_spec.
  split.
  - intros [[pre H]|[[pre H]|[pre H]]]; exists pre; auto.
  - intros [pre [H|[H|H]]]; eauto.
Qed.

(** X1. [get_image_files] keeps, in the order of the listing, exactly the
    names whose lower-cased form ends in .jpg, .jpeg or .tiff; the
    upper-case entries of the extension tuple never match. *)
Theorem get_image_files_spec (listing : list string) :
  get_image_files listing `sublist_of` listing
  ∧ ∀ file, file ∈ get_image_files listing
      ↔ file ∈ listing
        ∧ ∃ pre, py_lower file = pre +:+ ".jpg" ∨ py_lower file = pre +:+ ".jpeg"
                 ∨ py_lower file = pre +:+ ".tiff".
Proof.
  split; [apply sublist_filter|]. intros file. unfold get_image_files.
  rewrite list_elem_of_filter, Is_true_true, image_extension_spec. tauto.
Qed.

Lemma py_lower_dot (s : string) :
  PyStr.all_chars (λ c, negb (Ascii.eqb c ".")) (py_lower s)
  = PyStr.all_chars (λ c, negb (Ascii.eqb c ".")) s.
Proof.
  induction s as [|c r IH]; simpl; [done|]. rewrite IH. f_equal.
  destruct c as [[|] [|] [|] [|] [|] [|] [|] [|]]; reflexivity.
Qed.

Lemma split_no_sep (c : ascii) (s : string) :
  PyStr.all_chars (λ d, negb (Ascii.eqb d c)) s = true → PyStr.split c s = [s].
Proof.
  induction s as [|d r IH]; simpl; [done|].
  intros [Hd Hr]%andb_prop. apply negb_true_iff in Hd. by rewrite Hd, IH.
Qed.

Lemma split_nonempty (c : ascii) (s : string) : PyStr.split c s ≠ [].
Proof.
  induction s as [|d r IH]; simpl; [done|].
  destruct (Ascii.eqb d c); [done|]. by destruct (PyStr.split c r).
Qed.

(** A name with the separator in it splits into at least two parts. *)
Lemma split_with_sep (c : ascii) (s : string) :
  PyStr.all_chars (λ d, negb (Ascii.eqb d c)) s = false →
  ∃ a b rest, PyStr.split c s = a :: b :: rest.
Proof.
  induction s as [|d r IH]; simpl; [done|].
  destruct (Ascii.eqb d c) eqn:Hd; simpl.
  - intros _. pose proof (split_nonempty c r).
    destruct (PyStr.split c r) as [|b rest]; [done|]. by exists "", b, rest.
  - intros Hr. destruct (IH Hr) as (a & b & rest & ->). by exists (String d a), b, rest.
Qed.

(** X2. The names [get_image_files] returns all have a dot in them, so
    the export's [name.split(".")[1]] never raises on them. *)
Theorem listed_names_split (listing : list string) (file : string) :
  file ∈ get_image_files listing → ∃ ext, split_dot_1 file = Ok ext.
Proof.
  unfold get_image_files.
  rewrite list_elem_of_filter, Is_true_true, image_extension_spec.
  intros [(pre & Hext) _].
  assert (PyStr.all_chars (λ c, negb (Ascii.eqb c ".")) file = false) as Hdot.
  { rewrite <- py_lower_dot.
    destruct Hext as [->|[->| ->]]; rewrite all_chars_app; simpl; apply andb_false_r. }
  destruct (split_with_sep _ _ Hdot) as (a & b & rest & Hsplit).
  exists b. unfold split_dot_1, py_getitem, py_norm_index. rewrite Hsplit. simpl.
  rewrite bool_decide_eq_true_2 by lia. done.
Qed.


(** ** Labels *)

Section labeling_proofs.
Context `{E : Env} `{F : Files}.

Lemma py_norm_index_in_range {A} (l : list A) (i : Z) :
  0 ≤ i < Z.of_nat (length l) → py_norm_index l i = Ok (Z.to_nat i).
Proof. intros Hi. unfold py_norm_index. by rewrite bool_decide_eq_true_2. Qed.

Lemma py_norm_index_out {A} (l : list A) (i : Z) :
  ¬ (- Z.of_nat (length l) ≤ i < Z.of_nat (length l)) →
  py_norm_index l i = Raise IndexError.
Proof.
  intros Hi. unfold py_norm_index.
  by rewrite !bool_decide_eq_false_2 by lia.
Qed.

Lemma py_norm_index_lt {A} (l : list A) (i : Z) (k : nat) :
  py_norm_index l i = Ok k → (k < length l)%nat.
Proof.
  unfold py_norm_index. repeat case_bool_decide; intros [= <-]; lia.
Qed.

Lemma py_setitem_length {A} (l l' : list A) (i : Z) (v : A) :
  py_setitem l i v = Ok l' → length l' = length l.
Proof.
  unfold py_setitem. destruct (py_norm_index l i); simpl; [|done].
  intros [= <-]. apply length_insert.
Qed.

Lemma py_getitem_out {A} (l : list A) (i : Z) :
  ¬ (- Z.of_nat (length l) ≤ i < Z.of_nat (length l)) →
  py_getitem l i = Raise IndexError.
Proof. intros Hi. unfold py_getitem. by rewrite py_norm_index_out. Qed.

Lemma py_getitem_in {A} (l : list A) (i : Z) :
  - Z.of_nat (length l) ≤ i < Z.of_nat (length l) → ∃ x, py_getitem l i = Ok x.
Proof.
  intros Hi. unfold py_getitem.
  destruct (py_norm_index l i) as [k|] eqn:Hk.
  - pose proof (py_norm_index_lt _ _ _ Hk) as Hlt. simpl.
    destruct (lookup_lt_is_Some_2 l k Hlt) as [x ->]. by exists x.
  - unfold py_norm_index in Hk. repeat case_bool_decide; try done; lia.
Qed.

Lemma count_label_cons (l x : option label) (ls : list (option label)) :
  count_label l (x :: ls)
  = ((if decide (x = l) then 1 else 0) + count_label l ls)%nat.
Proof. unfold count_label. rewrite filter_cons. by case_decide. Qed.

Lemma count_label_total (ls : list (option label)) :
  (count_label (Some Fire) ls + count_label (Some NoFire) ls + count_label None ls
   = length ls)%nat.
Proof.
  induction ls as [|x ls IH]; [done|]. rewrite !count_label_cons. simpl.
  destruct x as [[|]|]; repeat case_decide; try done; lia.
Qed.

(** X3. A label key changes the label of the displayed pair and nothing
    else: with the viewing index inside the sequence, the entry at the
    index becomes the key's label, every other entry and the length are
    kept, and so is everything but the label vector. With the index
    outside [-len, len) the key raises [IndexError]. *)
Theorem key_labels_displayed_pair (k : key) (st : state) :
  (0 ≤ index st < Z.of_nat (length (labels st)) →
   handle_key k st
   = Ok (set_labels (<[Z.to_nat (index st) := key_label k]> (labels st)) st)
   ∧ <[Z.to_nat (index st) := key_label k]> (labels st) !! Z.to_nat (index st)
     = Some (key_label k))
  ∧ (¬ (- Z.of_nat (length (labels st)) ≤ index st < Z.of_nat (length (labels st))) →
     handle_key k st = Raise IndexError).
Proof.
  split.
  - intros Hi. unfold handle_key, py_setitem.
    rewrite py_norm_index_in_range by done. split; [done|].
    apply list_lookup_insert_eq. lia.
  - intros Hi. unfold handle_key, py_setitem. by rewrite py_norm_index_out.
Qed.

(** X4. Apply to All gives every pair the chosen label and keeps the
    number of pairs: the count of the chosen label becomes the length
    and the two other counts become zero. *)
Theorem apply_to_all_counts (choice : option label) (st : state) :
  let st' := handle_apply_to_all choice st in
  length (labels st') = length (labels st)
  ∧ Forall (λ l, l = choice) (labels st')
  ∧ count_label choice (labels st') = length (labels st)
  ∧ ∀ l, l ≠ choice → count_label l (labels st') = 0%nat.
Proof.
  simpl. induction (labels st) as [|x ls (IH1 & IH2 & IH3 & IH4)]; [done|].
  rewrite fmap_cons. split; [simpl; by rewrite IH1|].
  split; [by apply Forall_cons|]. split.
  - rewrite count_label_cons, IH3. by case_decide.
  - intros l Hl. rewrite count_label_cons, (IH4 l Hl). by case_decide.
Qed.

(** ** Temperature Based Labeling *)

(** X5. A cancelled threshold dialog, and a text [int()] rejects, leave
    every label as it was: the first ends the iteration silently, the
    second after the "must be an integer" popup. Unlike Go To, no
    exception leaves the handler. *)
Theorem temp_label_rejects_non_integer (st : state) (s : string) :
  (∀ n, PyStr.int s ≠ Ok n) →
  main_iteration (labeling_event (ev_temp_label (Some s))) st
  = Ok (st, [inr popup_threshold_not_integer])
  ∧ main_iteration (labeling_event (ev_temp_label None)) st = Ok (st, []).
Proof.
  intros Hs. unfold main_iteration, handle_any, handle_label_event, handle_temp_label.
  destruct (PyStr.int s) as [n|e] eqn:Hn; [by destruct (Hs n)|]. done.
Qed.

Lemma threshold_loop_spec (t : Z) (tiffs : list string) (done_ ls : list (option label)) :
  (length tiffs ≤ length ls)%nat →
  Forall (λ tiff, ∃ m, tiff_max (folder_path +:+ "/Thermal/Celsius TIFF/" +:+ tiff) = Ok m) tiffs →
  ∃ new,
    threshold_loop t (Z.of_nat (length done_)) tiffs (done_ ++ ls)
    = Ok (done_ ++ new ++ drop (length tiffs) ls)
    ∧ Forall2 (λ tiff l, ∃ m,
                 tiff_max (folder_path +:+ "/Thermal/Celsius TIFF/" +:+ tiff) = Ok m
                 ∧ l = Some (if reaches m t then Fire else NoFire)) tiffs new.
Proof.
  revert done_ ls. induction tiffs as [|tiff tiffs IH]; intros done_ ls Hlen Hopen.
  - exists []. split; [|constructor]. simpl. by rewrite drop_0.
  - apply Forall_cons in Hopen as [[m Hm] Hopen].
    destruct ls as [|x ls]; [simpl in Hlen; lia|]. simpl in Hlen.
    destruct (IH (done_ ++ [Some (if reaches m t then Fire else NoFire)]) ls)
      as (new & Hloop & Hnew); [lia|done|].
    exists (Some (if reaches m t then Fire else NoFire) :: new). split.
    + cbn [threshold_loop]. rewrite Hm. simpl.
      unfold py_setitem. rewrite py_norm_index_in_range
        by (rewrite length_app; simpl; lia).
      simpl. rewrite Nat2Z.id.
      replace (<[length done_ := Some (if reaches m t then Fire else NoFire)]> (done_ ++ x :: ls))
        with ((done_ ++ [Some (if reaches m t then Fire else NoFire)]) ++ ls).
      2:{ rewrite insert_app_r_alt by lia. rewrite Nat.sub_diag. simpl.
          by rewrite <- app_assoc. }
      replace (Z.of_nat (length done_) + 1)
        with (Z.of_nat (length (done_ ++ [Some (if reaches m t then Fire else NoFire)])))
        by (rewrite length_app; simpl; lia).
      rewrite Hloop. by rewrite <- app_assoc.
    + constructor; [by exists m|done].
Qed.

(** X6. Temperature Based Labeling with an integer threshold, as many
    TIFF files as pairs, and every TIFF readable: afterwards no pair is
    unlabeled; pair [i] is Fire exactly when the maximum of TIFF [i]
    reaches the threshold, No Fire otherwise; and the totals of the popup
    are those labels' counts, with zero unlabeled. *)
Theorem temp_label_labels_every_pair (st : state) (s : string) (t : Z) :
  PyStr.int s = Ok t →
  length tiff_image_files = length (labels st) →
  Forall (λ tiff, ∃ m, tiff_max (folder_path +:+ "/Thermal/Celsius TIFF/" +:+ tiff) = Ok m)
    tiff_image_files →
  ∃ ls,
    handle_temp_label (Some s) st
    = Ok (set_labels ls st,
          [popup_threshold_done t (count_label (Some Fire) ls)
             (count_label (Some NoFire) ls) 0], false)
    ∧ Forall2 (λ tiff l, ∃ m,
                 tiff_max (folder_path +:+ "/Thermal/Celsius TIFF/" +:+ tiff) = Ok m
                 ∧ l = Some (if reaches m t then Fire else NoFire))
        tiff_image_files ls
    ∧ (count_label (Some Fire) ls + count_label (Some NoFire) ls
       = length (labels st))%nat.
Proof.
  intros Hint Hlen Hopen.
  destruct (threshold_loop_spec t tiff_image_files [] (labels st)) as (new & Hloop & Hnew);
    [lia|done|].
  change (Z.of_nat (length [])) with 0 in Hloop. simpl in Hloop.
  rewrite Hlen, drop_all, app_nil_r in Hloop.
  assert (count_label None new = 0%nat) as Hnone.
  { clear -Hnew. induction Hnew as [|tiff l tiffs ls (m & _ & ->) _ IH]; [done|].
    rewrite count_label_cons, IH. by case_decide. }
  exists new. split; [|split; [done|]].
  - unfold handle_temp_label. rewrite Hint, Hloop. simpl. by rewrite Hnone.
  - pose proof (count_label_total new) as Hsum. rewrite Hnone in Hsum.
    rewrite <- Hlen, (Forall2_length _ _ _ Hnew). lia.
Qed.

End labeling_proofs.


(** ** Export: the new names *)

Lemma drop_trailing_no_space (s : string) :
  PyStr.all_chars (λ c, negb (PyStr.is_space c)) s = true → PyStr.drop_trailing_spaces s = s.
Proof.
  induction s as [|c r IH]; simpl; [done|].
  intros [Hc Hr]%andb_prop. rewrite IH by done.
  apply negb_true_iff in Hc. by rewrite Hc.
Qed.

Lemma trim_digits (s : string) :
  PyStr.all_chars PyStr.is_digit s = true → PyStr.trim s = s.
Proof.
  intros Hd. unfold PyStr.trim. destruct s as [|c r]; [done|].
  assert (PyStr.skip_spaces (String c r) = String c r) as ->.
  { simpl in *. apply andb_prop in Hd as [Hc _].
    by destruct (is_digit_inv c Hc) as (-> & _). }
  apply drop_trailing_no_space. revert Hd. apply all_chars_impl.
  intros c' Hc. by destruct (is_digit_inv c' Hc) as (-> & _).
Qed.

Lemma py_zeros_cons (k : nat) :
  py_zeros (Z.of_nat (S k)) = String "0" (py_zeros (Z.of_nat k)).
Proof. unfold py_zeros. by rewrite !Nat2Z.id. Qed.

Lemma py_zeros_of_nat (k : Z) : py_zeros k = py_zeros (Z.of_nat (Z.to_nat k)).
Proof. unfold py_zeros. by rewrite Nat2Z.id. Qed.

Lemma zeros_string_of_uint (k : nat) (d : Decimal.uint) :
  py_zeros (Z.of_nat k) +:+ NilEmpty.string_of_uint d
  = NilEmpty.string_of_uint (Nat.iter k Decimal.D0 d).
Proof.
  induction k as [|k IH]; [done|].
  rewrite py_zeros_cons. simpl. by rewrite IH.
Qed.

Lemma of_uint_leading_zeros (k : nat) (d : Decimal.uint) :
  Z.of_uint (Nat.iter k Decimal.D0 d) = Z.of_uint d.
Proof. induction k as [|k IH]; [done|]. simpl. exact IH. Qed.

(** The decimal digits of a number that is not negative. *)
Lemma str_nonneg (n : Z) :
  0 ≤ n → ∃ d, PyStr.str n = NilEmpty.string_of_uint d ∧ Z.of_uint d = n ∧ d ≠ Decimal.Nil.
Proof.
  intros Hn. destruct n as [|p|p]; [| |lia].
  - by exists (Decimal.D0 Decimal.Nil).
  - exists (Pos.to_uint p). split; [done|]. split.
    + unfold Z.of_uint. by rewrite Unsigned.of_to.
    + apply Unsigned.to_uint_nonnil.
Qed.

Lemma zero_pad_digits (n : Z) :
  0 ≤ n → ∃ d, zero_pad n = NilEmpty.string_of_uint d ∧ Z.of_uint d = n ∧ d ≠ Decimal.Nil.
Proof.
  intros Hn. destruct (str_nonneg n Hn) as (d & Hstr & Hd & Hnil).
  unfold zero_pad. rewrite py_zeros_of_nat, Hstr, zeros_string_of_uint.
  eexists. split; [done|]. rewrite of_uint_leading_zeros. split; [done|].
  destruct (Z.to_nat _); [done|]. simpl. done.
Qed.

(** [int(zero_pad(n))] is [n]: the padding does not change the number. *)
Lemma int_zero_pad `{Unicode} (n : Z) : 0 ≤ n → PyStr.int (zero_pad n) = Ok n.
Proof.
  intros Hn. destruct (zero_pad_digits n Hn) as (d & -> & Hd & Hnil).
  pose proof (digits_string_of_uint d) as Hdig.
  rewrite int_on_ascii by by apply digits_ascii.
  unfold PyStr.int_ascii. rewrite trim_digits by done.
  assert (PyStr.int_unsigned (NilEmpty.string_of_uint d) = Ok n) as Hu.
  { unfold PyStr.int_unsigned.
    rewrite drop_underscores_digits, NilEmpty.usu, Hd by done.
    assert (PyStr.digits_ok false (NilEmpty.string_of_uint d) = true) as ->; [|done].
    destruct d; [done|..]; simpl in *; by apply digits_ok_digits. }
  destruct (NilEmpty.string_of_uint d) as [|c r] eqn:Hs; [by destruct d|].
  simpl in Hdig. apply andb_prop in Hdig as [Hc _].
  by destruct (is_digit_inv c Hc) as (_ & _ & -> & -> & _).
Qed.

Lemma zero_pad_no_dot (n : Z) :
  0 ≤ n → PyStr.all_chars (λ c, negb (Ascii.eqb c ".")) (zero_pad n) = true.
Proof.
  intros Hn. destruct (zero_pad_digits n Hn) as (d & -> & _).
  eapply all_chars_impl; [|apply digits_string_of_uint].
  intros c. by destruct c as [[|] [|] [|] [|] [|] [|] [|] [|]].
Qed.

Lemma before_dot_app (a b : string) :
  PyStr.all_chars (λ c, negb (Ascii.eqb c ".")) a = true →
  PyStr.before_dot (a +:+ String "." b) = a.
Proof.
  induction a as [|c r IH]; simpl; [done|].
  intros [Hc Hr]%andb_prop. apply negb_true_iff in Hc. by rewrite Hc, IH.
Qed.

Lemma split_app_sep (c : ascii) (a r : string) :
  PyStr.all_chars (λ d, negb (Ascii.eqb d c)) a = true →
  PyStr.split c (a +:+ String c r) = a :: PyStr.split c r.
Proof.
  induction a as [|d a IH]; simpl.
  - intros _. by rewrite Ascii.eqb_refl.
  - intros [Hd Ha]%andb_prop. apply negb_true_iff in Hd. by rewrite Hd, IH.
Qed.

Lemma string_length_zeros (k : nat) : String.length (py_zeros (Z.of_nat k)) = k.
Proof.
  induction k as [|k IH]; [done|]. rewrite py_zeros_cons. simpl. by rewrite IH.
Qed.

Section export_proofs.
Context `{E : Env} `{F : Files}.

(** X7. The renumbered base name: at least five characters, exactly
    the number's digits behind as many zeros as are needed to make five
    (none for 100000 and more); read back by [int()] it is the number, so
    two different counts never give the same base name. *)
Theorem zero_pad_spec (n m : Z) :
  0 ≤ n → 0 ≤ m →
  py_len (zero_pad n) = Z.max OUTPUT_FILENAME_DIGITS (py_len (PyStr.str n))
  ∧ PyStr.int (zero_pad n) = Ok n
  ∧ (zero_pad n = zero_pad m → n = m).
Proof.
  intros Hn Hm. split; [|split].
  - unfold zero_pad, py_len. rewrite py_zeros_of_nat, length_append, string_length_zeros.
    unfold OUTPUT_FILENAME_DIGITS. lia.
  - by apply int_zero_pad.
  - intros Heq. pose proof (int_zero_pad n Hn) as H1.
    rewrite Heq, int_zero_pad in H1 by done. congruence.
Qed.

(** X8. The suffix of a renumbered name is the text between the first
    and the second dot of the old name: a name with one dot keeps its
    extension, a name with more dots loses everything from the second
    dot on, and a name without a dot raises [IndexError]. *)
Theorem renumbered_suffix (count : Z) (base mid rest : string) :
  PyStr.all_chars (λ c, negb (Ascii.eqb c ".")) base = true →
  PyStr.all_chars (λ c, negb (Ascii.eqb c ".")) mid = true →
  renumbered count (base +:+ "." +:+ mid)
  = Ok (zero_pad (count + 1) +:+ "." +:+ mid)
  ∧ renumbered count (base +:+ "." +:+ mid +:+ "." +:+ rest)
    = Ok (zero_pad (count + 1) +:+ "." +:+ mid)
  ∧ renumbered count base = Raise IndexError.
Proof.
  intros Hbase Hmid. unfold renumbered, split_dot_1, py_getitem, py_norm_index.
  split; [|split].
  - change (base +:+ "." +:+ mid) with (base +:+ String "." mid).
    rewrite split_app_sep, split_no_sep by done. done.
  - change (base +:+ "." +:+ mid +:+ "." +:+ rest)
      with (base +:+ String "." (mid +:+ String "." rest)).
    rewrite !split_app_sep by done. simpl.
    pose proof (split_nonempty "." rest).
    destruct (PyStr.split "." rest) as [|x xs]; [done|].
    rewrite bool_decide_eq_true_2 by (simpl; lia). done.
  - rewrite split_no_sep by done. simpl. done.
Qed.

(** X9. Two pairs of the same class never get the same new name: the
    name [renumbered] builds determines the count it was built from. *)
Theorem renumbered_injective (c1 c2 : Z) (name1 name2 new : string) :
  0 ≤ c1 → 0 ≤ c2 →
  renumbered c1 name1 = Ok new → renumbered c2 name2 = Ok new → c1 = c2.
Proof.
  intros H1 H2. unfold renumbered.
  destruct (split_dot_1 name1) as [e1|]; simpl; [|done].
  destruct (split_dot_1 name2) as [e2|]; simpl; [|done].
  intros [= <-] [= Heq].
  apply (f_equal PyStr.before_dot) in Heq.
  rewrite !before_dot_app in Heq by (apply zero_pad_no_dot; lia).
  pose proof (int_zero_pad (c1 + 1) ltac:(lia)) as Hi.
  rewrite <- Heq, int_zero_pad in Hi by lia. injection Hi. lia.
Qed.


(** ** Export: the loop *)






End export_proofs.


(** ** The drain loop *)

Lemma py_remove_present `{EqDecision A} (P : A → Prop) (x : A) (l : list A) :
  x ∈ l →
  ∃ l', py_remove x l = Ok l' ∧ length l = S (length l') ∧ (Forall P l → Forall P l').
Proof.
  induction l as [|y l IH]; [by intros ?%elem_of_nil|].
  intros Hin. simpl. case_decide as Hy.
  - exists l. split; [done|]. split; [done|]. by intros [_ ?]%Forall_cons.
  - apply elem_of_cons in Hin as [->|Hin]; [done|].
    destruct (IH Hin) as (l' & -> & Hlen & HP). exists (y :: l'). simpl.
    split; [done|]. split; [by rewrite Hlen|].
    intros [? ?]%Forall_cons. apply Forall_cons. auto.
Qed.

Lemma py_setitem_in_range {A} (l : list A) (i : Z) (v : A) :
  0 ≤ i < Z.of_nat (length l) → py_setitem l i v = Ok (<[Z.to_nat i := v]> l).
Proof. intros Hi. unfold py_setitem. by rewrite py_norm_index_in_range. Qed.

Section cache_proofs.
Context `{E : Env}.

Lemma halved (pos n : nat) :
  (pos < n)%nat →
  (if decide (n - 1 ≤ pos + 1)%nat then (n - 1)%nat
   else (pos + 1 + (n - 1 - (pos + 1)) / 2)%nat)
  = (pos + (n - pos) / 2)%nat.
Proof.
  intros Hlt. case_decide as Hc.
  - assert (n - pos = 1 ∨ n - pos = 2)%nat as [Hd|Hd] by lia; rewrite Hd.
    + change (1 / 2)%nat with 0%nat. lia.
    + change (2 / 2)%nat with 1%nat. lia.
  - replace (n - pos)%nat with (2 + (n - 1 - (pos + 1)))%nat by lia.
    change 2%nat with (1 * 2)%nat at 2. rewrite Nat.div_add_l by done. lia.
Qed.

(** One run of the drain loop from position [pos]: with every pending
    position inside the cache it does not raise, leaves the cache as long
    as it was, and stops with the entries it skipped still pending. *)
Lemma drain_loop_spec {A} `{EqDecision A} (fuel pos : nat) (idx : Z)
    (b : list (Z * A)) (loaded : list (option A)) :
  (length b - pos ≤ fuel)%nat →
  Forall (λ p, 0 ≤ p.1 < Z.of_nat (length loaded)) b →
  ∃ b' loaded',
    drain_loop fuel pos idx b loaded = Ok (b', loaded')
    ∧ length b' = (if decide (length b ≤ pos)%nat then length b
                   else (pos + (length b - pos) / 2)%nat)
    ∧ length loaded' = length loaded
    ∧ Forall (λ p, 0 ≤ p.1 < Z.of_nat (length loaded)) b'.
Proof.
  revert pos b loaded. induction fuel as [|fuel IH]; intros pos b loaded Hfuel Hb.
  - exists b, loaded. simpl. rewrite decide_True by lia. done.
  - simpl. destruct (b !! pos) as [[id v]|] eqn:Hpos.
    + pose proof (lookup_lt_Some _ _ _ Hpos) as Hlt.
      pose proof (Forall_lookup_1 _ _ _ _ Hb Hpos) as Hid. simpl in Hid.
      rewrite py_setitem_in_range by done. simpl.
      destruct (py_remove_present (λ p, 0 ≤ p.1 < Z.of_nat (length loaded)) (id, v) b)
        as (b1 & -> & Hlen1 & Hb1); [by eapply list_elem_of_lookup_2|]. simpl.
      destruct (IH (S pos) b1 (<[Z.to_nat id := slot_value idx id v]> loaded))
        as (b' & loaded' & -> & Hlen' & Hll & Hb').
      { lia. }
      { rewrite length_insert. auto. }
      rewrite length_insert in Hll, Hb'.
      exists b', loaded'. split; [done|]. split; [|done].
      rewrite Hlen', (decide_False (P := (length b ≤ pos)%nat)) by lia.
      replace (length b1) with (length b - 1)%nat by lia.
      replace (S pos) with (pos + 1)%nat by lia. by apply halved.
    + apply lookup_ge_None in Hpos. exists b, loaded.
      rewrite decide_True by lia. done.
Qed.

Lemma drain_spec {A} `{EqDecision A} (idx : Z) (b : list (Z * A))
    (loaded : list (option A)) :
  Forall (λ p, 0 ≤ p.1 < Z.of_nat (length loaded)) b →
  ∃ b' loaded',
    drain idx b loaded = Ok (b', loaded')
    ∧ length b' = (length b / 2)%nat
    ∧ length loaded' = length loaded
    ∧ Forall (λ p, 0 ≤ p.1 < Z.of_nat (length loaded)) b'.
Proof.
  intros Hb. destruct (drain_loop_spec (length b) 0 idx b loaded) as
    (b' & loaded' & Hd & Hlen & Hl & Hb'); [lia|done|].
  exists b', loaded'. split; [done|]. split; [|done].
  rewrite Hlen. case_decide as Hc.
  - assert (length b = 0%nat) as -> by lia. done.
  - by rewrite Nat.sub_0_r.
Qed.


(** ** What every step keeps *)

Lemma drain_stacks_spec (st : state) :
  well_formed st → stacks_in_range st →
  ∃ st', drain_stacks st = Ok st'
    ∧ length (b_rgb st') = (length (b_rgb st) / 2)%nat
    ∧ length (b_ir st') = (length (b_ir st) / 2)%nat
    ∧ length (b_tiff st') = (length (b_tiff st) / 2)%nat
    ∧ well_formed st' ∧ stacks_in_range st'
    ∧ index st' = index st ∧ labels st' = labels st
    ∧ q st' = q st ∧ threads st' = threads st.
Proof.
  intros (Hl & Hr & Hi & Ht) (Sr & Si & St). unfold num_images in *.
  rewrite <- Hr in Sr. rewrite <- Hi in Si. rewrite <- Ht in St.
  destruct (drain_spec (index st) _ _ Sr) as (b1 & l1 & Hd1 & Hb1 & Hl1 & Sr').
  destruct (drain_spec (index st) _ _ Si) as (b2 & l2 & Hd2 & Hb2 & Hl2 & Si').
  destruct (drain_spec (index st) _ _ St) as (b3 & l3 & Hd3 & Hb3 & Hl3 & St').
  rewrite Hr in Sr'. rewrite Hi in Si'. rewrite Ht in St'.
  unfold drain_stacks. rewrite Hd1, Hd2, Hd3. eexists. split; [reflexivity|].
  unfold well_formed, stacks_in_range, num_images. simpl.
  repeat split; try done; congruence.
Qed.

Lemma reconcile_spec (st : state) :
  well_formed st → stacks_in_range st →
  ∃ st', reconcile st = Ok st'
    ∧ length (b_rgb st') = (length (b_rgb st) / 2)%nat
    ∧ length (b_ir st') = (length (b_ir st) / 2)%nat
    ∧ length (b_tiff st') = (length (b_tiff st) / 2)%nat
    ∧ well_formed st' ∧ stacks_in_range st'
    ∧ index st' = index st ∧ labels st' = labels st
    ∧ q st' = q st ∧ threads st' = threads st.
Proof.
  intros Hw Hs.
  destruct (drain_stacks_spec st Hw Hs)
    as (st1 & Hd & H1 & H2 & H3 & (Hl & Hr & Hi & Ht) & Hs1 & Hix & Hlab & Hq & Hth).
  unfold reconcile. rewrite Hd. eexists. split; [reflexivity|].
  unfold well_formed, stacks_in_range, clear_outside_radius in *. simpl.
  rewrite !length_evict. done.
Qed.

Lemma task_targets_in_range (t : Z) :
  0 ≤ t mod num_images < num_images.
Proof. apply Z.mod_pos_bound, num_images_pos. Qed.

Lemma window_tasks_in_range (idx : Z) :
  Forall (λ t, match target t with
               | Some id => 0 ≤ id < num_images
               | None => True
               end) (window_tasks idx).
Proof.
  unfold window_tasks. induction window_offsets as [|i l IH]; [constructor|].
  rewrite bind_cons. repeat (apply Forall_cons; split; [apply task_targets_in_range|]).
  exact IH.
Qed.

Lemma starting_images_in_range (idx : Z) :
  Forall (λ t, match target t with
               | Some id => 0 ≤ id < num_images
               | None => True
               end) (starting_images idx).
Proof.
  unfold starting_images. induction window_offsets as [|i l IH]; [constructor|].
  rewrite bind_cons. repeat (apply Forall_cons; split; [apply task_targets_in_range|]).
  exact IH.
Qed.

Lemma create_queue_sound (ts : list task) (st : state) :
  Forall (λ t, match target t with
               | Some id => 0 ≤ id < num_images
               | None => True
               end) ts →
  sound st → sound (create_queue ts st).
Proof.
  intros Hts (Hw & Hs & Ht).
  destruct (create_queue_frame ts st) as (Hi & Hl & Hr & Hir & Htf & Hbr & Hbi & Hbt & Hth).
  unfold sound, well_formed, stacks_in_range, tasks_in_range, in_flight in *.
  rewrite Hl, Hr, Hir, Htf, Hbr, Hbi, Hbt, Hth, items_create_queue.
  split; [done|]. split; [done|]. rewrite app_assoc. by apply Forall_app.
Qed.

Lemma clear_outside_radius_sound (st : state) :
  sound st → sound (clear_outside_radius st).
Proof.
  intros ((Hl & Hr & Hi & Ht) & Hs & Hq).
  unfold sound, well_formed, stacks_in_range, tasks_in_range, in_flight,
    clear_outside_radius in *. simpl. rewrite !length_evict. done.
Qed.

Lemma set_index_sound (v : Z) (st : state) : sound st → sound (set_index v st).
Proof. done. Qed.

Lemma set_labels_sound (ls : list (option label)) (st : state) :
  length ls = length (labels st) → sound st → sound (set_labels ls st).
Proof.
  intros Hlen ((Hl & Hr & Hi & Ht) & Hs & Hq). unfold sound, well_formed in *.
  simpl. rewrite Hlen. done.
Qed.

Lemma handle_sound (ev : event) (st st1 : state) (out : list output) (c : bool) :
  sound st → handle ev st = Ok (st1, out, c) → sound st1.
Proof.
  intros Hs. destruct ev as [| | |confirm|f|x]; simpl.
  - by intros [= <- _ _].
  - intros [= <- _ _]. unfold handle_left.
    apply (create_queue_sound [_; _]); [|by apply set_index_sound].
    repeat (apply Forall_cons; split; [apply task_targets_in_range|]). constructor.
  - intros [= <- _ _]. unfold handle_right.
    apply (create_queue_sound [_; _]); [|by apply set_index_sound].
    repeat (apply Forall_cons; split; [apply task_targets_in_range|]). constructor.
  - unfold handle_save_state. destruct confirm; by intros [= <- _ _].
  - unfold handle_load_state. destruct f as [text|]; [|by intros [= <- _ _]].
    destruct (PyStr.readline text) as [line1 rest1].
    destruct (PyStr.int line1) as [n|]; simpl; [|done].
    case_bool_decide; [by intros [= <- _ _]|].
    destruct (PyStr.readline rest1) as [line2 rest2].
    destruct (PyStr.int line2) as [idx|]; simpl; [|done].
    destruct (PyStr.readline rest2) as [line3 rest3].
    destruct (parse_labels _) as [parsed pops].
    case_bool_decide as Hlen; [by intros [= <- _ _]|].
    intros [= <- _ _]. unfold refill_window.
    apply create_queue_sound; [apply window_tasks_in_range|].
    apply clear_outside_radius_sound, set_labels_sound; [|done].
    simpl in Hlen. by destruct (decide (length parsed = length (labels st))).
  - unfold handle_goto. destruct (PyStr.int_of_dialog x) as [n|]; simpl; [|done].
    destruct (negb _); [by intros [= <- _ _]|].
    intros [= <- _ _]. unfold refill_window.
    apply create_queue_sound; [apply window_tasks_in_range|].
    by apply clear_outside_radius_sound.
Qed.

End cache_proofs.


Section invariant_proofs.
Context `{E : Env} `{F : Files}.

Lemma threshold_loop_length (t ix : Z) (tiffs : list string) (ls ls' : list (option label)) :
  threshold_loop t ix tiffs ls = Ok ls' → length ls' = length ls.
Proof.
  revert ix ls. induction tiffs as [|tiff tiffs IH]; intros ix ls; simpl.
  - by intros [= <-].
  - destruct (tiff_max _) as [m|]; simpl; [|done].
    destruct (py_setitem ls ix _) as [ls1|] eqn:Hset; simpl; [|done].
    intros Hloop. rewrite (IH _ _ Hloop). by eapply py_setitem_length.
Qed.

Lemma handle_label_event_frame (ev : label_event) (st st1 : state)
    (out : list label_output) (c : bool) :
  handle_label_event ev st = Ok (st1, out, c) →
  ∃ ls, st1 = set_labels ls st ∧ length ls = length (labels st).
Proof.
  destruct ev as [k|choice|x|r e]; simpl.
  - unfold handle_key. destruct (py_setitem _ _ _) as [ls|] eqn:Hset; simpl; [|done].
    intros [= <- _ _]. exists ls. split; [done|]. by eapply py_setitem_length.
  - intros [= <- _ _]. eexists. split; [reflexivity|]. apply length_fmap.
  - unfold handle_temp_label. destruct x as [s|].
    + destruct (PyStr.int s) as [t|].
      * destruct (threshold_loop _ _ _ _) as [ls|] eqn:Hloop; simpl; [|done].
        intros [= <- _ _]. exists ls. split; [done|]. by eapply threshold_loop_length.
      * intros [= <- _ _]. exists (labels st). by destruct st.
    + intros [= <- _ _]. exists (labels st). by destruct st.
  - unfold handle_export. destruct r as [r|].
    + destruct (negb e).
      * intros [= <- _ _]. exists (labels st). by destruct st.
      * destruct (export_loop _ _ _ _ _) as [[[[o f] nf] ul]|]; simpl; [|done].
        intros [= <- _ _]. exists (labels st). by destruct st.
    + intros [= <- _ _]. exists (labels st). by destruct st.
Qed.

Lemma handle_any_sound (ev : any_event) (st st1 : state)
    (out : list (output + label_output)) (c : bool) :
  sound st → handle_any ev st = Ok (st1, out, c) → sound st1.
Proof.
  intros Hs. destruct ev as [ev|ev]; simpl.
  - destruct (handle ev st) as [[[s o] c']|] eqn:Hh; [|done].
    intros [= <- _ _]. by eapply handle_sound.
  - destruct (handle_label_event ev st) as [[[s o] c']|] eqn:Hh; [|done].
    intros [= <- _ _].
    destruct (handle_label_event_frame _ _ _ _ _ Hh) as (ls & -> & Hlen).
    by apply set_labels_sound.
Qed.

Lemma main_iteration_cases (ev : any_event) (st st' : state)
    (out : list (output + label_output)) :
  main_iteration ev st = Ok (st', out) →
  ∃ st1 c, handle_any ev st = Ok (st1, out, c)
    ∧ (if c then st' = st1 else reconcile st1 = Ok st').
Proof.
  unfold main_iteration.
  destruct (handle_any ev st) as [[[st1 o] c]|]; simpl; [|done].
  destruct c.
  - intros [= <- <-]. by exists st1, true.
  - destruct (reconcile st1) as [st2|] eqn:Hrec; simpl; [|done].
    destruct (display st2); simpl; [|done].
    intros [= <- <-]. by exists st1, false.
Qed.

Lemma reconcile_sound (st st' : state) :
  sound st → reconcile st = Ok st' → sound st'.
Proof.
  intros (Hw & Hs & Ht) Hrec.
  destruct (reconcile_spec st Hw Hs) as
    (st2 & Hrec2 & _ & _ & _ & Hw2 & Hs2 & _ & _ & Hq & Hth).
  rewrite Hrec in Hrec2. injection Hrec2 as <-.
  split; [done|]. split; [done|].
  unfold tasks_in_range, in_flight in *. by rewrite Hq, Hth.
Qed.

Lemma worker_step_sound (w : nat) (st st' : state) :
  sound st → worker_step w st = Some st' → sound st'.
Proof.
  intros (Hw & (Sr & Si & St) & Ht) Hstep.
  unfold tasks_in_range, in_flight in Ht. apply Forall_app in Ht as [Hth Hq].
  destruct (worker_step_cases _ _ _ Hstep)
    as [(t & rest & Hlook & Hitems & ->)|(id & path & k & Hlook & ->)];
    destruct (insert_split _ _ _ Hlook) as (l1 & l2 & Hsplit & Hins).
  - split; [done|]. split; [done|].
    unfold tasks_in_range, in_flight. simpl. rewrite Hins.
    rewrite Hsplit, holding_split in Hth. rewrite Hitems in Hq.
    apply Forall_app in Hth as [H1 [_ H2]%Forall_app].
    apply Forall_cons in Hq as [Htt Hrest].
    rewrite holding_split, !Forall_app. repeat split; try done.
    destruct t; simpl; [by apply Forall_singleton|constructor].
  - rewrite Hsplit, holding_split in Hth.
    apply Forall_app in Hth as [H1 [Hcur H2]%Forall_app].
    apply Forall_cons in Hcur as [Hcur _]. simpl in Hcur.
    assert (∀ x, holding x = [] →
            Forall (λ t, match target t with
                         | Some id => 0 ≤ id < num_images
                         | None => True
                         end) ((<[w:=x]> (threads st) ≫= holding) ++ items (q st))) as Hfl.
    { intros x Hx. rewrite Hins, holding_split, Hx, !Forall_app.
      repeat split; try done. }
    unfold img_loader_work.
    destruct k;
      [destruct (load_image path)|destruct (load_image path)
      |destruct (get_temp_stats_from_tiff path)];
      (split; [done|]); unfold stacks_in_range, tasks_in_range, in_flight; simpl;
      (split; [|by apply Hfl]); repeat split; try done;
      apply Forall_app; (split; [done|]); by apply Forall_singleton.
Qed.

Lemma preload_sound : sound preload.
Proof.
  unfold preload. apply create_queue_sound; [apply starting_images_in_range|].
  unfold sound, well_formed, stacks_in_range, tasks_in_range, in_flight. simpl.
  rewrite !length_replicate. repeat split; try done; try constructor.
Qed.

(** X11. The preload sets up, and every loop iteration (for any event)
    and every worker step keeps: the label vector and the three caches
    as long as the file list, and every position carried by a pending
    result, a queued task or a task being decoded inside the sequence. *)
Theorem sound_invariant :
  sound preload
  ∧ (∀ ev st st' out, sound st → main_iteration ev st = Ok (st', out) → sound st')
  ∧ (∀ w st st', sound st → worker_step w st = Some st' → sound st').
Proof.
  split; [apply preload_sound|]. split.
  - intros ev st st' out Hs Hit.
    destruct (main_iteration_cases _ _ _ _ Hit) as (st1 & c & Hh & Hc).
    pose proof (handle_any_sound _ _ _ _ _ Hs Hh) as Hs1.
    destruct c; [by subst|]. by eapply reconcile_sound.
  - intros w st st'. apply worker_step_sound.
Qed.


Lemma display_ok (st : state) :
  well_formed st →
  - num_images ≤ index st < num_images →
  display st = Ok ().
Proof.
  intros (Hl & Hr & Hi & Ht) Hix. unfold display, num_images in *.
  destruct (py_getitem_in (labels st) (index st)) as [? ->]; [rewrite Hl; lia|].
  destruct (py_getitem_in (loaded_rgb_images st) (index st)) as [? ->]; [rewrite Hr; lia|].
  destruct (py_getitem_in (loaded_ir_images st) (index st)) as [? ->]; [rewrite Hi; lia|].
  destruct (py_getitem_in (loaded_tiff_vals st) (index st)) as [? ->]; [rewrite Ht; lia|].
  destruct (py_getitem_in rgb_image_files (index st)) as [? ->]; [lia|]. done.
Qed.

(** X13. The timer tick never fails: on a sound state whose viewing
    index the subscripts accept, an iteration without an event returns,
    shows nothing, and leaves the index, the labels and the queue as
    they were. *)
Theorem tick_never_raises (st : state) :
  sound st →
  - num_images ≤ index st < num_images →
  ∃ st', loop_iteration ev_timeout st = Ok (st', [])
    ∧ index st' = index st ∧ labels st' = labels st ∧ q st' = q st.
Proof.
  intros (Hw & Hs & _) Hix.
  destruct (reconcile_spec st Hw Hs)
    as (st' & Hrec & _ & _ & _ & Hw' & _ & Hi & Hl & Hq & _).
  exists st'. unfold loop_iteration. simpl. rewrite Hrec. simpl.
  rewrite display_ok by (done || by rewrite Hi). done.
Qed.

(** X14. Apart from Load State, no event takes the viewing index out
    of the sequence: an iteration that starts with the index in
    [0, N) ends with it in [0, N). *)
Theorem index_stays_in_range (ev : any_event) (st st' : state)
    (out : list (output + label_output)) :
  (∀ f, ev ≠ cache_event (ev_load_state f)) →
  index_in_range st →
  main_iteration ev st = Ok (st', out) →
  index_in_range st'.
Proof.
  intros Hev Hix Hit.
  destruct (main_iteration_cases _ _ _ _ Hit) as (st1 & c & Hh & Hc).
  assert (index_in_range st1) as Hix1.
  { unfold index_in_range in *. destruct ev as [ev|ev]; simpl in Hh.
    - destruct (handle ev st) as [[[s o] c']|] eqn:Hhandle; [|done].
      injection Hh as <- _ _.
      destruct ev as [| | |confirm|f|x]; simpl in Hhandle.
      + by injection Hhandle as <- _ _.
      + injection Hhandle as <- _ _. apply task_targets_in_range.
      + injection Hhandle as <- _ _. apply task_targets_in_range.
      + unfold handle_save_state in Hhandle. destruct confirm; by injection Hhandle as <- _ _.
      + by destruct (Hev f).
      + unfold handle_goto in Hhandle.
        destruct (PyStr.int_of_dialog x) as [n|]; simpl in Hhandle; [|done].
        destruct (bool_decide (n > 0)) eqn:H1; destruct (bool_decide (n < num_images + 1)) eqn:H2;
          simpl in Hhandle; injection Hhandle as <- _ _; try done.
        apply bool_decide_eq_true in H1, H2.
        destruct (refill_window_spec (set_index (n - 1) st)) as (-> & _). simpl. lia.
    - destruct (handle_label_event ev st) as [[[s o] c']|] eqn:Hhandle; [|done].
      injection Hh as <- _ _.
      by destruct (handle_label_event_frame _ _ _ _ _ Hhandle) as (ls & -> & _). }
  destruct c; [by subst|].
  destruct (reconcile_frame _ _ Hc) as (Hi & _). unfold index_in_range. by rewrite Hi.
Qed.

End invariant_proofs.


(** ** Load State on a file from another session *)

Section load_proofs.
Context `{E : Env}.

(** X15. Load State takes over a state saved in another session on the
    same folder, whatever the current index, labels and caches are: the
    viewing index and the labels become the saved ones, the visual and
    thermal caches are cleared outside the radius of the saved index, and
    the tasks of a full window around it are queued. *)
Theorem load_state_installs_saved (st0 st : state) :
  length (labels st0) = length rgb_image_files →
  length (labels st) = length rgb_image_files →
  ∃ st', handle_load_state (Some (save_state_text st0)) st
         = Ok (st', [popup_loaded_state], false)
    ∧ index st' = index st0
    ∧ labels st' = labels st0
    ∧ within_radius (index st0) (loaded_rgb_images st')
    ∧ within_radius (index st0) (loaded_ir_images st')
    ∧ items (q st') = items (q st) ++ window_tasks (index st0).
Proof.
  intros H0 H1. eexists. split.
  - apply load_saved_text; [congruence|].
    pose proof rgb_image_files_nonempty. intros Hnil. rewrite Hnil in H0.
    by destruct rgb_image_files.
  - destruct (refill_window_spec (set_labels (labels st0) (set_index (index st0) st)))
      as (-> & -> & -> & -> & _ & ->). simpl.
    repeat split; apply evict_within_radius.
Qed.

(** X16. Load State does not check the index it reads: a file whose
    labels are accepted and whose index is outside [-N, N) is loaded, and
    the same iteration then raises [IndexError] when the display
    subscripts the labels with it. *)
Theorem load_state_bad_index_raises (st0 st : state) :
  length (labels st0) = length rgb_image_files →
  sound st →
  ¬ (- num_images ≤ index st0 < num_images) →
  loop_iteration (ev_load_state (Some (save_state_text st0))) st = Raise IndexError.
Proof.
  intros H0 Hs Hbad.
  assert (length (labels st0) = length (labels st)) as Hlen.
  { destruct Hs as ((Hl & _) & _). congruence. }
  assert (labels st0 ≠ []) as Hne.
  { pose proof rgb_image_files_nonempty. intros Hnil. rewrite Hnil in H0.
    by destruct rgb_image_files. }
  pose proof (load_saved_text st0 st Hlen Hne) as Hload.
  assert (sound (refill_window (set_labels (labels st0) (set_index (index st0) st))))
    as (Hw & Hst & _).
  { eapply (handle_sound (ev_load_state _)); [exact Hs|]. exact Hload. }
  destruct (reconcile_spec _ Hw Hst)
    as (st' & Hrec & _ & _ & _ & _ & _ & Hi & Hl & _).
  unfold loop_iteration, handle. rewrite Hload. simpl. rewrite Hrec. simpl.
  unfold display. rewrite (py_getitem_out (labels st')); [done|].
  destruct (refill_window_spec (set_labels (labels st0) (set_index (index st0) st)))
    as (Hi2 & Hl2 & _). simpl in Hi2, Hl2.
  rewrite Hi, Hl, Hi2, Hl2, H0. exact Hbad.
Qed.

End load_proofs.


(** ** The window and the eviction test *)

Section window_proofs.
Context `{E : Env}.

Lemma window_offsets_spec (i : Z) :
  i ∈ window_offsets ↔ - BUFF_RADIUS ≤ i ≤ BUFF_RADIUS.
Proof. unfold window_offsets. rewrite elem_of_seqZ. lia. Qed.

Lemma window_target (idx s : Z) :
  (∃ t, t ∈ window_tasks idx ∧ target t = Some s)
  ↔ ∃ i, - BUFF_RADIUS ≤ i ≤ BUFF_RADIUS ∧ s = (idx + i) mod num_images.
Proof.
  unfold window_tasks. split.
  - intros (t & Ht & Hs). apply list_elem_of_bind in Ht as (i & Ht & Hi).
    apply window_offsets_spec in Hi. exists i. split; [done|].
    rewrite !elem_of_cons, elem_of_nil in Ht.
    destruct Ht as [->|[->|[->|[]]]]; simpl in Hs; congruence.
  - intros (i & Hi & ->). exists (rgb_task ((idx + i) mod num_images)).
    split; [|done]. apply list_elem_of_bind. exists i.
    split; [left|by apply window_offsets_spec].
Qed.

Lemma circular_distance_window (idx s : Z) :
  0 ≤ s < num_images →
  circular_distance idx s ≤ BUFF_RADIUS
  ↔ ∃ i, - BUFF_RADIUS ≤ i ≤ BUFF_RADIUS ∧ s = (idx + i) mod num_images.
Proof.
  intros Hs. pose proof num_images_pos as HN. unfold circular_distance.
  rewrite Z.min_le_iff. split.
  - intros [Hd|Hd].
    + exists (- ((idx - s) mod num_images)).
      pose proof (Z.mod_pos_bound (idx - s) num_images HN).
      split; [lia|].
      assert (num_images ≠ 0) as HN0 by lia.
      pose proof (Z.div_mod (idx - s) num_images HN0) as Hdm.
      replace (idx + - ((idx - s) mod num_images))
        with (s + ((idx - s) / num_images) * num_images) by lia.
      rewrite Z_mod_plus_full. by rewrite Z.mod_small.
    + exists ((s - idx) mod num_images).
      pose proof (Z.mod_pos_bound (s - idx) num_images HN).
      split; [lia|].
      rewrite Zplus_mod_idemp_r. replace (idx + (s - idx)) with s by lia.
      by rewrite Z.mod_small.
  - intros (i & Hi & ->).
    destruct (decide (0 ≤ i)) as [Hpos|Hneg].
    + right. rewrite Zminus_mod_idemp_l.
      replace (idx + i - idx) with i by lia.
      pose proof (Z.mod_le i num_images Hpos HN). lia.
    + left. rewrite Zminus_mod_idemp_r.
      replace (idx - (idx + i)) with (- i) by lia.
      pose proof (Z.mod_le (- i) num_images ltac:(lia) HN). lia.
Qed.

(** X17. The window Go To and Load State queue and the test of the
    eviction loop agree: a populated slot survives the eviction around
    an index exactly when the tasks of a full window around that index
    include one for the slot. *)
Theorem window_matches_eviction {A} (idx : Z) (loaded : list (option A))
    (s : nat) (v : A) :
  (s < length rgb_image_files)%nat →
  loaded !! s = Some (Some v) →
  evict idx loaded !! s = Some (Some v)
  ↔ ∃ t, t ∈ window_tasks idx ∧ target t = Some (Z.of_nat s).
Proof.
  intros Hs Hv. rewrite window_target, <- circular_distance_window
    by (unfold num_images; lia).
  unfold evict. rewrite list_lookup_imap, Hv. simpl.
  case_bool_decide; split; try done; lia.
Qed.

Lemma circular_distance_half (idx s : Z) :
  2 * circular_distance idx s ≤ num_images.
Proof.
  pose proof num_images_pos as HN. unfold circular_distance.
  replace (s - idx) with (- (idx - s)) by lia.
  pose proof (Z.mod_pos_bound (idx - s) num_images HN).
  destruct (decide ((idx - s) mod num_images = 0)) as [Hz|Hnz].
  - rewrite Z_mod_zero_opp_full by done. lia.
  - rewrite Z_mod_nz_opp_full by done. lia.
Qed.

Lemma evict_small_folder {A} (idx : Z) (loaded : list (option A)) :
  num_images ≤ 2 * BUFF_RADIUS + 1 → evict idx loaded = loaded.
Proof.
  intros Hsmall. apply list_eq. intros s. apply evict_lookup_inside.
  pose proof (circular_distance_half idx (Z.of_nat s)). lia.
Qed.

(** X18. In a folder of at most [2 * BUFF_RADIUS + 1] pairs every
    position is within the radius of every index, so the eviction loops
    never clear a slot: a reconciliation pass with nothing pending, and
    the clearing of Go To and Load State, leave the state as it is. *)
Theorem small_folder_never_evicts (st : state) :
  num_images ≤ 2 * BUFF_RADIUS + 1 →
  clear_outside_radius st = st
  ∧ (b_rgb st = [] → b_ir st = [] → b_tiff st = [] → reconcile st = Ok st).
Proof.
  intros Hsmall.
  assert (clear_outside_radius st = st) as Hclear.
  { unfold clear_outside_radius. rewrite !evict_small_folder by done.
    by destruct st. }
  split; [done|]. intros Hr Hi Ht. unfold reconcile.
  rewrite drain_stacks_no_pending by done. simpl. by rewrite Hclear.
Qed.

Lemma items_handle_right (st : state) :
  items (q (handle_right st))
  = items (q st) ++ [rgb_task ((index st + BUFF_RADIUS + 1) mod num_images);
                     ir_task ((index st + BUFF_RADIUS + 1) mod num_images)].
Proof. unfold handle_right. simpl. rewrite right_target. by rewrite <- app_assoc. Qed.

Lemma items_handle_left (st : state) :
  items (q (handle_left st))
  = items (q st) ++ [rgb_task ((index st - BUFF_RADIUS - 1) mod num_images);
                     ir_task ((index st - BUFF_RADIUS - 1) mod num_images)].
Proof. unfold handle_left. simpl. rewrite left_target. by rewrite <- app_assoc. Qed.

(** X19. The step handlers queue the one position that enters the
    window: every position within the radius of the index after a right
    (left) step either was within the radius of the index before it, or
    is the position the step queues a visual and a thermal task for. *)
Theorem step_queues_entering_position (st : state) (s : Z) :
  0 ≤ s < num_images →
  (circular_distance (index (handle_right st)) s ≤ BUFF_RADIUS →
   circular_distance (index st) s ≤ BUFF_RADIUS
   ∨ enqueued st (handle_right st) = [rgb_task s; ir_task s])
  ∧ (circular_distance (index (handle_left st)) s ≤ BUFF_RADIUS →
     circular_distance (index st) s ≤ BUFF_RADIUS
     ∨ enqueued st (handle_left st) = [rgb_task s; ir_task s]).
Proof.
  intros Hs. rewrite !circular_distance_window by done. split.
  - intros (i & Hi & Hsi).
    change (index (handle_right st)) with ((index st + 1) mod num_images) in Hsi.
    rewrite Zplus_mod_idemp_l in Hsi.
    destruct (decide (i = BUFF_RADIUS)) as [->|Hne].
    + right. rewrite (enqueued_app _ _ _ (items_handle_right st)).
      by replace (index st + BUFF_RADIUS + 1) with (index st + 1 + BUFF_RADIUS) by lia;
        rewrite <- Hsi.
    + left. exists (i + 1). split; [lia|]. rewrite Hsi. f_equal. lia.
  - intros (i & Hi & Hsi).
    change (index (handle_left st)) with ((index st - 1) mod num_images) in Hsi.
    rewrite Zplus_mod_idemp_l in Hsi.
    destruct (decide (i = - BUFF_RADIUS)) as [->|Hne].
    + right. rewrite (enqueued_app _ _ _ (items_handle_left st)).
      by replace (index st - BUFF_RADIUS - 1) with (index st - 1 + - BUFF_RADIUS) by lia;
        rewrite <- Hsi.
    + left. exists (i - 1). split; [lia|]. rewrite Hsi. f_equal. lia.
Qed.

Lemma index_iter_right (n : nat) (st : state) :
  index (Nat.iter n handle_right st) = (index st + Z.of_nat n) mod num_images
  ∨ (n = 0%nat).
Proof.
  induction n as [|n IH]; [by right|]. left. simpl.
  change (index (handle_right ?s)) with ((index s + 1) mod num_images).
  destruct IH as [->| ->].
  - rewrite Zplus_mod_idemp_l. f_equal. lia.
  - simpl. f_equal.
Qed.

(** X20. The steps wrap around: a right step followed by a left step, a
    left step followed by a right step, and as many right steps as there
    are pairs, all come back to the index they started from. *)
Theorem steps_wrap_around (st : state) :
  0 ≤ index st < num_images →
  index (handle_left (handle_right st)) = index st
  ∧ index (handle_right (handle_left st)) = index st
  ∧ index (Nat.iter (length rgb_image_files) handle_right st) = index st.
Proof.
  intros Hi. split; [|split].
  - change (index (handle_left (handle_right st)))
      with (((index st + 1) mod num_images - 1) mod num_images).
    rewrite Zminus_mod_idemp_l. replace (index st + 1 - 1) with (index st) by lia.
    by apply Z.mod_small.
  - change (index (handle_right (handle_left st)))
      with (((index st - 1) mod num_images + 1) mod num_images).
    rewrite Zplus_mod_idemp_l. replace (index st - 1 + 1) with (index st) by lia.
    by apply Z.mod_small.
  - pose proof num_images_pos as HN. unfold num_images in HN.
    destruct (index_iter_right (length rgb_image_files) st) as [->|H0]; [|lia].
    fold num_images. rewrite <- (Z.mul_1_l num_images) at 1.
    rewrite Z_mod_plus_full. by apply Z.mod_small.
Qed.

End window_proofs.


(** ** The bookkeeping of the queue *)

Section accounting_proofs.
Context `{E : Env} `{F : Files}.

Lemma stopped_count_split (l1 l2 : list worker) (x : worker) :
  stopped_count (l1 ++ x :: l2)
  = (stopped_count l1 + (if terminated x then 1 else 0) + stopped_count l2)%nat.
Proof. unfold stopped_count. rewrite sum_list_with_app. simpl. lia. Qed.

Lemma accounted_create_queue (ts : list task) (st : state) :
  accounted st → accounted (create_queue ts st).
Proof.
  unfold accounted. intros Ha.
  destruct (create_queue_frame ts st) as (_ & _ & _ & _ & _ & _ & _ & _ & ->).
  rewrite unfinished_create_queue, items_create_queue, length_app. lia.
Qed.

Lemma accounted_handle (ev : event) (st st1 : state) (out : list output) (c : bool) :
  accounted st → handle ev st = Ok (st1, out, c) → accounted st1.
Proof.
  intros Ha. destruct ev as [| | |confirm|f|x]; simpl.
  - by intros [= <- _ _].
  - intros [= <- _ _]. unfold handle_left.
    by apply (accounted_create_queue [_; _]).
  - intros [= <- _ _]. unfold handle_right.
    by apply (accounted_create_queue [_; _]).
  - unfold handle_save_state. destruct confirm; by intros [= <- _ _].
  - unfold handle_load_state. destruct f as [text|]; [|by intros [= <- _ _]].
    destruct (PyStr.readline text) as [line1 rest1].
    destruct (PyStr.int line1) as [n|]; simpl; [|done].
    case_bool_decide; [by intros [= <- _ _]|].
    destruct (PyStr.readline rest1) as [line2 rest2].
    destruct (PyStr.int line2) as [idx|]; simpl; [|done].
    destruct (PyStr.readline rest2) as [line3 rest3].
    destruct (parse_labels _) as [parsed pops].
    case_bool_decide as Hlen; [by intros [= <- _ _]|].
    intros [= <- _ _]. unfold refill_window. by apply accounted_create_queue.
  - unfold handle_goto. destruct (PyStr.int_of_dialog x) as [n|]; simpl; [|done].
    destruct (negb _); [by intros [= <- _ _]|].
    intros [= <- _ _]. unfold refill_window. by apply accounted_create_queue.
Qed.

Lemma accounted_main_iteration (ev : any_event) (st st' : state)
    (out : list (output + label_output)) :
  accounted st → main_iteration ev st = Ok (st', out) → accounted st'.
Proof.
  intros Ha Hit.
  destruct (main_iteration_cases _ _ _ _ Hit) as (st1 & c & Hh & Hc).
  assert (accounted st1) as Ha1.
  { destruct ev as [ev|ev]; simpl in Hh.
    - destruct (handle ev st) as [[[s o] c']|] eqn:Hev; [|done].
      injection Hh as <- _ _. by eapply accounted_handle.
    - destruct (handle_label_event ev st) as [[[s o] c']|] eqn:Hev; [|done].
      injection Hh as <- _ _.
      by destruct (handle_label_event_frame _ _ _ _ _ Hev) as (ls & -> & _). }
  destruct c; [by subst|].
  destruct (reconcile_frame _ _ Hc) as (_ & _ & Hq & Hth).
  unfold accounted in *. by rewrite Hq, Hth.
Qed.

Lemma accounted_worker_step (w : nat) (st st' : state) :
  accounted st → worker_step w st = Some st' → accounted st'.
Proof.
  unfold accounted. intros Ha Hstep.
  destruct (worker_step_cases _ _ _ Hstep)
    as [(t & rest & Hlook & Hitems & ->)|(id & path & k & Hlook & ->)];
    destruct (insert_split _ _ _ Hlook) as (l1 & l2 & Hsplit & Hins).
  - simpl. rewrite Hins. rewrite Hsplit, Hitems in Ha.
    rewrite busy_count_split, stopped_count_split in *. simpl in Ha.
    destruct t; simpl; lia.
  - rewrite Hsplit, busy_count_split, stopped_count_split in Ha. simpl in Ha.
    unfold img_loader_work.
    destruct k;
      [destruct (load_image path)|destruct (load_image path)
      |destruct (get_temp_stats_from_tiff path)];
      simpl; rewrite Hins, busy_count_split, stopped_count_split; simpl; lia.
Qed.

Lemma accounted_preload : accounted preload.
Proof.
  unfold preload. apply accounted_create_queue. unfold accounted. simpl.
  reflexivity.
Qed.

Lemma accounted_run_workers (schedule : list nat) (st : state) :
  accounted st → accounted (run_workers schedule st).
Proof.
  revert st. induction schedule as [|w rest IH]; intros st Ha; [done|].
  simpl. apply IH. destruct (worker_step w st) as [st'|] eqn:Hstep; [|done].
  by eapply accounted_worker_step.
Qed.

(** X21. The counter [q.join()] waits on is accounted for: after the
    preload, and after every loop iteration and every worker step that
    follows, [unfinished_tasks] is the number of entries still queued,
    plus the tasks being decoded, plus the workers that left their loop,
    through the sentinel or through an exception, without calling
    [q.task_done()]. *)
Theorem queue_accounting :
  accounted preload
  ∧ (∀ ev st st' out, accounted st → main_iteration ev st = Ok (st', out) → accounted st')
  ∧ (∀ w st st', accounted st → worker_step w st = Some st' → accounted st').
Proof.
  split; [apply accounted_preload|]. split.
  - intros ev st st' out. apply accounted_main_iteration.
  - apply accounted_worker_step.
Qed.

Lemma idle_counts (l : list worker) :
  (busy_count l = 0 ∧ stopped_count l = 0)%nat ↔ Forall (λ w, w = Waiting) l.
Proof.
  unfold busy_count, stopped_count. induction l as [|w l IH]; simpl.
  - split; [constructor|done].
  - rewrite Forall_cons, <- IH. destruct w; simpl; split; try done; try lia.
    all: intros [? ?]; try done; split; lia.
Qed.

(** X22. With that accounting, [q.join()] returns exactly when the queue
    is empty and every worker is waiting in [q.get()]: it cannot return
    while a task is queued or being decoded, nor once a worker has
    terminated. *)
Theorem join_returns_when_idle (st : state) :
  accounted st →
  q_join_returns (q st) = true
  ↔ items (q st) = [] ∧ Forall (λ w, w = Waiting) (threads st).
Proof.
  unfold accounted, q_join_returns. intros Ha.
  rewrite bool_decide_eq_true, <- idle_counts, Ha.
  destruct (items (q st)) as [|t ts]; simpl.
  - split; [intros H; split; [done|lia] | intros (_ & -> & ->); done].
  - split; [lia | by intros [? _]].
Qed.

Lemma crashed_stays (schedule : list nat) (st : state) (w : nat) (e : exn) :
  threads st !! w = Some (Crashed e) →
  threads (run_workers schedule st) !! w = Some (Crashed e).
Proof.
  revert st. induction schedule as [|w' rest IH]; intros st Hw; [done|].
  simpl. apply IH. destruct (worker_step w' st) as [st'|] eqn:Hstep; [|done].
  simpl. destruct (decide (w' = w)) as [->|Hne].
  { unfold worker_step in Hstep. by rewrite Hw in Hstep. }
  destruct (worker_step_cases _ _ _ Hstep)
    as [(t & rest' & Hlook & Hitems & ->)|(id & path & k & Hlook & ->)].
  - simpl. by rewrite list_lookup_insert_ne.
  - unfold img_loader_work.
    destruct k;
      [destruct (load_image path)|destruct (load_image path)
      |destruct (get_temp_stats_from_tiff path)];
      simpl; by rewrite list_lookup_insert_ne.
Qed.

(** X23. A decode that raises during the preload blocks the start: once
    a worker has been ended by an exception, [q.join()] does not return
    however the workers go on, so the first drain is never reached and
    the window never opens. *)
Theorem failed_decode_blocks_startup (schedule : list nat) (w : nat) (e : exn) :
  threads (run_workers schedule preload) !! w = Some (Crashed e) →
  ∀ more, startup (schedule ++ more) = None.
Proof.
  intros Hw more. unfold startup. rewrite run_workers_app.
  pose proof (crashed_stays more _ _ _ Hw) as Hw'.
  pose proof (accounted_run_workers more _
                (accounted_run_workers schedule _ accounted_preload)) as Ha.
  destruct (q_join_returns _) eqn:Hj; [|done].
  unfold accounted, q_join_returns in *. apply bool_decide_eq_true in Hj.
  destruct (insert_split _ _ _ Hw') as (l1 & l2 & Hsplit & _).
  rewrite Hsplit, stopped_count_split in Ha. simpl in Ha. lia.
Qed.

End accounting_proofs.


(** ** The start of [main] *)

Section startup_proofs.
Context `{E : Env}.

Lemma sound_run_workers (schedule : list nat) (st : state) :
  sound st → sound (run_workers schedule st).
Proof.
  revert st. induction schedule as [|w rest IH]; intros st Hs; [done|].
  simpl. apply IH. destruct (worker_step w st) as [st'|] eqn:Hstep; [|done].
  by eapply worker_step_sound.
Qed.

(** One worker alone takes and decodes the first entries of the queue, two
    steps for each. *)
Lemma one_worker_run (ts rest : list task) (st : state) :
  threads st !! 0%nat = Some Waiting →
  Forall (λ t, is_load t = true ∧ decodes t = true) ts →
  items (q st) = ts ++ rest →
  let st' := run_workers (replicate (2 * length ts) 0%nat) st in
  items (q st') = rest
  ∧ unfinished_tasks (q st') = (unfinished_tasks (q st) - length ts)%nat
  ∧ threads st' = threads st
  ∧ b_rgb st' = b_rgb st ++ results_rgb ts
  ∧ b_ir st' = b_ir st ++ results_ir ts
  ∧ b_tiff st' = b_tiff st ++ results_tiff ts
  ∧ index st' = index st.
Proof.
  revert st. induction ts as [|t ts IH]; intros st Hw Hts Hq.
  - simpl. rewrite !app_nil_r. repeat split; try done. lia.
  - apply Forall_cons in Hts as [[Hload Hdec] Hts].
    destruct t as [id path k|]; [|done].
    replace (2 * length (LoadTask id path k :: ts))%nat
      with (S (S (2 * length ts))) by (simpl; lia).
    cbn [replicate run_workers].
    assert (worker_step 0 st
            = Some (set_threads (<[0%nat := Working id path k]> (threads st))
                      (set_q (mkQueue (ts ++ rest) (unfinished_tasks (q st))) st)))
      as ->.
    { unfold worker_step, img_loader_get. by rewrite Hw, Hq. }
    change (default st (Some ?x)) with x.
    set (st1 := set_threads _ _).
    assert (threads st1 !! 0%nat = Some (Working id path k)) as Hw1.
    { simpl. apply list_lookup_insert_eq. by eapply lookup_lt_Some. }
    assert (worker_step 0 st1 = Some (img_loader_work 0 id path k st1)) as ->.
    { unfold worker_step. by rewrite Hw1. }
    change (default st1 (Some ?x)) with x.
    destruct (img_loader_work_decodes 0 id path k st1 Hdec)
      as (st2 & -> & Hi & _ & _ & _ & _ & Hq2 & Hth2 & Hbr & Hbi & Hbt).
    set (st3 := set_threads _ _).
    assert (threads st3 = threads st) as Hth3.
    { simpl. rewrite list_insert_insert_eq.
      by apply list_insert_id. }
    destruct (IH st3) as (H1 & H2 & H3 & H4 & H5 & H6 & H7).
    { by rewrite Hth3. }
    { done. }
    { reflexivity. }
    destruct (results_cons (LoadTask id path k) ts) as (Hr & Hir & Ht).
    rewrite H1, H2, H3, H4, H5, H6, H7, Hth3.
    change (b_rgb st3) with (b_rgb st2). change (b_ir st3) with (b_ir st2).
    change (b_tiff st3) with (b_tiff st2). change (index st3) with (index st2).
    rewrite Hbr, Hbi, Hbt, Hi, Hr, Hir, Ht, <- !app_assoc.
    repeat split; try done.
    change (unfinished_tasks (q st3)) with (Nat.pred (unfinished_tasks (q st))).
    cbn [length]. lia.
Qed.

Lemma results_starting_images (idx : Z) :
  Forall (λ t, decodes t = true) (starting_images idx) →
  length (results_rgb (starting_images idx)) = length window_offsets
  ∧ length (results_ir (starting_images idx)) = length window_offsets
  ∧ results_tiff (starting_images idx) = [].
Proof.
  unfold starting_images. induction window_offsets as [|i l IH]; [done|].
  change ((i :: l) ≫= ?f) with (f i ++ (l ≫= f)).
  intros [Hi Hl]%Forall_app. destruct (IH Hl) as (IH1 & IH2 & IH3).
  rewrite results_rgb_app, results_ir_app, results_tiff_app, !length_app.
  rewrite IH1, IH2, IH3.
  apply Forall_cons in Hi as [Hr [Hir _]%Forall_cons]. simpl in Hr, Hir.
  unfold results_rgb, results_ir, results_tiff, rgb_task, ir_task. simpl.
  destruct (load_image _); [|done]. destruct (load_image _); [|done]. done.
Qed.

Lemma starting_images_loads (idx : Z) :
  Forall (λ t, is_load t = true) (starting_images idx).
Proof.
  unfold starting_images. apply Forall_forall. intros t Ht.
  apply list_elem_of_bind in Ht as (i & Ht & _).
  rewrite !elem_of_cons, elem_of_nil in Ht. by destruct Ht as [->|[->|[]]].
Qed.

(** X24. When every file of the preload window can be decoded, [main]
    gets through its start: one worker alone, given two steps for each
    preload task, empties the queue, [q.join()] returns, and the first
    drain returns without raising. The first drain stores only part of
    what was decoded: it leaves half of the visual results and half of
    the thermal results (rounded down) on their stacks for later
    iterations. *)
Theorem startup_completes :
  Forall (λ t, decodes t = true) (starting_images 0) →
  ∃ st,
    startup (replicate (2 * length (starting_images 0)) 0%nat) = Some (Ok st)
    ∧ index st = 0
    ∧ items (q st) = []
    ∧ threads st = start_img_loaders 10
    ∧ length (b_rgb st) = (length window_offsets / 2)%nat
    ∧ length (b_ir st) = (length window_offsets / 2)%nat
    ∧ b_tiff st = [].
Proof.
  intros Hdec. unfold startup, first_drain.
  assert (items (q preload) = starting_images 0 ++ []) as Hitems.
  { unfold preload. by rewrite items_create_queue, app_nil_r. }
  assert (unfinished_tasks (q preload) = length (starting_images 0)) as Hunf.
  { unfold preload. by rewrite unfinished_create_queue. }
  assert (threads preload = start_img_loaders 10) as Hth.
  { unfold preload. by destruct (create_queue_frame (starting_images 0)
      {| index := 0;
         labels := replicate (length rgb_image_files) None;
         loaded_rgb_images := replicate (length rgb_image_files) None;
         loaded_ir_images := replicate (length rgb_image_files) None;
         loaded_tiff_vals := replicate (length rgb_image_files) None;
         q := mkQueue [] 0;
         b_rgb := []; b_ir := []; b_tiff := [];
         threads := start_img_loaders 10 |})
      as (_ & _ & _ & _ & _ & _ & _ & _ & ->). }
  destruct (create_queue_frame (starting_images 0)
      {| index := 0;
         labels := replicate (length rgb_image_files) None;
         loaded_rgb_images := replicate (length rgb_image_files) None;
         loaded_ir_images := replicate (length rgb_image_files) None;
         loaded_tiff_vals := replicate (length rgb_image_files) None;
         q := mkQueue [] 0;
         b_rgb := []; b_ir := []; b_tiff := [];
         threads := start_img_loaders 10 |})
      as (Hpi & _ & _ & _ & _ & Hpr & Hpir & Hpt & _).
  fold preload in Hpi, Hpr, Hpir, Hpt. simpl in Hpi, Hpr, Hpir, Hpt.
  destruct (one_worker_run (starting_images 0) [] preload)
    as (Hq & Hu & Ht & Hbr & Hbi & Hbt & Hi); [by rewrite Hth| |done|].
  { pose proof (starting_images_loads 0) as Hl.
    rewrite Forall_forall in *. intros t Ht. split; [by apply Hl|by apply Hdec]. }
  set (st := run_workers _ preload) in *.
  unfold q_join_returns. rewrite bool_decide_eq_true_2 by (rewrite Hu, Hunf; lia).
  destruct (sound_run_workers (replicate (2 * length (starting_images 0)) 0%nat)
              preload preload_sound) as (Hw & Hs & _).
  fold st in Hw, Hs.
  destruct (drain_stacks_spec st Hw Hs)
    as (st' & -> & H1 & H2 & H3 & _ & _ & Hi' & _ & Hq' & Hth').
  destruct (results_starting_images 0 Hdec) as (Rr & Ri & Rt).
  exists st'. split; [done|].
  rewrite Hi', Hi, Hq', Hq, Hth', Ht, Hth, H1, H2, Hbr, Hbi, Hpr, Hpir, Hpi.
  simpl. rewrite Rr, Ri. repeat split; try done.
  rewrite Hbt, Hpt, Rt in H3. simpl in H3. by destruct (b_tiff st').
Qed.

End startup_proofs.


(** ** Temperature Based Labeling on lists of different lengths *)

Section threshold_proofs.
Context `{E : Env} `{F : Files}.

Lemma threshold_loop_overrun (t : Z) (tiffs : list string)
    (done_ ls : list (option label)) :
  (length ls < length tiffs)%nat →
  Forall (λ tiff, ∃ m, tiff_max (folder_path +:+ "/Thermal/Celsius TIFF/" +:+ tiff) = Ok m)
    tiffs →
  threshold_loop t (Z.of_nat (length done_)) tiffs (done_ ++ ls) = Raise IndexError.
Proof.
  revert done_ ls. induction tiffs as [|tiff tiffs IH]; intros done_ ls Hlen Hopen.
  - simpl in Hlen. lia.
  - apply Forall_cons in Hopen as [[m Hm] Hopen].
    cbn [threshold_loop]. rewrite Hm, bind_Ok.
    destruct ls as [|x ls].
    + rewrite app_nil_r. unfold py_setitem.
      rewrite py_norm_index_out by lia. done.
    + simpl in Hlen. rewrite py_setitem_in_range
        by (rewrite length_app; simpl; lia).
      rewrite bind_Ok, Nat2Z.id.
      replace (<[length done_ := Some (if reaches m t then Fire else NoFire)]> (done_ ++ x :: ls))
        with ((done_ ++ [Some (if reaches m t then Fire else NoFire)]) ++ ls).
      2:{ rewrite insert_app_r_alt by lia. rewrite Nat.sub_diag. simpl.
          by rewrite <- app_assoc. }
      replace (Z.of_nat (length done_) + 1)
        with (Z.of_nat (length (done_ ++ [Some (if reaches m t then Fire else NoFire)])))
        by (rewrite length_app; simpl; lia).
      apply IH; [lia|done].
Qed.

(** X25. Temperature Based Labeling walks the TIFF list but writes into
    the label vector, which is as long as the RGB list. With fewer TIFF
    files than pairs, the pairs past the last TIFF keep the labels they
    had; with more TIFF files than pairs, [labels[ix] = ...] raises
    [IndexError] once [ix] reaches the number of pairs, and the exception
    leaves the handler. *)
Theorem temp_label_tiff_count_mismatch (st : state) (s : string) (t : Z) :
  PyStr.int s = Ok t →
  Forall (λ tiff, ∃ m, tiff_max (folder_path +:+ "/Thermal/Celsius TIFF/" +:+ tiff) = Ok m)
    tiff_image_files →
  ((length tiff_image_files ≤ length (labels st))%nat →
   ∃ ls out, handle_temp_label (Some s) st = Ok (set_labels ls st, out, false)
     ∧ length ls = length (labels st)
     ∧ drop (length tiff_image_files) ls = drop (length tiff_image_files) (labels st)
     ∧ Forall (λ l, l ≠ None) (take (length tiff_image_files) ls))
  ∧ ((length (labels st) < length tiff_image_files)%nat →
     handle_temp_label (Some s) st = Raise IndexError
     ∧ main_iteration (labeling_event (ev_temp_label (Some s))) st = Raise IndexError).
Proof.
  intros Hint Hopen. split.
  - intros Hlen.
    destruct (threshold_loop_spec t tiff_image_files [] (labels st) Hlen Hopen)
      as (new & Hloop & Hnew).
    change (Z.of_nat (length [])) with 0 in Hloop. simpl in Hloop.
    pose proof (Forall2_length _ _ _ Hnew) as Hn.
    eexists _, _. split; [unfold handle_temp_label; by rewrite Hint, Hloop|].
    split; [rewrite length_app, length_drop; lia|].
    split; [rewrite Hn; by rewrite drop_app_length|].
    rewrite Hn, take_app_length.
    clear -Hnew. induction Hnew as [|tiff l tiffs ls (m & _ & ->) _ IH]; by constructor.
  - intros Hlen.
    pose proof (threshold_loop_overrun t tiff_image_files [] (labels st) Hlen Hopen)
      as Hloop.
    change (Z.of_nat (length [])) with 0 in Hloop. simpl in Hloop.
    assert (handle_temp_label (Some s) st = Raise IndexError) as H.
    { unfold handle_temp_label. by rewrite Hint, Hloop. }
    split; [done|]. unfold main_iteration, handle_any, handle_label_event.
    by rewrite H.
Qed.

End threshold_proofs.


(** ** Save State *)

Section save_proofs.
Context `{E : Env}.

(** X26. Save State writes the file whatever the answer to its
    confirmation is: "Yes" and "No" are both non-empty strings, so
    [if confirm:] holds for either, and only a closed dialog skips the
    write. What is written is three lines: the first reads back through
    [int()] as the number of pairs, the second as the viewing index, and
    the third is the [repr] of the label list. *)
Theorem save_state_writes_on_any_answer (st : state) (answer : bool) :
  handle_save_state (Some answer) st
  = (st, [wrote_save_state (save_state_text st); popup_state_saved], false)
  ∧ handle_save_state None st = (st, [], false)
  ∧ ∃ line1 line2 line3 rest1 rest2,
      PyStr.readline (save_state_text st) = (line1, rest1)
      ∧ PyStr.int line1 = Ok num_images
      ∧ PyStr.readline rest1 = (line2, rest2)
      ∧ PyStr.int line2 = Ok (index st)
      ∧ PyStr.readline rest2 = (line3, EmptyString)
      ∧ line3 = repr_labels (labels st) +:+ newline.
Proof.
  split; [done|]. split; [done|]. unfold save_state_text.
  eexists _, _, _, _, _.
  split; [apply readline_app_newline, str_no_newline|].
  split; [apply int_str_newline|].
  split; [apply readline_app_newline, str_no_newline|].
  split; [apply int_str_newline|]. split; [|done].
  rewrite <- (append_nil_r (repr_labels (labels st) +:+ newline)) at 1.
  apply readline_app_newline, repr_labels_no_newline.
Qed.

End save_proofs.

(** ** Who writes what *)

Section frame_proofs.
Context `{E : Env} `{F : Files}.

Lemma create_queue_appends (ts : list task) (st : state) :
  threads (create_queue ts st) = threads st
  ∧ ∃ ts', items (q (create_queue ts st)) = items (q st) ++ ts'
           ∧ unfinished_tasks (q (create_queue ts st))
             = (unfinished_tasks (q st) + length ts')%nat.
Proof.
  destruct (create_queue_frame ts st) as (_ & _ & _ & _ & _ & _ & _ & _ & ->).
  split; [done|]. exists ts.
  by rewrite items_create_queue, unfinished_create_queue.
Qed.

Lemma no_put (st : state) :
  threads st = threads st
  ∧ ∃ ts', items (q st) = items (q st) ++ ts'
           ∧ unfinished_tasks (q st) = (unfinished_tasks (q st) + length ts')%nat.
Proof. split; [done|]. exists []. rewrite app_nil_r. simpl. split; [done|lia]. Qed.

Lemma handle_appends (ev : event) (st st1 : state) (out : list output) (c : bool) :
  handle ev st = Ok (st1, out, c) →
  threads st1 = threads st
  ∧ ∃ ts, items (q st1) = items (q st) ++ ts
          ∧ unfinished_tasks (q st1) = (unfinished_tasks (q st) + length ts)%nat.
Proof.
  destruct ev as [| | |confirm|f|x]; simpl.
  - intros [= <- _ _]. apply no_put.
  - intros [= <- _ _]. unfold handle_left.
    apply (create_queue_appends [_; _] (set_index _ st)).
  - intros [= <- _ _]. unfold handle_right.
    apply (create_queue_appends [_; _] (set_index _ st)).
  - unfold handle_save_state. destruct confirm; intros [= <- _ _]; apply no_put.
  - unfold handle_load_state. destruct f as [text|]; [|intros [= <- _ _]; apply no_put].
    destruct (PyStr.readline text) as [line1 rest1].
    destruct (PyStr.int line1) as [n|]; simpl; [|done].
    case_bool_decide; [intros [= <- _ _]; apply no_put|].
    destruct (PyStr.readline rest1) as [line2 rest2].
    destruct (PyStr.int line2) as [idx|]; simpl; [|done].
    destruct (PyStr.readline rest2) as [line3 rest3].
    destruct (parse_labels _) as [parsed pops].
    case_bool_decide as Hlen; [intros [= <- _ _]; apply (no_put (set_index idx st))|].
    intros [= <- _ _]. unfold refill_window.
    apply (create_queue_appends _
             (clear_outside_radius (set_labels parsed (set_index idx st)))).
  - unfold handle_goto. destruct (PyStr.int_of_dialog x) as [n|]; simpl; [|done].
    destruct (negb _); [intros [= <- _ _]; apply no_put|].
    intros [= <- _ _]. unfold refill_window.
    apply (create_queue_appends _ (clear_outside_radius (set_index (n - 1) st))).
Qed.

Lemma img_loader_work_frame (w : nat) (id : Z) (path : string) (k : kind)
    (st : state) :
  index (img_loader_work w id path k st) = index st
  ∧ labels (img_loader_work w id path k st) = labels st
  ∧ loaded_rgb_images (img_loader_work w id path k st) = loaded_rgb_images st
  ∧ loaded_ir_images (img_loader_work w id path k st) = loaded_ir_images st
  ∧ loaded_tiff_vals (img_loader_work w id path k st) = loaded_tiff_vals st.
Proof.
  unfold img_loader_work.
  by destruct k; [destruct (load_image path)|destruct (load_image path)
                 |destruct (get_temp_stats_from_tiff path)].
Qed.

(** X27. The workers and the loop write to different parts of the
    state. A worker step leaves the viewing index, the labels and the
    three caches untouched: a worker only takes from the queue and
    appends to a stack. A loop iteration leaves the threads untouched
    and takes nothing off the queue: whatever it does to the queue is
    an append, counted in [unfinished_tasks]. *)
Theorem workers_and_loop_write_apart :
  (∀ w st st', worker_step w st = Some st' →
     index st' = index st ∧ labels st' = labels st
     ∧ loaded_rgb_images st' = loaded_rgb_images st
     ∧ loaded_ir_images st' = loaded_ir_images st
     ∧ loaded_tiff_vals st' = loaded_tiff_vals st)
  ∧ (∀ ev st st' out, main_iteration ev st = Ok (st', out) →
     threads st' = threads st
     ∧ ∃ ts, items (q st') = items (q st) ++ ts
             ∧ unfinished_tasks (q st')
               = (unfinished_tasks (q st) + length ts)%nat).
Proof.
  split.
  - intros w st st' Hstep.
    destruct (worker_step_cases _ _ _ Hstep)
      as [(t & rest & _ & _ & ->)|(id & path & k & _ & ->)]; [done|].
    apply img_loader_work_frame.
  - intros ev st st' out Hit.
    destruct (main_iteration_cases _ _ _ _ Hit) as (st1 & c & Hh & Hc).
    assert (threads st1 = threads st
            ∧ ∃ ts, items (q st1) = items (q st) ++ ts
                    ∧ unfinished_tasks (q st1)
                      = (unfinished_tasks (q st) + length ts)%nat) as H1.
    { destruct ev as [ev|ev]; simpl in Hh.
      - destruct (handle ev st) as [[[s o] c']|] eqn:Hev; [|done].
        injection Hh as <- _ _. by eapply handle_appends.
      - destruct (handle_label_event ev st) as [[[s o] c']|] eqn:Hev; [|done].
        injection Hh as <- _ _.
        destruct (handle_label_event_frame _ _ _ _ _ Hev) as (ls & -> & _).
        apply (no_put st). }
    destruct c; [by subst|].
    destruct (reconcile_frame _ _ Hc) as (_ & _ & -> & ->). exact H1.
Qed.


End frame_proofs.

(** * The rest of the tool on concrete inputs *)

(** X2, an instance: a listing with a name that is kept. *)
Lemma listed_names_split_witness :
  "a.JPG" ∈ get_image_files ["a.JPG"; "notes.txt"; "b.tiff"]
  ∧ ∃ ext, split_dot_1 "a.JPG" = Ok ext.
Proof.
  assert ("a.JPG" ∈ get_image_files ["a.JPG"; "notes.txt"; "b.tiff"]) as H
    by (vm_compute; constructor).
  split; [exact H|]. exact (listed_names_split _ _ H).
Defined.

(** X8, an instance: a name with one dot, with two dots, with none. *)
Lemma renumbered_suffix_witness :
  PyStr.all_chars (λ c, negb (Ascii.eqb c ".")) "DJI_0001" = true
  ∧ PyStr.all_chars (λ c, negb (Ascii.eqb c ".")) "JPG" = true
  ∧ renumbered 0 ("DJI_0001" +:+ "." +:+ "JPG") = Ok (zero_pad (0 + 1) +:+ "." +:+ "JPG")
  ∧ renumbered 0 ("DJI_0001" +:+ "." +:+ "JPG" +:+ "." +:+ "bak")
    = Ok (zero_pad (0 + 1) +:+ "." +:+ "JPG")
  ∧ renumbered 0 "DJI_0001" = Raise IndexError.
Proof.
  split; [reflexivity|]. split; [reflexivity|].
  apply (renumbered_suffix 0 "DJI_0001" "JPG" "bak"); reflexivity.
Defined.

(** ** Three pairs *)

Section three_pairs.
#[local] Existing Instance env3.
#[local] Existing Instance files3.

(** X7, an instance: the numbers 42 and 7. *)
Lemma zero_pad_spec_witness :
  0 ≤ 42 ∧ 0 ≤ 7
  ∧ py_len (zero_pad 42) = Z.max OUTPUT_FILENAME_DIGITS (py_len (PyStr.str 42))
  ∧ PyStr.int (zero_pad 42) = Ok 42
  ∧ (zero_pad 42 = zero_pad 7 → 42 = 7).
Proof. split; [lia|]. split; [lia|]. apply (zero_pad_spec 42 7); lia. Defined.

(** X9, an instance: two names that get the same new name were given
    the same count. *)
Lemma renumbered_injective_witness :
  0 ≤ 4
  ∧ renumbered 4 "a.JPG" = Ok "00005.JPG"
  ∧ renumbered 4 "b.JPG" = Ok "00005.JPG"
  ∧ 4 = 4.
Proof.
  split; [lia|]. split; [reflexivity|]. split; [reflexivity|].
  apply (renumbered_injective 4 4 "a.JPG" "b.JPG" "00005.JPG");
    [lia | lia | reflexivity | reflexivity].
Defined.

(** X3, two instances: the index at 1, and the index at 3, past the
    last pair. *)
Lemma key_labels_displayed_pair_witness :
  let st := set_index 1 preload in
  let st2 := set_index 3 preload in
  0 ≤ index st < Z.of_nat (length (labels st))
  ∧ handle_key key_1 st
    = Ok (set_labels (<[Z.to_nat (index st) := key_label key_1]> (labels st)) st)
  ∧ <[Z.to_nat (index st) := key_label key_1]> (labels st) !! Z.to_nat (index st)
    = Some (Some Fire)
  ∧ ¬ (- Z.of_nat (length (labels st2)) ≤ index st2 < Z.of_nat (length (labels st2)))
  ∧ handle_key key_1 st2 = Raise IndexError.
Proof.
  intros st st2.
  assert (0 ≤ index st < Z.of_nat (length (labels st))) as Hin by (by vm_compute).
  assert (¬ (- Z.of_nat (length (labels st2)) ≤ index st2 < Z.of_nat (length (labels st2))))
    as Hout by (vm_compute; intros [_ H]; discriminate H).
  destruct (key_labels_displayed_pair key_1 st) as [H1 _].
  destruct (key_labels_displayed_pair key_1 st2) as [_ H2].
  split; [exact Hin|]. split; [exact (proj1 (H1 Hin))|].
  split; [exact (proj2 (H1 Hin))|]. split; [exact Hout|]. exact (H2 Hout).
Defined.

(** X4, an instance: Fire for all three pairs. *)
Lemma apply_to_all_counts_witness :
  let st' := handle_apply_to_all (Some Fire) preload in
  Some NoFire ≠ Some Fire
  ∧ count_label (Some Fire) (labels st') = 3%nat
  ∧ count_label (Some NoFire) (labels st') = 0%nat.
Proof.
  intros st'.
  assert (Some NoFire ≠ Some Fire) as Hne by discriminate.
  pose proof (apply_to_all_counts (Some Fire) preload) as H. cbv zeta in H.
  destruct H as (_ & _ & H1 & H2).
  split; [exact Hne|]. split; [exact H1|]. exact (H2 _ Hne).
Defined.

(** X5, two instances: the text "1.5", and a 5 behind the file
    separator (character 28), which [int()] does not skip. *)
Lemma temp_label_rejects_non_integer_witness :
  let st := preload in
  ((∀ n, PyStr.int "1.5" ≠ Ok n)
   ∧ main_iteration (labeling_event (ev_temp_label (Some "1.5"))) st
     = Ok (st, [inr popup_threshold_not_integer])
   ∧ main_iteration (labeling_event (ev_temp_label None)) st = Ok (st, []))
  ∧ ((∀ n, PyStr.int (String "028" "5") ≠ Ok n)
     ∧ main_iteration (labeling_event (ev_temp_label (Some (String "028" "5")))) st
       = Ok (st, [inr popup_threshold_not_integer])).
Proof.
  intros st. split.
  - split; [discriminate|].
    apply (temp_label_rejects_non_integer st "1.5"). discriminate.
  - split; [discriminate|].
    destruct (temp_label_rejects_non_integer st (String "028" "5")) as (H1 & _);
      [discriminate|]. exact H1.
Defined.

(** X6, an instance: threshold 150, the first of three TIFFs at 300. *)
Lemma temp_label_labels_every_pair_witness :
  let st := preload in
  PyStr.int "150" = Ok 150
  ∧ length tiff_image_files = length (labels st)
  ∧ ∃ ls,
      handle_temp_label (Some "150") st
      = Ok (set_labels ls st,
            [popup_threshold_done 150 (count_label (Some Fire) ls)
               (count_label (Some NoFire) ls) 0], false)
      ∧ (count_label (Some Fire) ls + count_label (Some NoFire) ls
         = length (labels st))%nat.
Proof.
  intros st. split; [reflexivity|]. split; [reflexivity|].
  destruct (temp_label_labels_every_pair st "150" 150) as (ls & H1 & _ & H2);
    [reflexivity | reflexivity | repeat (constructor; [by eexists|]); constructor |].
  by exists ls.
Defined.


(** X11, an instance: the preload and a first worker step. *)
Lemma sound_invariant_witness :
  worker_step 0 preload = Some (run_workers [0%nat] preload)
  ∧ sound preload
  ∧ sound (run_workers [0%nat] preload).
Proof.
  assert (worker_step 0 preload = Some (run_workers [0%nat] preload))
    as Hstep by (vm_compute; reflexivity).
  destruct sound_invariant as (H0 & _ & Hw).
  split; [exact Hstep|]. split; [exact H0|]. exact (Hw _ _ _ H0 Hstep).
Defined.

End three_pairs.

Section three_pairs_cache.
#[local] Existing Instance env3.
#[local] Existing Instance files3.


(** X13, an instance: the first tick after the preload. *)
Lemma tick_never_raises_witness :
  let st := preload in
  sound st
  ∧ - num_images ≤ index st < num_images
  ∧ ∃ st', loop_iteration ev_timeout st = Ok (st', [])
      ∧ index st' = index st ∧ labels st' = labels st ∧ q st' = q st.
Proof.
  intros st.
  assert (sound st) as Hs.
  { vm_compute. repeat split; repeat constructor; done. }
  assert (- num_images ≤ index st < num_images) as Hi by (by vm_compute).
  split; [exact Hs|]. split; [exact Hi|]. exact (tick_never_raises st Hs Hi).
Defined.

(** X14, an instance: a right step from the preload. *)
Lemma index_stays_in_range_witness :
  ∃ st' out,
    (∀ f, cache_event ev_right ≠ cache_event (ev_load_state f))
    ∧ index_in_range preload
    ∧ main_iteration (cache_event ev_right) preload = Ok (st', out)
    ∧ index_in_range st'.
Proof.
  assert (∀ f, cache_event ev_right ≠ cache_event (ev_load_state f)) as Hev
    by discriminate.
  assert (index_in_range preload) as Hi by (by vm_compute).
  eexists _, _. split; [exact Hev|]. split; [exact Hi|].
  assert (∀ r st' out, r = Ok (st', out) →
          main_iteration (cache_event ev_right) preload = r →
          main_iteration (cache_event ev_right) preload = Ok (st', out)
          ∧ index_in_range st') as Hgo.
  { intros r st' out -> Hrun. split; [exact Hrun|].
    exact (index_stays_in_range _ _ _ _ Hev Hi Hrun). }
  eapply Hgo; [reflexivity | vm_compute; reflexivity].
Defined.

(** X15, an instance: a state saved at index 2 with three labels, loaded
    into the session as the preload left it. *)
Lemma load_state_installs_saved_witness :
  let st0 := set_index 2 (set_labels [Some Fire; Some NoFire; None] preload) in
  let st := preload in
  length (labels st0) = length rgb_image_files
  ∧ length (labels st) = length rgb_image_files
  ∧ ∃ st', handle_load_state (Some (save_state_text st0)) st
           = Ok (st', [popup_loaded_state], false)
      ∧ index st' = index st0
      ∧ labels st' = labels st0
      ∧ within_radius (index st0) (loaded_rgb_images st')
      ∧ within_radius (index st0) (loaded_ir_images st')
      ∧ items (q st') = items (q st) ++ window_tasks (index st0).
Proof.
  intros st0 st.
  assert (length (labels st0) = length rgb_image_files) as H0 by reflexivity.
  assert (length (labels st) = length rgb_image_files) as H1
    by (vm_compute; reflexivity).
  split; [exact H0|]. split; [exact H1|].
  exact (load_state_installs_saved st0 st H0 H1).
Defined.

(** X16, an instance: a state file for three pairs that gives index 7. *)
Lemma load_state_bad_index_raises_witness :
  let st0 := set_index 7 preload in
  let st := preload in
  length (labels st0) = length rgb_image_files
  ∧ sound st
  ∧ ¬ (- num_images ≤ index st0 < num_images)
  ∧ loop_iteration (ev_load_state (Some (save_state_text st0))) st = Raise IndexError.
Proof.
  intros st0 st.
  assert (length (labels st0) = length rgb_image_files) as H0
    by (vm_compute; reflexivity).
  assert (sound st) as Hs.
  { vm_compute. repeat split; repeat constructor; done. }
  assert (¬ (- num_images ≤ index st0 < num_images)) as Hbad
    by (vm_compute; intros [_ H]; discriminate H).
  split; [exact H0|]. split; [exact Hs|]. split; [exact Hbad|].
  exact (load_state_bad_index_raises st0 st H0 Hs Hbad).
Defined.

(** X18, an instance: three pairs, radius 7, every visual slot
    populated. *)
Lemma small_folder_never_evicts_witness :
  let st := set_loaded_rgb_images (replicate 3 (Some "img")) preload in
  num_images ≤ 2 * BUFF_RADIUS + 1
  ∧ clear_outside_radius st = st
  ∧ (b_rgb st = [] → b_ir st = [] → b_tiff st = [] → reconcile st = Ok st).
Proof.
  intros st.
  assert (num_images ≤ 2 * BUFF_RADIUS + 1) as Hsmall by (by vm_compute).
  split; [exact Hsmall|]. exact (small_folder_never_evicts st Hsmall).
Defined.

(** X21, an instance: the preload and a first worker step. *)
Lemma queue_accounting_witness :
  worker_step 0 preload = Some (run_workers [0%nat] preload)
  ∧ accounted preload
  ∧ accounted (run_workers [0%nat] preload).
Proof.
  assert (worker_step 0 preload = Some (run_workers [0%nat] preload))
    as Hstep by (vm_compute; reflexivity).
  destruct queue_accounting as (H0 & _ & Hw).
  split; [exact Hstep|]. split; [exact H0|]. exact (Hw _ _ _ H0 Hstep).
Defined.

(** X22, an instance: worker 0 has decoded all thirty preload tasks. *)
Lemma join_returns_when_idle_witness :
  let st := run_workers (replicate 60 0%nat) preload in
  accounted st
  ∧ (q_join_returns (q st) = true
     ↔ items (q st) = [] ∧ Forall (λ w, w = Waiting) (threads st)).
Proof.
  intros st.
  assert (accounted st) as Ha by (vm_compute; reflexivity).
  split; [exact Ha|]. exact (join_returns_when_idle st Ha).
Defined.

(** X25, two instances: three pairs with two TIFF files, and with four. *)
Lemma temp_label_tiff_count_mismatch_witness :
  let st := set_labels [Some Fire; Some Fire; Some Fire] preload in
  PyStr.int "150" = Ok 150
  ∧ (length (tiff_image_files (Files:=demo_files_of 1 [])) ≤ length (labels st))%nat
  ∧ (∃ ls out,
       handle_temp_label (F:=demo_files_of 1 []) (Some "150") st
       = Ok (set_labels ls st, out, false)
       ∧ length ls = length (labels st)
       ∧ drop (length (tiff_image_files (Files:=demo_files_of 1 []))) ls
         = drop (length (tiff_image_files (Files:=demo_files_of 1 []))) (labels st)
       ∧ Forall (λ l, l ≠ None)
           (take (length (tiff_image_files (Files:=demo_files_of 1 []))) ls))
  ∧ (length (labels st) < length (tiff_image_files (Files:=demo_files_of 3 [])))%nat
  ∧ handle_temp_label (F:=demo_files_of 3 []) (Some "150") st = Raise IndexError
  ∧ main_iteration (F:=demo_files_of 3 []) (labeling_event (ev_temp_label (Some "150"))) st
    = Raise IndexError.
Proof.
  intros st.
  assert (PyStr.int "150" = Ok 150) as Hint by reflexivity.
  assert ((length (tiff_image_files (Files:=demo_files_of 1 [])) ≤ length (labels st))%nat)
    as Hfew by (vm_compute; lia).
  assert ((length (labels st) < length (tiff_image_files (Files:=demo_files_of 3 [])))%nat)
    as Hmany by (vm_compute; lia).
  destruct (temp_label_tiff_count_mismatch (F:=demo_files_of 1 []) st "150" 150 Hint)
    as [H1 _]; [repeat (constructor; [by eexists|]); constructor|].
  destruct (temp_label_tiff_count_mismatch (F:=demo_files_of 3 []) st "150" 150 Hint)
    as [_ H2]; [repeat (constructor; [by eexists|]); constructor|].
  split; [exact Hint|]. split; [exact Hfew|]. split; [exact (H1 Hfew)|].
  split; [exact Hmany|]. exact (H2 Hmany).
Defined.

End three_pairs_cache.

(** ** Six pairs, radius 1 *)

Section six_pairs.
#[local] Existing Instance env6.

(** X17, an instance: slot 1 is within the radius of index 0. *)
Lemma window_matches_eviction_witness :
  let loaded := replicate 6 (Some "img") in
  (1 < length rgb_image_files)%nat
  ∧ loaded !! 1%nat = Some (Some "img")
  ∧ (evict 0 loaded !! 1%nat = Some (Some "img")
     ↔ ∃ t, t ∈ window_tasks 0 ∧ target t = Some (Z.of_nat 1)).
Proof.
  intros loaded.
  assert ((1 < length rgb_image_files)%nat) as Hs by (vm_compute; lia).
  assert (loaded !! 1%nat = Some (Some "img")) as Hv by reflexivity.
  split; [exact Hs|]. split; [exact Hv|].
  exact (window_matches_eviction 0 loaded 1 "img" Hs Hv).
Defined.

(** X19, an instance: a right step from index 0 brings position 2 into
    the window. *)
Lemma step_queues_entering_position_witness :
  let st := preload in
  0 ≤ 2 < num_images
  ∧ (circular_distance (index (handle_right st)) 2 ≤ BUFF_RADIUS →
     circular_distance (index st) 2 ≤ BUFF_RADIUS
     ∨ enqueued st (handle_right st) = [rgb_task 2; ir_task 2])
  ∧ (circular_distance (index (handle_left st)) 2 ≤ BUFF_RADIUS →
     circular_distance (index st) 2 ≤ BUFF_RADIUS
     ∨ enqueued st (handle_left st) = [rgb_task 2; ir_task 2]).
Proof.
  intros st.
  assert (0 ≤ 2 < num_images) as Hs by (by vm_compute).
  split; [exact Hs|]. exact (step_queues_entering_position st 2 Hs).
Defined.

(** X20, an instance: from index 0. *)
Lemma steps_wrap_around_witness :
  let st := preload in
  0 ≤ index st < num_images
  ∧ index (handle_left (handle_right st)) = index st
  ∧ index (handle_right (handle_left st)) = index st
  ∧ index (Nat.iter (length rgb_image_files) handle_right st) = index st.
Proof.
  intros st.
  assert (0 ≤ index st < num_images) as Hi by (by vm_compute).
  split; [exact Hi|]. exact (steps_wrap_around st Hi).
Defined.

(** X24, an instance: six readable pairs. *)
Lemma startup_completes_witness :
  Forall (λ t, decodes t = true) (starting_images 0)
  ∧ ∃ st,
      startup (replicate (2 * length (starting_images 0)) 0%nat) = Some (Ok st)
      ∧ index st = 0
      ∧ items (q st) = []
      ∧ threads st = start_img_loaders 10
      ∧ length (b_rgb st) = (length window_offsets / 2)%nat
      ∧ length (b_ir st) = (length window_offsets / 2)%nat
      ∧ b_tiff st = [].
Proof.
  assert (Forall (λ t, decodes t = true) (starting_images 0)) as Hdec
    by (vm_compute; repeat constructor).
  split; [exact Hdec|]. exact (startup_completes Hdec).
Defined.

End six_pairs.

(** ** Twenty pairs, one of them unreadable *)

Section unreadable_pair.
#[local] Existing Instance env20_unreadable.

(** X23, an instance: worker 0 takes the first preload task, whose file
    cannot be decoded. *)
Lemma failed_decode_blocks_startup_witness :
  threads (run_workers [0; 0]%nat preload) !! 0%nat = Some (Crashed Cv2Error)
  ∧ ∀ more, startup ([0; 0]%nat ++ more) = None.
Proof.
  assert (threads (run_workers [0; 0]%nat preload) !! 0%nat = Some (Crashed Cv2Error))
    as Hw by (vm_compute; reflexivity).
  split; [exact Hw|]. exact (failed_decode_blocks_startup _ _ _ Hw).
Defined.

End unreadable_pair.

(** ** Three pairs, the events of the loop *)

Section three_pairs_events.
#[local] Existing Instance env3.
#[local] Existing Instance files3.

(** X27, an instance: a first worker step after the preload. *)
Lemma workers_and_loop_write_apart_witness :
  let st := preload in
  let st' := run_workers [0%nat] preload in
  worker_step 0 st = Some st'
  ∧ index st' = index st ∧ labels st' = labels st
  ∧ loaded_rgb_images st' = loaded_rgb_images st
  ∧ loaded_ir_images st' = loaded_ir_images st
  ∧ loaded_tiff_vals st' = loaded_tiff_vals st.
Proof.
  intros st st'.
  assert (worker_step 0 st = Some st') as Hstep by (vm_compute; reflexivity).
  destruct workers_and_loop_write_apart as [Hw _].
  split; [exact Hstep|]. exact (Hw _ _ _ Hstep).
Defined.


End three_pairs_events.
